(** * The Track entity of the annotation client (track.ts)

    A shallow embedding of [Track]: the sparse, frame-indexed feature store,
    the sorted keyframe index, the interpolation function, the
    bounds bookkeeping and the change notifications.

    Modelling conventions.
    - A JavaScript [number] that holds a frame bound ([begin], [end]) is a
      [num]: an integer or [Infinity].  Frame numbers that index the
      [features] array are naturals (array indices).
    - Box coordinates, confidences and thresholds are exact rationals [Q];
      [Math.round] is [floor (x + 1/2)].  The rounding error of IEEE doubles
      is not modelled.
    - A JavaScript array with holes is a [list (option A)]: [None] is a hole,
      the length of the list is the [length] of the array.
    - An optional property is an [option]; a property that is absent and one
      that holds [undefined] are both [None].
    - A method that mutates [this] and may throw is a function from the
      state to a result and the state left behind: what was written before
      a [throw] stays written. *)

From Stdlib Require Import ZArith QArith Qround Qabs Lia.
From stdpp Require Import base option list sorting gmap strings.

Local Open Scope nat_scope.

(** ** Numbers *)

Inductive num : Type :=
  | Fin (z : Z)
  | Infinity.

Definition of_frame (n : nat) : num := Fin (Z.of_nat n).

Definition num_ltb (a b : num) : bool :=
  match a, b with
  | Fin x, Fin y => (x <? y)%Z
  | Fin _, Infinity => true
  | Infinity, _ => false
  end.

Definition num_leb (a b : num) : bool :=
  match a, b with
  | Fin x, Fin y => (x <=? y)%Z
  | _, Infinity => true
  | Infinity, Fin _ => false
  end.

Definition num_eqb (a b : num) : bool :=
  match a, b with
  | Fin x, Fin y => (x =? y)%Z
  | Infinity, Infinity => true
  | _, _ => false
  end.

(** [n + k] for an integer [k]: [Infinity + k] is [Infinity]. *)
Definition num_add (a : num) (k : Z) : num :=
  match a with
  | Fin x => Fin (x + k)
  | Infinity => Infinity
  end.

(** [Math.round]: the nearest integer, halves go up. *)
Definition Math_round (x : Q) : Q := inject_Z (Qfloor (x + (1 # 2))).

Definition Q_geb (x y : Q) : bool := Qle_bool y x.
Definition Q_ltb (x y : Q) : bool := negb (Qle_bool y x).
Definition Q_eqb (x y : Q) : bool := Qeq_bool x y.

(** ** JavaScript arrays with holes *)

Section SparseArray.
Context {A : Type}.

(** [arr[i]]: [None] for a hole and past the end. *)
Definition arr_get (a : list (option A)) (i : nat) : option A :=
  match a !! i with
  | Some (Some x) => Some x
  | _ => None
  end.

(** [arr[n]] for a number: negative and infinite indices hold nothing. *)
Definition arr_get_num (a : list (option A)) (n : num) : option A :=
  match n with
  | Fin z => if (z <? 0)%Z then None else arr_get a (Z.to_nat z)
  | Infinity => None
  end.

(** [arr[i] = x]: writing past the end extends the array with holes. *)
Definition arr_set (a : list (option A)) (i : nat) (x : A) : list (option A) :=
  if decide (i < length a) then <[i := Some x]> a
  else a ++ replicate (i - length a) None ++ [Some x].

(** [delete arr[i]]: leaves a hole, the length is unchanged. *)
Definition arr_delete (a : list (option A)) (i : nat) : list (option A) :=
  <[i := None]> a.

(** The relative index of [Array.prototype.slice]: a negative argument
    counts from the end, everything is clamped to [0, length]. *)
Definition slice_index (len : nat) (n : num) : nat :=
  match n with
  | Fin z =>
      if (z <? 0)%Z then Z.to_nat (Z.max (Z.of_nat len + z) 0)
      else Nat.min (Z.to_nat z) len
  | Infinity => len
  end.

(** [arr.slice(start, stop)]: holes are kept, positions are renumbered. *)
Definition slice (a : list (option A)) (start stop : num) : list (option A) :=
  let k := slice_index (length a) start in
  let e := slice_index (length a) stop in
  take (e - k) (drop k a).

(** [arr.slice(start)] *)
Definition slice_from (a : list (option A)) (start : num) : list (option A) :=
  drop (slice_index (length a) start) a.

(** The elements [forEach] visits, in order: holes are skipped. *)
Definition present (a : list (option A)) : list A := omap id a.

(** [arr.find((a) => a)]: the first element that is there. *)
Definition find_truthy (a : list (option A)) : option A := head (present a).
End SparseArray.

(** ** Values of open string-keyed objects *)

Inductive JsVal : Type :=
  | JNull
  | JUndefined
  | JBool (b : bool)
  | JNum (q : Q)
  | JStr (s : string).

Abbreviation StringKeyObject := (gmap string JsVal).

(** [obj[key]]: a missing key reads as [undefined]. *)
Definition obj_get (o : StringKeyObject) (key : string) : JsVal :=
  default JUndefined (o !! key).

(** [[null, undefined].indexOf(v) !== -1] *)
Definition is_nullish (v : JsVal) : bool :=
  match v with
  | JNull | JUndefined => true
  | _ => false
  end.

(** ** Features *)

Abbreviation RectBounds := (Q * Q * Q * Q)%type.

Inductive GeoType : Type := Point | Polygon | LineString.

Definition GeoType_eqb (a b : GeoType) : bool :=
  match a, b with
  | Point, Point | Polygon, Polygon | LineString, LineString => true
  | _, _ => false
  end.

(** One GeoJSON feature of a frame's [geometry] collection:
    [properties.key], [geometry.type] and the coordinates. *)
Record GeoFeature : Type := {
  geo_key : option string;
  geo_type : GeoType;
  geo_coordinates : list (Q * Q);
}.

(** Truthiness of an optional flag and of an optional string. *)
Definition truthy (b : option bool) : bool := default false b.

Definition truthy_str (s : option string) : bool :=
  match s with
  | Some s => negb (String.eqb s "")
  | None => false
  end.

Definition opt_str_eqb (a b : option string) : bool :=
  match a, b with
  | Some x, Some y => String.eqb x y
  | None, None => true
  | _, _ => false
  end.

Module Feature.
Record t : Type := mk {
  frame : nat;
  flick : option Q;
  interpolate : option bool;
  keyframe : option bool;
  bounds : option RectBounds;
  geometry : option (list GeoFeature);
  fishLength : option Q;
  attributes : option StringKeyObject;
  head : option (Q * Q);
  tail : option (Q * Q);
}.

(** The later of two optional properties wins when it is there. *)
Definition over {A} (new old : option A) : option A :=
  match new with
  | Some x => Some x
  | None => old
  end.

(** [{ ...f, ...feature }] for an existing [f] *)
Definition spread (f feature : t) : t :=
  {| frame := frame feature;
     flick := over (flick feature) (flick f);
     interpolate := over (interpolate feature) (interpolate f);
     keyframe := over (keyframe feature) (keyframe f);
     bounds := over (bounds feature) (bounds f);
     geometry := over (geometry feature) (geometry f);
     fishLength := over (fishLength feature) (fishLength f);
     attributes := over (attributes feature) (attributes f);
     head := over (head feature) (head f);
     tail := over (tail feature) (tail f) |}.

(** [{ ...(this.features[frame] || {}), ...feature }] *)
Definition spread_onto (f : option t) (feature : t) : t :=
  match f with
  | Some f => spread f feature
  | None => feature
  end.

Definition set_frame (n : nat) (f : t) : t :=
  mk n (flick f) (interpolate f) (keyframe f) (bounds f) (geometry f)
     (fishLength f) (attributes f) (head f) (tail f).

Definition set_interpolate (b : option bool) (f : t) : t :=
  mk (frame f) (flick f) b (keyframe f) (bounds f) (geometry f)
     (fishLength f) (attributes f) (head f) (tail f).

Definition set_keyframe (k : option bool) (f : t) : t :=
  mk (frame f) (flick f) (interpolate f) k (bounds f) (geometry f)
     (fishLength f) (attributes f) (head f) (tail f).

Definition set_bounds (b : option RectBounds) (f : t) : t :=
  mk (frame f) (flick f) (interpolate f) (keyframe f) b (geometry f)
     (fishLength f) (attributes f) (head f) (tail f).

Definition set_geometry (g : option (list GeoFeature)) (f : t) : t :=
  mk (frame f) (flick f) (interpolate f) (keyframe f) (bounds f) g
     (fishLength f) (attributes f) (head f) (tail f).

Definition set_attributes (a : option StringKeyObject) (f : t) : t :=
  mk (frame f) (flick f) (interpolate f) (keyframe f) (bounds f) (geometry f)
     (fishLength f) a (head f) (tail f).

(** A feature with only [frame], [keyframe], [interpolate] and [bounds]. *)
Definition box (n : nat) (k i : option bool) (b : option RectBounds) : t :=
  mk n None i k b None None None None None.
End Feature.

Abbreviation Feature := Feature.t.

Definition round_bounds (b : RectBounds) : RectBounds :=
  let '(x1, y1, x2, y2) := b in
  (Math_round x1, Math_round y1, Math_round x2, Math_round y2).

(** Two boxes with the same four rational values. *)
Definition bounds_equiv (a b : RectBounds) : Prop :=
  let '(a1, a2, a3, a4) := a in
  let '(b1, b2, b3, b4) := b in
  (a1 == b1 /\ a2 == b2 /\ a3 == b3 /\ a4 == b4)%Q.

(** ** listUtils *)

(** Modelled from the spec: [listUtils.binarySearch] is not among the
    sources.  The spec asks for "a standard binary search returning an
    insertion index": the search below halves the window [lo, hi) and
    returns the first position whose element is not below [el]. *)
Fixpoint binarySearch_go (fuel : nat) (arr : list nat) (el lo hi : nat) : nat :=
  match fuel with
  | O => lo
  | S fuel =>
      if hi <=? lo then lo
      else
        let k := (lo + hi) / 2 in
        match arr !! k with
        | Some v =>
            if v <? el then binarySearch_go fuel arr el (k + 1) hi
            else binarySearch_go fuel arr el lo k
        | None => lo
        end
  end.

Definition binarySearch (arr : list nat) (el : nat) : nat :=
  binarySearch_go (length arr) arr el 0 (length arr).

(** Modelled from the spec: [listUtils.getSurroundingElements] is not among
    the sources.  The spec derives "(predecessor, successor) from
    index-1/index"; there is no pair before the first or after the last
    element. *)
Definition getSurroundingElements (arr : list nat) (position : nat)
  : option (nat * nat) :=
  match position with
  | O => None
  | S p =>
      match arr !! p, arr !! position with
      | Some d0, Some d1 => Some (d0, d1)
      | _, _ => None
      end
  end.

(** Modelled from the spec: [listUtils.listInsert] is not among the sources.
    The spec: "Inserts the frame into the sorted keyframe index (no
    duplicates)". *)
Definition listInsert (arr : list nat) (newval : nat) : list nat :=
  let position := binarySearch arr newval in
  if decide (arr !! position = Some newval) then arr
  else take position arr ++ newval :: drop position arr.

(** Modelled from the spec: [listUtils.listRemove] is not among the sources.
    The spec: "removes the keyframe index entry if the frame was a
    keyframe". *)
Definition listRemove (arr : list nat) (val : nat) : list nat :=
  let position := binarySearch arr val in
  if decide (arr !! position = Some val)
  then take position arr ++ drop (S position) arr
  else arr.

(** ** Results *)

Inductive Error : Type :=
  | SparseArrayExpected      (* features must be initialized with sparse array *)
  | KeyframeXorBounds        (* keyframe must not XOR bounds *)
  | CannotSplit              (* Cannot split track ... at frame ... *)
  | OnlyKeyframe             (* This is the only keyframe ... it cannot be removed *)
  | SetFeatureNotKeyframe    (* setFeature must be called with keyframe=true ... *)
  | IndexError               (* The requested confidencePairs index does not exist *)
  | BoundsMisaligned         (* Track bounds mis-aligned with feature array *)
  | BoundsMissing            (* Bounds cannot be missing from interpolated features *)
  | TypeError                (* a property of undefined was read *)
  | NotANumber.              (* a division by zero, outside the rational model *)

Inductive Res (A : Type) : Type :=
  | Ok (a : A)
  | Throw (e : Error).
Arguments Ok {A} a.
Arguments Throw {A} e.

(** ** Interpolation *)

Definition frameQ (n : nat) : Q := inject_Z (Z.of_nat n).

(** The blend weight [b = |frame - d0.frame| / (d1.frame - d0.frame)]. *)
Definition blend_weight (frame : nat) (d0 d1 : Feature) : Q :=
  Qabs ((frameQ frame - frameQ (Feature.frame d0))
        / (frameQ (Feature.frame d1) - frameQ (Feature.frame d0))).

Definition blend (a b : Q) (d0bounds d1bounds : RectBounds) : RectBounds :=
  let '(p1, p2, p3, p4) := d0bounds in
  let '(q1, q2, q3, q4) := d1bounds in
  ((p1 * a + q1 * b)%Q, (p2 * a + q2 * b)%Q,
   (p3 * a + q3 * b)%Q, (p4 * a + q4 * b)%Q).

(** [Track.interpolate(frame, d0, d1)].  With [d1.frame = d0.frame] the
    source divides by zero and goes on with [NaN] or [Infinity]; the model
    stops there with [NotANumber]. *)
Definition interpolate (frame : nat) (d0 d1 : Feature) : Res (option Feature) :=
  if negb (truthy (Feature.interpolate d0)) then Ok None
  else
    let b := blend_weight frame d0 d1 in
    let a := (1 - b)%Q in
    let keyframe := Q_eqb b 0 || Q_eqb a 0 in
    match Feature.bounds d0, Feature.bounds d1 with
    | Some d0bounds, Some d1bounds =>
        if Feature.frame d1 =? Feature.frame d0 then Throw NotANumber
        else
          Ok (Some (Feature.box frame (Some keyframe) (Some true)
                      (Some (blend a b d0bounds d1bounds))))
    | _, _ => Throw BoundsMissing
    end.

(** ** Threshold filter *)

Abbreviation ConfidencePair := (string * Q)%type.

(** [x || d] for an optional number: [undefined] and [0] are falsy. *)
Definition num_or (x : option Q) (d : Q) : Q :=
  match x with
  | Some v => if Q_eqb v 0 then d else v
  | None => d
  end.

(** [Track.trackExceedsThreshold(pairs, thresholds)] *)
Definition trackExceedsThreshold
    (pairs : list ConfidencePair) (thresholds : gmap string Q)
  : list ConfidencePair :=
  let defaultThresh := num_or (thresholds !! "default"%string) 0 in
  List.filter
    (fun '(name, value) => Q_geb value (num_or (thresholds !! name) defaultThresh))
    pairs.

(** ** The transport record and the constructor parameters *)

(** [TrackData], the json schema of a track.  [features] is a JavaScript
    array: [split] hands over slices that still have their holes. *)
Module TrackData.
Record t : Type := mk {
  trackId : Z;
  meta : option StringKeyObject;
  attributes : StringKeyObject;
  confidencePairs : list ConfidencePair;
  features : list (option Feature);
  begin : num;
  end_ : num;
}.
End TrackData.

Abbreviation TrackData := TrackData.t.

Module TrackParams.
Record t : Type := mk {
  meta : option StringKeyObject;
  begin : option num;
  end_ : option num;
  features : option (list (option Feature));
  confidencePairs : option (list ConfidencePair);
  attributes : option StringKeyObject;
  notifier : bool;
}.

(** [{}] *)
Definition empty : t := mk None None None None None None false.
End TrackParams.

Abbreviation TrackParams := TrackParams.t.

(** ** Notifications *)

Inductive EventName : Type :=
  | EvBounds | EvFeature | EvConfidencePairs | EvAttributes.

Inductive OldValue : Type :=
  | OldBounds (b e : num)                       (* [begin, end] *)
  | OldFeature (f : Feature)
  | OldEmptyObject                              (* {} *)
  | OldUndefined
  | OldConfidencePairs (l : list ConfidencePair)
  | OldAttribute (key : string) (value : JsVal). (* { key, value } *)

(** One call of the notifier: [{ track: this, event, oldValue }]. *)
Record Notification : Type := {
  event : EventName;
  oldValue : OldValue;
}.

(** ** Geometry patches *)

(** The test of [findIndex] in [setFeature]. *)
Definition geo_matches (geo item : GeoFeature) : bool :=
  let keyMatch :=
    negb (truthy_str (geo_key geo)) || opt_str_eqb (geo_key item) (geo_key geo) in
  let typeMatch := GeoType_eqb (geo_type item) (geo_type geo) in
  keyMatch && typeMatch.

(** Replace the first match by [geo], or push [geo]. *)
Fixpoint geo_patch (fg : list GeoFeature) (geo : GeoFeature) : list GeoFeature :=
  match fg with
  | [] => [geo]
  | item :: rest =>
      if geo_matches geo item then geo :: rest
      else item :: geo_patch rest geo
  end.

(** ** Confidence pairs *)

Fixpoint findIndex_name (pairs : list ConfidencePair) (name : string) : option nat :=
  match pairs with
  | [] => None
  | (a, _) :: rest =>
      if String.eqb a name then Some 0
      else S <$> findIndex_name rest name
  end.

Definition find_name (pairs : list ConfidencePair) (name : string)
  : option ConfidencePair :=
  List.find (fun '(a, _) => String.eqb a name) pairs.

(** [pairs.sort((a, b) => b[1] - a[1])]: descending and stable. *)
Fixpoint insert_desc (x : ConfidencePair) (l : list ConfidencePair)
  : list ConfidencePair :=
  match l with
  | [] => [x]
  | y :: rest =>
      if Q_ltb (snd x) (snd y) then y :: insert_desc x rest
      else x :: y :: rest
  end.

Definition sort_desc (l : list ConfidencePair) : list ConfidencePair :=
  foldr insert_desc [] l.

(** [pairs.splice(index, index >= 0 ? 1 : 0, pair)] with the [index] of
    [findIndex]: a hit is overwritten; [-1] counts from the end, the pair
    goes in before the last element. *)
Definition splice_pair (pairs : list ConfidencePair) (index : option nat)
    (pair : ConfidencePair) : list ConfidencePair :=
  match index with
  | Some i => <[i := pair]> pairs
  | None =>
      let start := length pairs - 1 in
      take start pairs ++ pair :: drop start pairs
  end.

(** ** The Track *)

Module Track.

(** The state of one [Track] object.  [notifier] says whether a callback
    is installed; [emitted] is the list of calls it has received, the
    oldest first. *)
Record t : Type := mk {
  trackId : Z;
  meta : StringKeyObject;
  attributes : StringKeyObject;
  confidencePairs : list ConfidencePair;
  features : list (option Feature);
  featureIndex : list nat;
  begin : num;
  end_ : num;
  revision : nat;
  notifier : bool;
  emitted : list Notification;
}.

Definition with_attributes (a : StringKeyObject) (s : t) : t :=
  mk (trackId s) (meta s) a (confidencePairs s) (features s) (featureIndex s)
     (begin s) (end_ s) (revision s) (notifier s) (emitted s).

Definition with_confidencePairs (c : list ConfidencePair) (s : t) : t :=
  mk (trackId s) (meta s) (attributes s) c (features s) (featureIndex s)
     (begin s) (end_ s) (revision s) (notifier s) (emitted s).

Definition with_features (f : list (option Feature)) (s : t) : t :=
  mk (trackId s) (meta s) (attributes s) (confidencePairs s) f (featureIndex s)
     (begin s) (end_ s) (revision s) (notifier s) (emitted s).

Definition with_featureIndex (i : list nat) (s : t) : t :=
  mk (trackId s) (meta s) (attributes s) (confidencePairs s) (features s) i
     (begin s) (end_ s) (revision s) (notifier s) (emitted s).

Definition with_begin (b : num) (s : t) : t :=
  mk (trackId s) (meta s) (attributes s) (confidencePairs s) (features s)
     (featureIndex s) b (end_ s) (revision s) (notifier s) (emitted s).

Definition with_end (e : num) (s : t) : t :=
  mk (trackId s) (meta s) (attributes s) (confidencePairs s) (features s)
     (featureIndex s) (begin s) e (revision s) (notifier s) (emitted s).

Definition with_revision (r : nat) (s : t) : t :=
  mk (trackId s) (meta s) (attributes s) (confidencePairs s) (features s)
     (featureIndex s) (begin s) (end_ s) r (notifier s) (emitted s).

Definition with_notifier (n : bool) (s : t) : t :=
  mk (trackId s) (meta s) (attributes s) (confidencePairs s) (features s)
     (featureIndex s) (begin s) (end_ s) (revision s) n (emitted s).

Definition with_emitted (e : list Notification) (s : t) : t :=
  mk (trackId s) (meta s) (attributes s) (confidencePairs s) (features s)
     (featureIndex s) (begin s) (end_ s) (revision s) (notifier s) e.

(** *** Methods that mutate and may throw *)

Definition M (A : Type) : Type := t -> Res A * t.

Definition ret {A} (a : A) : M A := fun s => (Ok a, s).

Definition throw {A} (e : Error) : M A := fun s => (Throw e, s).

Definition bind {A B} (m : M A) (k : A -> M B) : M B :=
  fun s =>
    match m s with
    | (Ok a, s') => k a s'
    | (Throw e, s') => (Throw e, s')
    end.

Definition get : M t := fun s => (Ok s, s).

Definition modify (f : t -> t) : M unit := fun s => (Ok tt, f s).

(** A result computed from the state without touching it. *)
Definition lift {A} (r : t -> Res A) : M A := fun s => (r s, s).

Declare Scope track_scope.
Delimit Scope track_scope with track.
Notation "x <- c ;; k" := (bind c (fun x => k))
  (at level 100, c at next level, right associativity) : track_scope.
Notation "c ;; k" := (bind c (fun _ => k))
  (at level 100, right associativity) : track_scope.
Local Open Scope track_scope.

(** [list.forEach(body)] *)
Fixpoint forEach {A} (l : list A) (body : A -> M unit) : M unit :=
  match l with
  | [] => ret tt
  | x :: rest => body x ;; forEach rest body
  end.

(** *** Construction *)

(** Only the first element that is there is looked at. *)
Definition sanityCheckFeatures (features : list (option Feature)) : Res unit :=
  match list_find (fun o : option Feature => is_Some o) features with
  | Some (i, Some f) =>
      if Feature.frame f =? i then Ok tt else Throw SparseArrayExpected
  | _ => Ok tt
  end.

Fixpoint repopulate_go (fs : list Feature) (index : list nat) : Res (list nat) :=
  match fs with
  | [] => Ok index
  | f :: rest =>
      let k := truthy (Feature.keyframe f) in
      let b := bool_decide (is_Some (Feature.bounds f)) in
      let index' := if k && b then index ++ [Feature.frame f] else index in
      if xorb k b then Throw KeyframeXorBounds
      else repopulate_go rest index'
  end.

(** [repopulateInterpolatedFrames]: the new [featureIndex]. *)
Definition repopulateInterpolatedFrames (features : list (option Feature))
  : Res (list nat) :=
  repopulate_go (present features) [].

(** [new Track(trackId, params)] *)
Definition construct (trackId : Z) (p : TrackParams) : Res t :=
  let features := default [] (TrackParams.features p) in
  match sanityCheckFeatures features with
  | Throw e => Throw e
  | Ok _ =>
      match repopulateInterpolatedFrames features with
      | Throw e => Throw e
      | Ok index =>
          Ok {| trackId := trackId;
                meta := default ∅ (TrackParams.meta p);
                attributes := default ∅ (TrackParams.attributes p);
                confidencePairs := default [] (TrackParams.confidencePairs p);
                features := features;
                featureIndex := index;
                begin := default Infinity (TrackParams.begin p);
                end_ := default (Fin 0) (TrackParams.end_ p);
                revision := 1;
                notifier := TrackParams.notifier p;
                emitted := [] |}
      end
  end.

(** [{ keyframe: true, ...f }] *)
Definition default_keyframe (f : Feature) : Feature :=
  Feature.set_keyframe (Feature.over (Feature.keyframe f) (Some true)) f.

Definition sparseFeatures (features : list (option Feature))
  : list (option Feature) :=
  fold_left (fun acc f => arr_set acc (Feature.frame f) (default_keyframe f))
            (present features) [].

(** [Track.fromJSON(json)].  A [trackId] is an integer here, which
    [parseInt(json.trackId.toString(), 10)] gives back. *)
Definition fromJSON (json : TrackData) : Res t :=
  construct (TrackData.trackId json)
    {| TrackParams.features := Some (sparseFeatures (TrackData.features json));
       TrackParams.meta := TrackData.meta json;
       TrackParams.attributes := Some (TrackData.attributes json);
       TrackParams.confidencePairs := Some (TrackData.confidencePairs json);
       TrackParams.begin := Some (TrackData.begin json);
       TrackParams.end_ := Some (TrackData.end_ json);
       TrackParams.notifier := false |}.

(** *** Queries *)

(** [(end - begin) + 1]; [None] when the difference is not finite. *)
Definition length (s : t) : option Z :=
  match end_ s, begin s with
  | Fin e, Fin b => Some (e - b + 1)%Z
  | _, _ => None
  end.

Definition length_is (s : t) (n : Z) : bool :=
  match length s with
  | Some l => (l =? n)%Z
  | None => false
  end.

Definition isInitialized (s : t) : bool := 0 <? List.length (featureIndex s).

Definition canSplit (s : t) (frame : nat) : bool :=
  num_ltb (begin s) (of_frame frame) && num_leb (of_frame frame) (end_ s).

Definition getNextKeyframe (s : t) (frame : num) : option nat :=
  Feature.frame <$> find_truthy (slice_from (features s) frame).

Definition getPreviousKeyframe (s : t) (frame : num) : option nat :=
  Feature.frame
    <$> find_truthy (reverse (slice (features s) (Fin 0) (num_add frame 1))).

(** [Track.interpolate(frame, d0, d1)] on what [this.features[_frame]]
    gave: reading a property of [undefined] throws. *)
Definition interpolate_entries (frame : nat) (d0 d1 : option Feature)
  : Res (option Feature) :=
  match d0 with
  | None => Throw TypeError
  | Some a =>
      if negb (truthy (Feature.interpolate a)) then Ok None
      else
        match d1 with
        | None => Throw TypeError
        | Some b => interpolate frame a b
        end
  end.

Definition getFeature (s : t) (frame : nat)
  : Res (option Feature * option Feature * option Feature) :=
  match arr_get (features s) frame with
  | Some maybeFrame => Ok (Some maybeFrame, Some maybeFrame, Some maybeFrame)
  | None =>
      if num_ltb (of_frame frame) (begin s) || num_ltb (end_ s) (of_frame frame)
      then
        if num_leb (of_frame frame) (begin s)
        then Ok (None, arr_get_num (features s) (begin s), None)
        else Ok (None, None, arr_get_num (features s) (end_ s))
      else
        let position := binarySearch (featureIndex s) frame in
        match getSurroundingElements (featureIndex s) position with
        | Some (i0, i1) =>
            let d0 := arr_get (features s) i0 in
            let d1 := arr_get (features s) i1 in
            match interpolate_entries frame d0 d1 with
            | Ok r => Ok (r, d0, d1)
            | Throw e => Throw e
            end
        | None =>
            if negb (List.length (featureIndex s) =? 0)
            then Throw BoundsMisaligned
            else Ok (None, None, None)
        end
  end.

Definition opt_flag (f : option Feature) (p : Feature -> option bool) : bool :=
  match f with
  | Some f => truthy (p f)
  | None => false
  end.

(** [canInterpolate(frame)]: the three features and the flag. *)
Definition canInterpolate (s : t) (frame : nat)
  : Res (option Feature * option Feature * option Feature * bool) :=
  match getFeature s frame with
  | Throw e => Throw e
  | Ok (real, lower, upper) =>
      Ok (real, lower, upper,
          opt_flag real Feature.interpolate
          || opt_flag lower Feature.interpolate
          || (negb (bool_decide (is_Some lower))
              && opt_flag upper Feature.interpolate))
  end.

Definition getType (s : t) (index : nat) : Res ConfidencePair :=
  match confidencePairs s !! index with
  | Some cp => Ok cp
  | None => Throw IndexError
  end.

Definition geo_selected (key : option string) (type : option GeoType)
    (item : GeoFeature) : bool :=
  let matchesKey :=
    negb (truthy_str key) || opt_str_eqb (geo_key item) key in
  let matchesType :=
    match type with
    | Some ty => GeoType_eqb (geo_type item) ty
    | None => true
    end in
  matchesKey && matchesType.

Definition getFeatureGeometry (s : t) (frame : nat)
    (key : option string) (type : option GeoType) : list GeoFeature :=
  match arr_get (features s) frame with
  | Some feature =>
      match Feature.geometry feature with
      | Some g => List.filter (geo_selected key type) g
      | None => []
      end
  | None => []
  end.

Definition condenseFeatures (s : t) : list Feature := present (features s).

Definition serialize (s : t) : TrackData :=
  {| TrackData.trackId := trackId s;
     TrackData.meta := Some (meta s);
     TrackData.attributes := attributes s;
     TrackData.confidencePairs := confidencePairs s;
     TrackData.features := Some <$> condenseFeatures s;
     TrackData.begin := begin s;
     TrackData.end_ := end_ s |}.

(** [x || d] for an optional frame number: [undefined] and [0] are falsy. *)
Definition frame_or (x : option nat) (d : num) : num :=
  match x with
  | Some (S n) => of_frame (S n)
  | _ => d
  end.

Definition split (s : t) (frame : nat) (id1 id2 : Z) : Res (t * t) :=
  if negb (canSplit s frame) then Throw CannotSplit
  else
    match
      fromJSON
        {| TrackData.trackId := id1;
           TrackData.meta := Some (meta s);
           TrackData.begin := begin s;
           TrackData.end_ :=
             frame_or (getPreviousKeyframe s (num_add (of_frame frame) (-1)))
                      (begin s);
           TrackData.features := slice (features s) (begin s) (of_frame frame);
           TrackData.confidencePairs := confidencePairs s;
           TrackData.attributes := attributes s |}
    with
    | Throw e => Throw e
    | Ok t1 =>
        match
          fromJSON
            {| TrackData.trackId := id2;
               TrackData.meta := Some (meta s);
               TrackData.begin :=
                 frame_or (getNextKeyframe s (of_frame frame)) (end_ s);
               TrackData.end_ := end_ s;
               TrackData.features := slice_from (features s) (of_frame frame);
               TrackData.confidencePairs := confidencePairs s;
               TrackData.attributes := attributes s |}
        with
        | Throw e => Throw e
        | Ok t2 => Ok (t1, t2)
        end
    end.

(** *** Mutations *)

(** Nothing is broadcast until the first feature is in the index. *)
Definition notify (name : EventName) (old : OldValue) : M unit :=
  fun s =>
    if isInitialized s then
      let s1 := with_revision (revision s + 1) s in
      if notifier s1
      then (Ok tt, with_emitted (emitted s1 ++ [Build_Notification name old]) s1)
      else (Ok tt, s1)
    else (Ok tt, s).

Definition setNotifier (n : bool) : M unit := modify (with_notifier n).

Definition maybeExpandBounds (frame : nat) : M unit :=
  s <- get ;;
  let oldval := OldBounds (begin s) (end_ s) in
  if num_ltb (of_frame frame) (begin s) then
    modify (with_begin (of_frame frame)) ;;
    notify EvBounds oldval
  else if num_ltb (end_ s) (of_frame frame) then
    modify (with_end (of_frame frame)) ;;
    notify EvBounds oldval
  else ret tt.

Definition maybeShrinkBounds (frame : num) : M unit :=
  s <- get ;;
  let oldval := OldBounds (begin s) (end_ s) in
  if num_eqb frame (begin s) then
    (match getNextKeyframe s (num_add (begin s) 1) with
     | None =>
         modify (with_begin Infinity) ;;
         modify (with_end (Fin 0))
     | Some nextFrame => modify (with_begin (of_frame nextFrame))
     end) ;;
    notify EvBounds oldval
  else if num_eqb frame (end_ s) then
    (match getPreviousKeyframe s (num_add (end_ s) (-1)) with
     | None =>
         modify (with_end (Fin 0)) ;;
         modify (with_begin Infinity)
     | Some previousFrame => modify (with_end (of_frame previousFrame))
     end) ;;
    notify EvBounds oldval
  else ret tt.

(** The feature [setFeature] writes first: the merge of the old entry and
    the argument, with the argument's bounds rounded. *)
Definition merged_feature (f : option Feature) (feature : Feature) : Feature :=
  let stored := Feature.spread_onto f feature in
  match Feature.bounds feature with
  | Some b => Feature.set_bounds (Some (round_bounds b)) stored
  | None => stored
  end.

(** The collection [fg] after all patches. *)
Definition patched_geometry (stored : Feature) (geometry : list GeoFeature)
  : list GeoFeature :=
  fold_left geo_patch geometry (default [] (Feature.geometry stored)).

(** The entry after the geometry step.  A collection that was there is
    patched in place; a fresh one is only attached when it is not empty.
    The collection is held by value here: this gives the entry of the
    frame that is written.  Where the feature of another frame holds the
    same collection object, the patches show there as well, which this
    value does not tell; what is stated of other frames is stated apart
    from their geometry. *)
Definition with_patched_geometry (stored : Feature) (geometry : list GeoFeature)
  : Feature :=
  let fg := patched_geometry stored geometry in
  if bool_decide (is_Some (Feature.geometry stored)) || (0 <? List.length fg)
  then Feature.set_geometry (Some fg) stored
  else stored.

(** The old entry as the notifier sees it.  The new entry is a shallow
    copy: when the argument brings no geometry, old and new entry share
    the collection, and the patches show in the old entry too. *)
Definition old_feature_value (f : option Feature) (feature : Feature)
    (geometry : list GeoFeature) : OldValue :=
  match f with
  | None => OldEmptyObject
  | Some f0 =>
      match Feature.geometry feature, Feature.geometry f0 with
      | None, Some _ =>
          OldFeature
            (Feature.set_geometry
               (Some (patched_geometry (merged_feature f feature) geometry)) f0)
      | _, _ => OldFeature f0
      end
  end.

Definition setFeature (feature : Feature) (geometry : list GeoFeature)
  : M Feature :=
  let frame := Feature.frame feature in
  s <- get ;;
  let f := arr_get (features s) frame in
  let stored := merged_feature f feature in
  modify (fun s => with_features (arr_set (features s) frame stored) s) ;;
  if negb (truthy (Feature.keyframe stored)) then throw SetFeatureNotKeyframe
  else
    modify (fun s => with_featureIndex (listInsert (featureIndex s) frame) s) ;;
    let stored' := with_patched_geometry stored geometry in
    modify (fun s => with_features (arr_set (features s) frame stored') s) ;;
    maybeExpandBounds frame ;;
    s <- get ;;
    (if List.length (featureIndex s) =? 1 then
       if negb (num_eqb (of_frame frame) (begin s))
       then maybeShrinkBounds (begin s)
       else if negb (num_eqb (of_frame frame) (end_ s))
       then maybeShrinkBounds (end_ s)
       else ret tt
     else ret tt) ;;
    notify EvFeature (old_feature_value f feature geometry) ;;
    ret stored'.

Definition deleteFeature (frame : nat) : M unit :=
  s <- get ;;
  let feature := arr_get (features s) frame in
  (if opt_flag feature Feature.keyframe
   then modify (fun s => with_featureIndex (listRemove (featureIndex s) frame) s)
   else ret tt) ;;
  modify (fun s => with_features (arr_delete (features s) frame) s) ;;
  maybeShrinkBounds (of_frame frame) ;;
  notify EvFeature
    (match feature with
     | Some f => OldFeature f
     | None => OldUndefined
     end).

Definition setFeatureAttribute (frame : nat) (name : string) (value : JsVal)
  : M unit :=
  s <- get ;;
  match arr_get (features s) frame with
  | Some f =>
      let f' :=
        Feature.set_attributes
          (Some (<[name := value]> (default ∅ (Feature.attributes f)))) f in
      modify (with_features (arr_set (features s) frame f')) ;;
      notify EvFeature (OldFeature f')
  | None => ret tt
  end.

Fixpoint remove_first {A} (p : A -> bool) (l : list A) : option (list A) :=
  match l with
  | [] => None
  | x :: rest =>
      if p x then Some rest
      else cons x <$> remove_first p rest
  end.

(** [removeFeatureGeometry(frame, { key, type })].  The geometry is
    spliced out of the collection of the frame in place; as in
    [with_patched_geometry] the collection is held by value, which gives
    the entry of this frame. *)
Definition removeFeatureGeometry (frame : nat)
    (key : option string) (type : option GeoType) : M bool :=
  s <- get ;;
  match arr_get (features s) frame with
  | None => throw TypeError
  | Some feature =>
      match Feature.geometry feature with
      | None => ret false
      | Some g =>
          match remove_first (geo_selected key type) g with
          | Some g' =>
              let feature' := Feature.set_geometry (Some g') feature in
              modify (with_features (arr_set (features s) frame feature')) ;;
              notify EvFeature (OldFeature feature') ;;
              ret true
          | None => ret false
          end
      end
  end.

Definition removeTypes (types : list string) : M (list ConfidencePair) :=
  s <- get ;;
  (if 0 <? List.length (confidencePairs s) then
     let old := confidencePairs s in
     modify (with_confidencePairs
               (List.filter
                  (fun '(type, _) => negb (bool_decide (type ∈ types))) old)) ;;
     notify EvConfidencePairs (OldConfidencePairs old)
   else ret tt) ;;
  s <- get ;;
  ret (confidencePairs s).

(** [setType(trackType, confidenceVal, replace)].  Below confidence 1 the
    pair list is edited in place, so the [old] that is broadcast is the
    edited list. *)
Definition setType (trackType : string) (confidenceVal : Q)
    (replace : option string) : M unit :=
  s <- get ;;
  let old := confidencePairs s in
  if Q_geb confidenceVal 1 then
    modify (with_confidencePairs [(trackType, 1%Q)]) ;;
    notify EvConfidencePairs (OldConfidencePairs old)
  else
    let index := findIndex_name old trackType in
    let pairs := splice_pair old index (trackType, confidenceVal) in
    let pairs :=
      if truthy_str replace then
        match findIndex_name pairs (default ""%string replace) with
        | Some replaceIndex => delete replaceIndex pairs
        | None => pairs
        end
      else pairs in
    let pairs := sort_desc pairs in
    modify (with_confidencePairs pairs) ;;
    notify EvConfidencePairs (OldConfidencePairs pairs).

Definition setAttribute (key : string) (value : JsVal) : M unit :=
  s <- get ;;
  let oldval := obj_get (attributes s) key in
  modify (with_attributes (<[key := value]> (attributes s))) ;;
  notify EvAttributes (OldAttribute key oldval).

(** The three loop bodies of [merge]. *)
Definition merge_pair (cp : ConfidencePair) : M unit :=
  s <- get ;;
  match find_name (confidencePairs s) (fst cp) with
  | None => setType (fst cp) (snd cp) None
  | Some m =>
      if Q_ltb (snd m) (snd cp) then setType (fst cp) (snd cp) None
      else ret tt
  end.

Definition merge_feature (f : Feature) : M unit :=
  r <- lift (fun s => getFeature s (Feature.frame f)) ;;
  match r with
  | (None, _, _) =>
      setFeature f (default [] (Feature.geometry f)) ;; ret tt
  | (Some _, _, _) => ret tt
  end.

Definition merge_attribute (kv : string * JsVal) : M unit :=
  s <- get ;;
  if is_nullish (obj_get (attributes s) (fst kv))
  then setAttribute (fst kv) (snd kv)
  else ret tt.

Definition merge_other (other : t) : M unit :=
  forEach (confidencePairs other) merge_pair ;;
  forEach (present (features other)) merge_feature ;;
  forEach (map_to_list (attributes other)) merge_attribute.

Definition merge (others : list t) : M unit := forEach others merge_other.

Definition toggleKeyframe (frame : nat) : M unit :=
  r <- lift (fun s => canInterpolate s frame) ;;
  let '(real, lower, upper, _) := r in
  s <- get ;;
  if bool_decide (is_Some real) && length_is s 1 then throw OnlyKeyframe
  else
    match real with
    | Some re =>
        if negb (truthy (Feature.keyframe re)) then
          setFeature
            (Feature.set_keyframe (Some true) (Feature.set_frame frame re)) [] ;;
          ret tt
        else deleteFeature frame
    | None =>
        match lower, upper with
        | None, None => ret tt
        | _, _ =>
            let interFeature :=
              match upper with
              | Some u =>
                  if Feature.frame u <? frame then Some u
                  else
                    match lower with
                    | Some l => if frame <? Feature.frame l then Some l else None
                    | None => None
                    end
              | None =>
                  match lower with
                  | Some l => if frame <? Feature.frame l then Some l else None
                  | None => None
                  end
              end in
            match interFeature with
            | Some i =>
                setFeature
                  (Feature.set_keyframe (Some true) (Feature.set_frame frame i))
                  [] ;;
                ret tt
            | None => ret tt
            end
        end
    end.

Definition toggleInterpolation (frame : nat) : M unit :=
  r <- lift (fun s => canInterpolate s frame) ;;
  let '(real, lower, upper, interpolate) := r in
  let targetKeyframe :=
    if opt_flag real Feature.keyframe then real
    else match lower with
         | Some l => Some l
         | None => upper
         end in
  match targetKeyframe with
  | Some k =>
      setFeature (Feature.set_interpolate (Some (negb interpolate)) k) [] ;;
      ret tt
  | None => ret tt
  end.

End Track.

Abbreviation Track := Track.t.

(** ** Concrete tracks and records used by the examples *)

(** A keyframe with a box: [{ frame, keyframe: true, interpolate, bounds }]. *)
Definition keyframe_at (n : nat) (i : bool) (b : RectBounds) : Feature :=
  Feature.box n (Some true) (Some i) (Some b).

(** [new Track(0, {})] *)
Definition new_track : Track :=
  {| Track.trackId := 0;
     Track.meta := ∅;
     Track.attributes := ∅;
     Track.confidencePairs := [];
     Track.features := [];
     Track.featureIndex := [];
     Track.begin := Infinity;
     Track.end_ := Fin 0;
     Track.revision := 1;
     Track.notifier := false;
     Track.emitted := [] |}.

(** Keyframes at 10 (interpolating) and 20, the boxes of the
    interpolation law. *)
Definition record_10_20 (i : bool) : TrackData :=
  {| TrackData.trackId := 1;
     TrackData.meta := None;
     TrackData.attributes := ∅;
     TrackData.confidencePairs := [];
     TrackData.features :=
       [Some (keyframe_at 10 i (0, 0, 10, 10)%Q);
        Some (keyframe_at 20 false (10, 10, 20, 20)%Q)];
     TrackData.begin := Fin 10;
     TrackData.end_ := Fin 20 |}.

(** Thresholds with an entry for [fish] and a default. *)
Definition thresholds_of (fish dflt : Q) : gmap string Q :=
  {[ "fish"%string := fish; "default"%string := dflt ]}.

(** ** Well-formed tracks *)

(** [begin] and [end] are synchronized with the stored features: both are
    frames that hold a feature.  ([getFeature] reports a track whose bounds
    are "mis-aligned with feature array" as a defect.) *)
Definition bounds_synchronized (s : Track) : Prop :=
  is_Some (arr_get_num (Track.features s) (Track.begin s))
  /\ is_Some (arr_get_num (Track.features s) (Track.end_ s)).

(** The entries of [l] carry their own position, counted from [k], as
    [frame]: the entry at position [i] has [frame = k + i]. *)
Definition indexed_from (k : nat) (l : list (option Feature)) : Prop :=
  forall i g, l !! i = Some (Some g) -> Feature.frame g = k + i.

(** One step of the loop of [fromJSON]. *)
Definition place (acc : list (option Feature)) (f : Feature) : list (option Feature) :=
  arr_set acc (Feature.frame f) (Track.default_keyframe f).

(** A keyframe in the sense of the data model: flagged, and with a box. *)
Definition keyframe_with_bounds (g : Feature) : Prop :=
  Feature.keyframe g = Some true /\ is_Some (Feature.bounds g).

(** What the constructor checks of every feature: [!!keyframe] and
    [!!bounds] agree. *)
Definition consistent (g : Feature) : Prop :=
  truthy (Feature.keyframe g) = bool_decide (is_Some (Feature.bounds g)).

(** Feature lists [fromJSON] accepts without an error: distinct frames,
    and keyframe and bounds agree once the keyframe default is filled in. *)
Definition loadable (l : list (option Feature)) : Prop :=
  NoDup (Feature.frame <$> present l)
  /\ Forall (fun f => consistent (Track.default_keyframe f)) (present l).

(** The frames the constructor puts into [featureIndex]. *)
Definition keyframes_of (l : list Feature) : list nat :=
  Feature.frame <$> List.filter (fun g => truthy (Feature.keyframe g)) l.

(** [{ ...f, keyframe: true }] *)
Definition force_keyframe (f : Feature) : Feature :=
  Feature.set_keyframe (Some true) f.

(** A valid dense transport record: the feature list has no holes and no
    two features on one frame, and every feature is a keyframe, as every
    persisted feature is: it has a box and is not marked
    [keyframe: false]. *)
Definition valid_record (R : TrackData) : Prop :=
  Forall is_Some (TrackData.features R)
  /\ NoDup (Feature.frame <$> present (TrackData.features R))
  /\ Forall (fun f => Feature.keyframe f <> Some false
                      /\ is_Some (Feature.bounds f))
            (present (TrackData.features R)).

(** A well-formed track: [begin] is not negative, and every stored feature
    sits at the position of its own [frame], is a keyframe with bounds and
    lies within [[begin, end]]. *)
Definition well_formed (s : Track) : Prop :=
  num_leb (Fin 0) (Track.begin s) = true
  /\ forall i f,
       arr_get (Track.features s) i = Some f ->
       Feature.frame f = i
       /\ keyframe_with_bounds f
       /\ num_leb (Track.begin s) (of_frame i) = true
       /\ num_leb (of_frame i) (Track.end_ s) = true.

(** [p] is the last frame at or before [k] that holds a feature. *)
Definition previous_keyframe (s : Track) (k p : nat) : Prop :=
  p <= k
  /\ is_Some (arr_get (Track.features s) p)
  /\ forall j, p < j -> j <= k -> arr_get (Track.features s) j = None.

(** [p] is the first frame at or after [k] that holds a feature. *)
Definition next_keyframe (s : Track) (k p : nat) : Prop :=
  k <= p
  /\ is_Some (arr_get (Track.features s) p)
  /\ forall j, k <= j -> j < p -> arr_get (Track.features s) j = None.

(** The record of the split law: keyframes at 1, 5 and 10. *)
Definition record_1_5_10 : TrackData :=
  {| TrackData.trackId := 1;
     TrackData.meta := None;
     TrackData.attributes := ∅;
     TrackData.confidencePairs := [];
     TrackData.features :=
       [Some (keyframe_at 1 true (0, 0, 10, 10)%Q);
        Some (keyframe_at 5 true (2, 2, 12, 12)%Q);
        Some (keyframe_at 10 false (10, 10, 20, 20)%Q)];
     TrackData.begin := Fin 1;
     TrackData.end_ := Fin 10 |}.

(** A record with keyframes at 0, 5 and 10 whose [begin] is 3. *)
Definition record_0_5_10_from_3 : TrackData :=
  {| TrackData.trackId := 1;
     TrackData.meta := None;
     TrackData.attributes := ∅;
     TrackData.confidencePairs := [];
     TrackData.features :=
       [Some (keyframe_at 0 true (0, 0, 10, 10)%Q);
        Some (keyframe_at 5 true (2, 2, 12, 12)%Q);
        Some (keyframe_at 10 false (10, 10, 20, 20)%Q)];
     TrackData.begin := Fin 3;
     TrackData.end_ := Fin 10 |}.

(** A record with one keyframe, at 5, whose bounds are 0 and 10. *)
Definition record_5_within_0_10 : TrackData :=
  {| TrackData.trackId := 1;
     TrackData.meta := None;
     TrackData.attributes := ∅;
     TrackData.confidencePairs := [];
     TrackData.features := [Some (keyframe_at 5 false (0, 0, 10, 10)%Q)];
     TrackData.begin := Fin 0;
     TrackData.end_ := Fin 10 |}.

(** Every stored feature sits at the position of its own [frame]. *)
Definition frames_stored (s : Track) : Prop :=
  forall i f, arr_get (Track.features s) i = Some f -> Feature.frame f = i.

(** A slice of stored keyframes, renumbered from [k]. *)
Definition stored_from (k : nat) (l : list (option Feature)) : Prop :=
  forall i g, arr_get l i = Some g ->
              Feature.frame g = k + i /\ keyframe_with_bounds g.

(** The track [fromJSON] builds from [record_1_5_10]. *)
Definition track_1_5_10 : Track :=
  {| Track.trackId := 1;
     Track.meta := ∅;
     Track.attributes := ∅;
     Track.confidencePairs := [];
     Track.features := Track.sparseFeatures (TrackData.features record_1_5_10);
     Track.featureIndex := [1; 5; 10];
     Track.begin := Fin 1;
     Track.end_ := Fin 10;
     Track.revision := 1;
     Track.notifier := false;
     Track.emitted := [] |}.

(** [r] splits [arr] around [el]: everything before position [r] is below
    [el], everything from [r] on is not. *)
Definition splits_at (arr : list nat) (el r : nat) : Prop :=
  (forall i x, i < r -> arr !! i = Some x -> x < el)
  /\ (forall i x, r <= i -> arr !! i = Some x -> el <= x).

(** The pair around [el], told without positions: two neighbours of the
    index with [d0 < el <= d1]. *)
Definition surrounds (arr : list nat) (el d0 d1 : nat) : Prop :=
  d0 ∈ arr /\ d1 ∈ arr /\ d0 < el <= d1
  /\ forall x, x ∈ arr -> x <= d0 \/ d1 <= x.

(** Two states with the same timeline: features, index and bounds. *)
Definition same_timeline (s s' : Track) : Prop :=
  Track.features s' = Track.features s
  /\ Track.featureIndex s' = Track.featureIndex s
  /\ Track.begin s' = Track.begin s
  /\ Track.end_ s' = Track.end_ s.

(** The keyframe index is strictly sorted and lies within [[begin, end]]. *)
Definition index_ok (s : Track) : Prop :=
  StronglySorted lt (Track.featureIndex s)
  /\ forall i, i ∈ Track.featureIndex s ->
       num_leb (Track.begin s) (of_frame i) = true
       /\ num_leb (of_frame i) (Track.end_ s) = true.

(** [m] keeps [P], whether it returns or throws. *)
Definition preserves {A} (P : Track -> Prop) (m : Track.M A) : Prop :=
  forall s r s', P s -> m s = (r, s') -> P s'.

(** [P] only looks at the timeline. *)
Definition timeline_stable (P : Track -> Prop) : Prop :=
  forall s s', same_timeline s s' -> P s -> P s'.

(** The bounds after [maybeExpandBounds(g)]. *)
Definition expanded (b e : num) (g : nat) (b' e' : num) : Prop :=
  (num_ltb (of_frame g) b = true /\ b' = of_frame g /\ e' = e)
  \/ (num_ltb (of_frame g) b = false /\ num_ltb e (of_frame g) = true
      /\ b' = b /\ e' = of_frame g)
  \/ (num_ltb (of_frame g) b = false /\ num_ltb e (of_frame g) = false
      /\ b' = b /\ e' = e).

(** Frame [i] lies within the bounds [[b, e]]. *)
Definition bounds_contain (b e : num) (i : nat) : Prop :=
  num_leb b (of_frame i) = true /\ num_leb (of_frame i) e = true.





(** A record with the features [fs] and the bounds [[b, e]]. *)
Definition record_of (fs : list Feature) (b e : Z) : TrackData :=
  {| TrackData.trackId := 1;
     TrackData.meta := None;
     TrackData.attributes := ∅;
     TrackData.confidencePairs := [];
     TrackData.features := Some <$> fs;
     TrackData.begin := Fin b;
     TrackData.end_ := Fin e |}.

(** The two tracks of the merge law: both have frame 5, only [B] has 7. *)
Definition merge_A_5 : TrackData :=
  record_of [keyframe_at 5 false (1, 1, 2, 2)%Q] 5 5.
Definition merge_B_5_7 : TrackData :=
  record_of [keyframe_at 5 false (7, 7, 9, 9)%Q;
             keyframe_at 7 false (3, 3, 4, 4)%Q] 5 7.


(** The track of a record that loads. *)
Definition from_Ok (r : Res Track) : Track :=
  match r with
  | Ok t => t
  | Throw _ => new_track
  end.

Definition track_A_5 : Track := from_Ok (Track.fromJSON merge_A_5).
Definition track_B_5_7 : Track := from_Ok (Track.fromJSON merge_B_5_7).

(** ** The track invariant *)

(** A coherent track: the keyframe index is strictly sorted and lists
    exactly the frames that hold a feature, every stored feature sits at
    the position of its own [frame] and is a keyframe with a box, and, once
    there is a keyframe, [begin] and [end] are the first and the last one. *)
Definition coherent (s : Track) : Prop :=
  StronglySorted lt (Track.featureIndex s)
  /\ (forall i, i ∈ Track.featureIndex s
                <-> is_Some (arr_get (Track.features s) i))
  /\ (forall i f, arr_get (Track.features s) i = Some f ->
                  Feature.frame f = i /\ keyframe_with_bounds f)
  /\ (Track.featureIndex s <> [] ->
      exists b e,
        Track.begin s = of_frame b /\ Track.end_ s = of_frame e
        /\ b ∈ Track.featureIndex s /\ e ∈ Track.featureIndex s
        /\ forall i, i ∈ Track.featureIndex s -> b <= i <= e).

(** A track that has its first keyframe. *)
Definition initialized (s : Track) : Prop := Track.featureIndex s <> [].

(** An argument [setFeature] takes without breaking the invariant: a
    keyframe with a box on a free frame, or an update of a stored keyframe
    that does not unset [keyframe]. *)
Definition settable (s : Track) (fb : Feature) : Prop :=
  match arr_get (Track.features s) (Feature.frame fb) with
  | Some _ => Feature.keyframe fb <> Some false
  | None => Feature.keyframe fb = Some true /\ is_Some (Feature.bounds fb)
  end.

(** The bounds [maybeShrinkBounds(n)] leaves behind. *)
Definition shrunk_bounds (s : Track) (n : num) : num * num :=
  if num_eqb n (Track.begin s) then
    match Track.getNextKeyframe s (num_add (Track.begin s) 1) with
    | Some nextFrame => (of_frame nextFrame, Track.end_ s)
    | None => (Infinity, Fin 0)
    end
  else if num_eqb n (Track.end_ s) then
    match Track.getPreviousKeyframe s (num_add (Track.end_ s) (-1)) with
    | Some previousFrame => (Track.begin s, of_frame previousFrame)
    | None => (Infinity, Fin 0)
    end
  else (Track.begin s, Track.end_ s).

(** A decision procedure for [coherent]. *)
Definition stored_okb (i : nat) (o : option Feature) : bool :=
  match o with
  | Some f =>
      (Feature.frame f =? i)
      && bool_decide (Feature.keyframe f = Some true)
      && bool_decide (is_Some (Feature.bounds f))
  | None => true
  end.

Fixpoint sortedb (l : list nat) : bool :=
  match l with
  | [] => true
  | x :: rest => forallb (fun y => x <? y) rest && sortedb rest
  end.

Definition coherentb (s : Track) : bool :=
  sortedb (Track.featureIndex s)
  && forallb (fun i => i <? List.length (Track.features s)) (Track.featureIndex s)
  && forallb (fun i =>
                Bool.eqb (bool_decide (i ∈ Track.featureIndex s))
                         (bool_decide (is_Some (arr_get (Track.features s) i)))
                && stored_okb i (arr_get (Track.features s) i))
             (seq 0 (List.length (Track.features s)))
  && match head (Track.featureIndex s), last (Track.featureIndex s) with
     | Some b, Some e =>
         num_eqb (Track.begin s) (of_frame b) && num_eqb (Track.end_ s) (of_frame e)
     | _, _ => true
     end.

(** The keyframe that governs frame [f] sits at frame [g]: [f] itself when
    it holds a feature, the first or the last keyframe outside the bounds,
    the keyframe before [f] within them. *)
Definition anchored (s : Track) (f g : nat) : Prop :=
  (is_Some (arr_get (Track.features s) f) /\ g = f)
  \/ (arr_get (Track.features s) f = None
      /\ ((f < g /\ Track.begin s = of_frame g)
          \/ (g < f /\ Track.end_ s = of_frame g)
          \/ (bounds_contain (Track.begin s) (Track.end_ s) f
              /\ exists d1, surrounds (Track.featureIndex s) f g d1))).

(** [m] returns normally from every state with [P], and keeps [P]. *)
Definition succeeds {A} (P : Track -> Prop) (m : Track.M A) : Prop :=
  forall s, P s -> exists a s', m s = (Ok a, s') /\ P s'.

(** ** The change log *)

(** What a mutation may do to the identity and the change log of a track:
    [trackId], [meta] and the notifier stay, [revision] does not go down,
    the calls of the notifier are only added to, and with a notifier
    installed there is exactly one call for each step of [revision]. *)
Definition grows (s s' : Track) : Prop :=
  Track.trackId s' = Track.trackId s
  /\ Track.meta s' = Track.meta s
  /\ Track.notifier s' = Track.notifier s
  /\ Track.revision s <= Track.revision s'
  /\ exists new,
       Track.emitted s' = Track.emitted s ++ new
       /\ List.length new
          = if Track.notifier s then Track.revision s' - Track.revision s else 0.

(** Two states that differ at most in the timeline and the change log. *)
Definition same_labels (s s' : Track) : Prop :=
  Track.attributes s' = Track.attributes s
  /\ Track.confidencePairs s' = Track.confidencePairs s.

(** ** Confidence pairs *)

(** [x] comes before [y] in descending order of confidence. *)
Definition not_below (x y : ConfidencePair) : Prop := (snd y <= snd x)%Q.

(** The confidence [setType] stores: never more than 1. *)
Definition capped (v : Q) : Q := if Q_geb v 1 then 1%Q else v.

(** ** The track item of the list (TrackItem.vue) *)

Module TrackItem.

(** The computed [feature] of the item. *)
Record View : Type := {
  real : option Feature;
  lower : option Feature;
  upper : option Feature;
  shouldInterpolate : bool;
  targetKeyframe : option Feature;
  isKeyframe : bool;
}.

(** [feature.value], on the current state of the track.  [revision.value]
    is falsy when it is 0. *)
Definition feature (s : Track) (frame : nat) : Res View :=
  if negb (Track.revision s =? 0) then
    match Track.canInterpolate s frame with
    | Throw e => Throw e
    | Ok (real, lower, upper, interpolate) =>
        Ok {| real := real;
              lower := lower;
              upper := upper;
              shouldInterpolate := interpolate;
              targetKeyframe :=
                if Track.opt_flag real Feature.keyframe then real
                else match lower with
                     | Some l => Some l
                     | None => upper
                     end;
              isKeyframe := Track.opt_flag real Feature.keyframe |}
    end
  else
    Ok {| real := None;
          lower := None;
          upper := None;
          shouldInterpolate := false;
          targetKeyframe := None;
          isKeyframe := false |}.

(** [keyframeDisabled.value] *)
Definition keyframeDisabled (s : Track) (frame : nat) : Res bool :=
  match feature s frame with
  | Throw e => Throw e
  | Ok v =>
      Ok ((negb (bool_decide (is_Some (real v))) && negb (shouldInterpolate v))
          || (Track.length_is s 1 && num_eqb (of_frame frame) (Track.begin s)))
  end.

(** The [toggleKeyframe] of the item: the track is only asked when the
    button is enabled. *)
Definition toggleKeyframe (frame : nat) : Track.M unit :=
  Track.bind (Track.lift (fun s => keyframeDisabled s frame)) (fun disabled =>
    if negb disabled then Track.toggleKeyframe frame else Track.ret tt).

(** [gotoNext] and [gotoPrevious]: the frame that is sought, if any. *)
Definition gotoNext (s : Track) (frame : nat) : option nat :=
  Track.getNextKeyframe s (num_add (of_frame frame) 1).

Definition gotoPrevious (s : Track) (frame : nat) : option nat :=
  Track.getPreviousKeyframe s (num_add (of_frame frame) (-1)).

End TrackItem.

(** ** The type list (TypeList.vue) *)

Module TypeList.

(** One filtered track: the track and [context.confidencePairIndex]. *)
Abbreviation FilteredTrack := (Track * nat)%type.

(** One step of the [reduce] of [typeCounts]. *)
Definition count_step (acc : Res (gmap string nat)) (filteredTrack : FilteredTrack)
  : Res (gmap string nat) :=
  match acc with
  | Throw e => Throw e
  | Ok acc =>
      match Track.getType (fst filteredTrack) (snd filteredTrack) with
      | Throw e => Throw e
      | Ok confidencePair =>
          let trackType := fst confidencePair in
          Ok (<[trackType := default 0 (acc !! trackType) + 1]> acc)
      end
  end.

(** [typeCounts.value] *)
Definition typeCounts (filteredTracks : list FilteredTrack) : Res (gmap string nat) :=
  fold_left count_step filteredTracks (Ok ∅).

(** lodash [difference(array, values)]: the elements of [array] that are
    not in [values], in their order. *)
Definition difference (array values : list string) : list string :=
  List.filter (fun x => negb (bool_decide (x ∈ values))) array.

(** lodash [union(a, b)]: the distinct elements of both, at their first
    place. *)
Fixpoint uniq_from (seen l : list string) : list string :=
  match l with
  | [] => []
  | x :: rest =>
      if bool_decide (x ∈ seen) then uniq_from seen rest
      else x :: uniq_from (x :: seen) rest
  end.

Definition union (a b : list string) : list string := uniq_from [] (a ++ b).

(** [headCheckState.value]: 1 all visible types are checked, 0 none is,
    -1 some are. *)
Definition headCheckState (visibleTypes checkedTypes : list string) : Z :=
  let uncheckedTypes := difference visibleTypes checkedTypes in
  if List.length uncheckedTypes =? 0 then 1%Z
  else if List.length uncheckedTypes =? List.length visibleTypes then 0%Z
  else (-1)%Z.

(** [headCheckClicked]: the list handed to [setCheckedTypes]. *)
Definition headCheckClicked (visibleTypes checkedTypes : list string)
  : list string :=
  if (headCheckState visibleTypes checkedTypes =? 0)%Z then
    union (difference checkedTypes visibleTypes) visibleTypes
  else difference checkedTypes visibleTypes.

End TypeList.

(** ** Predicates that do not look at parts of the state *)

(** [P] is kept by every write to the timeline ([features], [featureIndex],
    [begin], [end]) and by [notify]. *)
Definition timeline_blind (P : Track -> Prop) : Prop :=
  (forall s x, P s -> P (Track.with_features x s))
  /\ (forall s x, P s -> P (Track.with_featureIndex x s))
  /\ (forall s x, P s -> P (Track.with_begin x s))
  /\ (forall s x, P s -> P (Track.with_end x s))
  /\ (forall name old, preserves P (Track.notify name old)).

(** [P] is kept by every write to [confidencePairs]. *)
Definition pairs_blind (P : Track -> Prop) : Prop :=
  forall s x, P s -> P (Track.with_confidencePairs x s).

(** [P] is kept by every write to [attributes]. *)
Definition attributes_blind (P : Track -> Prop) : Prop :=
  forall s x, P s -> P (Track.with_attributes x s).

(** ** Records that load into a coherent track *)

(** Distinct frames, every feature with a box and not marked
    [keyframe: false], and [begin] and [end] the first and the last frame. *)
Definition tight_record (R : TrackData) : Prop :=
  let fs := present (TrackData.features R) in
  NoDup (Feature.frame <$> fs)
  /\ Forall (fun f => Feature.keyframe f <> Some false
                      /\ is_Some (Feature.bounds f)) fs
  /\ (fs <> [] ->
      exists b e,
        TrackData.begin R = of_frame b /\ TrackData.end_ R = of_frame e
        /\ b ∈ Feature.frame <$> fs /\ e ∈ Feature.frame <$> fs
        /\ forall i, i ∈ Feature.frame <$> fs -> b <= i <= e).

(** ** Geometry collections *)

(** Two entries of the feature array that agree apart from their geometry
    collection.  [toggleKeyframe] and [interpolate] copy a feature field by
    field, so the features of several frames can hold one collection, and
    [setFeature] and [removeFeatureGeometry] edit the collection of their
    frame in place: of another frame, everything but the content of its
    collection is known to stay. *)
Definition same_apart_from_geometry (o o' : option Feature) : Prop :=
  Feature.set_geometry None <$> o' = Feature.set_geometry None <$> o.

(** ** Properties *)

(** *** Interpolation *)

Lemma frameQ_sub (m n : nat) :
  (frameQ m - frameQ n == inject_Z (Z.of_nat m - Z.of_nat n))%Q.
Proof.
  unfold frameQ, Qminus, Z.sub. rewrite inject_Z_plus, inject_Z_opp. reflexivity.
Qed.

Lemma frameQ_sub_pos (m n : nat) : n < m -> (0 < frameQ m - frameQ n)%Q.
Proof.
  intros H. rewrite frameQ_sub.
  change 0%Q with (inject_Z 0). rewrite <- Zlt_Qlt. lia.
Qed.

(** With [d0.frame < d1.frame] the weight of the code is the weight of the
    specification, [|frame - d0.frame| / (d1.frame - d0.frame)]. *)
Lemma blend_weight_spec (frame : nat) (d0 d1 : Feature) :
  Feature.frame d0 < Feature.frame d1 ->
  (blend_weight frame d0 d1
   == Qabs (frameQ frame - frameQ (Feature.frame d0))
      / (frameQ (Feature.frame d1) - frameQ (Feature.frame d0)))%Q.
Proof.
  intros Hlen. unfold blend_weight, Qdiv.
  rewrite Qabs_Qmult, Qabs_Qinv.
  rewrite (Qabs_pos (frameQ (Feature.frame d1) - frameQ (Feature.frame d0))).
  - reflexivity.
  - apply Qlt_le_weak, frameQ_sub_pos, Hlen.
Qed.

(** Strictly between the two keyframes the weight is strictly between 0
    and 1. *)
Lemma blend_weight_interior (frame : nat) (d0 d1 : Feature) :
  Feature.frame d0 < frame < Feature.frame d1 ->
  (0 < blend_weight frame d0 d1 /\ blend_weight frame d0 d1 < 1)%Q.
Proof.
  intros [Hlo Hhi].
  assert (Hlen : (0 < frameQ (Feature.frame d1) - frameQ (Feature.frame d0))%Q)
    by (apply frameQ_sub_pos; lia).
  assert (Hnum : (0 < frameQ frame - frameQ (Feature.frame d0))%Q)
    by (apply frameQ_sub_pos; lia).
  rewrite blend_weight_spec by lia.
  rewrite (Qabs_pos _ (Qlt_le_weak _ _ Hnum)).
  split.
  - apply Qlt_shift_div_l; [exact Hlen|]. rewrite Qmult_0_l. exact Hnum.
  - apply Qlt_shift_div_r; [exact Hlen|]. rewrite Qmult_1_l.
    rewrite !frameQ_sub. rewrite <- Zlt_Qlt. lia.
Qed.

Lemma Q_eqb_true (x y : Q) : Q_eqb x y = true <-> (x == y)%Q.
Proof. unfold Q_eqb. apply Qeq_bool_iff. Qed.

Lemma one_minus_zero (b : Q) : (1 - b == 0 <-> b == 1)%Q.
Proof.
  split; intros H.
  - rewrite <- (Qplus_0_l b), <- H. ring.
  - rewrite H. ring.
Qed.

(** The keyframe flag of an interpolated feature: set exactly at weight 0
    and at weight 1. *)
Lemma keyframe_flag_spec (b : Q) :
  Q_eqb b 0 || Q_eqb (1 - b) 0 = true <-> (b == 0 \/ b == 1)%Q.
Proof.
  rewrite orb_true_iff, !Q_eqb_true, one_minus_zero. reflexivity.
Qed.

(** What [interpolate] returns when the earlier keyframe interpolates and
    both keyframes carry a box. *)
Lemma interpolate_on (frame : nat) (d0 d1 : Feature) (b0 b1 : RectBounds) :
  Feature.frame d0 < Feature.frame d1 ->
  truthy (Feature.interpolate d0) = true ->
  Feature.bounds d0 = Some b0 ->
  Feature.bounds d1 = Some b1 ->
  let b := blend_weight frame d0 d1 in
  interpolate frame d0 d1
  = Ok (Some (Feature.box frame
                (Some (Q_eqb b 0 || Q_eqb (1 - b) 0)) (Some true)
                (Some (blend (1 - b) b b0 b1)))).
Proof.
  intros Hlen Hi H0 H1 b. unfold interpolate.
  rewrite Hi, H0, H1. simpl.
  destruct (Nat.eqb_spec (Feature.frame d1) (Feature.frame d0)); [lia|].
  reflexivity.
Qed.

Lemma interpolate_off (frame : nat) (d0 d1 : Feature) :
  truthy (Feature.interpolate d0) = false ->
  interpolate frame d0 d1 = Ok None.
Proof. intros Hi. unfold interpolate. rewrite Hi. reflexivity. Qed.

(** The sample track of the interpolation law. *)
Lemma getFeature_15 :
  exists t r l u,
    Track.fromJSON (record_10_20 true) = Ok t
    /\ Track.getFeature t 15 = Ok (Some r, l, u)
    /\ Feature.keyframe r = Some false
    /\ (exists bx, Feature.bounds r = Some bx
                   /\ bounds_equiv bx (5, 5, 15, 15)%Q).
Proof.
  do 4 eexists. split; [vm_compute; reflexivity|].
  split; [vm_compute; reflexivity|].
  split; [reflexivity|].
  eexists. split; [reflexivity|].
  repeat split.
Qed.

(** C3.  For keyframes [A] and [B] that carry boxes, with
    [A.frame < B.frame]: [interpolate f A B] is [null] when [A.interpolate]
    is falsy; otherwise it is a feature at [f] with [interpolate = true]
    whose box is, component by component, [A.bounds[i] * (1 - b) +
    B.bounds[i] * b] for [b = |f - A.frame| / (B.frame - A.frame)], and
    whose [keyframe] flag is set exactly when [b] is 0 or 1, hence not set
    for [A.frame < f < B.frame].  On the track with keyframes at 10
    (box [0,0,10,10], interpolating) and 20 (box [10,10,20,20]),
    [getFeature(15)] gives the box [5,5,15,15] with [keyframe = false]. *)
Theorem C3_interpolate_linear_blend
    (f : nat) (A B : Feature) (a1 a2 a3 a4 b1 b2 b3 b4 : Q) :
  Feature.frame A < Feature.frame B ->
  Feature.bounds A = Some (a1, a2, a3, a4) ->
  Feature.bounds B = Some (b1, b2, b3, b4) ->
  let b := (Qabs (frameQ f - frameQ (Feature.frame A))
            / (frameQ (Feature.frame B) - frameQ (Feature.frame A)))%Q in
  (truthy (Feature.interpolate A) = false -> interpolate f A B = Ok None)
  /\ (truthy (Feature.interpolate A) = true ->
      exists (k : bool) (r1 r2 r3 r4 : Q),
        interpolate f A B
        = Ok (Some (Feature.box f (Some k) (Some true) (Some (r1, r2, r3, r4))))
        /\ (r1 == a1 * (1 - b) + b1 * b)%Q
        /\ (r2 == a2 * (1 - b) + b2 * b)%Q
        /\ (r3 == a3 * (1 - b) + b3 * b)%Q
        /\ (r4 == a4 * (1 - b) + b4 * b)%Q
        /\ (k = true <-> (b == 0 \/ b == 1)%Q)
        /\ (Feature.frame A < f < Feature.frame B -> k = false))
  /\ (exists t r l u,
        Track.fromJSON (record_10_20 true) = Ok t
        /\ Track.getFeature t 15 = Ok (Some r, l, u)
        /\ Feature.keyframe r = Some false
        /\ (exists bx, Feature.bounds r = Some bx
                       /\ bounds_equiv bx (5, 5, 15, 15)%Q)).
Proof.
  intros Hlen HA HB b. split; [|split].
  - apply interpolate_off.
  - intros Hi.
    pose proof (blend_weight_spec f A B Hlen) as Hw. fold b in Hw.
    rewrite (interpolate_on f A B _ _ Hlen Hi HA HB). cbv zeta.
    eexists _, _, _, _, _. split; [reflexivity|].
    repeat split; try (rewrite Hw; reflexivity).
    + rewrite keyframe_flag_spec, Hw. tauto.
    + rewrite keyframe_flag_spec, Hw. tauto.
    + intros Hin. apply not_true_is_false. rewrite keyframe_flag_spec.
      destruct (blend_weight_interior f A B Hin) as [Hpos Hlt].
      intros [E|E]; rewrite E in *;
        [apply (Qlt_irrefl 0), Hpos | apply (Qlt_irrefl 1), Hlt].
  - exact getFeature_15.
Qed.

Lemma C3_interpolate_linear_blend_witness :
  let A := keyframe_at 10 true (0, 0, 10, 10)%Q in
  let B := keyframe_at 20 false (10, 10, 20, 20)%Q in
  exists r, interpolate 15 A B = Ok (Some r) /\ Feature.keyframe r = Some false.
Proof.
  intros A B.
  destruct (C3_interpolate_linear_blend 15 A B 0 0 10 10 10 10 20 20)
    as (_ & H & _); [simpl; lia | reflexivity | reflexivity |].
  destruct (H eq_refl) as (k & r1 & r2 & r3 & r4 & Hr & _ & _ & _ & _ & _ & Hk).
  rewrite Hr, (Hk ltac:(simpl; lia)). eexists. split; reflexivity.
Defined.

(** *** Threshold filter *)

(** C9, the sample of the specification: only the [fish] pair passes. *)
Lemma trackExceedsThreshold_sample :
  trackExceedsThreshold
    [("fish"%string, 6 # 10); ("shark"%string, 3 # 10)]%Q
    (thresholds_of (5 # 10) (4 # 10))
  = [("fish"%string, (6 # 10)%Q)].
Proof. reflexivity. Qed.

(** Where no listed threshold is 0 (and the default, if listed, is not 0
    either), the filter keeps exactly the pairs that reach the threshold
    listed for their label, or the default (0 when there is none) for a
    label that is not listed. *)
Lemma trackExceedsThreshold_nonzero
    (pairs : list ConfidencePair) (thresholds : gmap string Q) (name : string) (value : Q) :
  (forall n v, thresholds !! n = Some v -> ~ (v == 0)%Q) ->
  (name, value) ∈ trackExceedsThreshold pairs thresholds
  <-> (name, value) ∈ pairs
      /\ (default (default 0%Q (thresholds !! "default"%string))
                  (thresholds !! name) <= value)%Q.
Proof.
  intros Hnz. unfold trackExceedsThreshold.
  rewrite list_elem_of_In, filter_In, <- list_elem_of_In.
  assert (forall o d, (forall v, o = Some v -> ~ (v == 0)%Q) ->
                      num_or o d = default d o) as Hor.
  { intros [v|] d Hv; simpl; [|done].
    destruct (Q_eqb v 0) eqn:E; [|done].
    apply Q_eqb_true in E. by destruct (Hv v). }
  rewrite !Hor by eauto. unfold Q_geb. by rewrite Qle_bool_iff.
Qed.

(** C9.  A label that is listed with threshold 0 is not filtered by its own
    threshold: [0 || defaultThresh] is the default.  The pair
    [['fish', 0.2]] reaches the listed threshold 0 of [fish], and is
    dropped because it is below the default 0.4. *)
Theorem C9_listed_zero_threshold_uses_default :
  thresholds_of 0 (4 # 10) !! "fish"%string = Some 0%Q
  /\ Q_geb (2 # 10) 0 = true
  /\ trackExceedsThreshold [("fish"%string, (2 # 10)%Q)] (thresholds_of 0 (4 # 10))
     = [].
Proof. repeat split. Qed.

(** *** toggleKeyframe on a track of length 1 *)

Lemma length_is_one (s : Track) (frame : nat) :
  Track.begin s = of_frame frame ->
  Track.end_ s = of_frame frame ->
  Track.length_is s 1 = true.
Proof.
  intros Hb He. unfold Track.length_is, Track.length, of_frame in *.
  rewrite Hb, He. apply Z.eqb_eq. lia.
Qed.

(** C8.  On a track with [begin = end = frame] that holds a feature at
    [frame], [toggleKeyframe(frame)] throws and leaves the track as it
    was. *)
Theorem C8_toggleKeyframe_only_keyframe (s : Track) (frame : nat) (f : Feature) :
  Track.begin s = of_frame frame ->
  Track.end_ s = of_frame frame ->
  arr_get (Track.features s) frame = Some f ->
  Track.toggleKeyframe frame s = (Throw OnlyKeyframe, s).
Proof.
  intros Hb He Hf.
  unfold Track.toggleKeyframe, Track.bind, Track.lift, Track.get,
    Track.canInterpolate, Track.getFeature.
  rewrite Hf. cbn.
  rewrite (length_is_one s frame Hb He). reflexivity.
Qed.

Lemma C8_toggleKeyframe_only_keyframe_witness :
  exists s,
    Track.fromJSON
      {| TrackData.trackId := 7; TrackData.meta := None;
         TrackData.attributes := ∅; TrackData.confidencePairs := [];
         TrackData.features := [Some (keyframe_at 4 false (1, 2, 3, 4)%Q)];
         TrackData.begin := Fin 4; TrackData.end_ := Fin 4 |} = Ok s
    /\ Track.toggleKeyframe 4 s = (Throw OnlyKeyframe, s).
Proof.
  eexists. split; [vm_compute; reflexivity|].
  apply (C8_toggleKeyframe_only_keyframe _ 4
           (keyframe_at 4 false (1, 2, 3, 4)%Q)); reflexivity.
Defined.

(** *** deleteFeature where nothing is stored *)

Lemma arr_delete_absent {A} (a : list (option A)) (i : nat) :
  arr_get a i = None -> arr_delete a i = a.
Proof.
  unfold arr_get, arr_delete. intros H.
  destruct (a !! i) as [[x|]|] eqn:E; try discriminate.
  - by apply list_insert_id.
  - apply list_insert_ge. by apply lookup_ge_None.
Qed.

Lemma absent_not_bound {A} (a : list (option A)) (frame : nat) (n : num) :
  arr_get a frame = None ->
  is_Some (arr_get_num a n) ->
  num_eqb (of_frame frame) n = false.
Proof.
  intros Habs [x Hx]. destruct n as [z|]; [|reflexivity].
  unfold of_frame. simpl in *.
  destruct (Z.eqb_spec (Z.of_nat frame) z) as [<-|]; [|reflexivity].
  destruct (Z.ltb_spec (Z.of_nat frame) 0); [discriminate|].
  rewrite Nat2Z.id in Hx. congruence.
Qed.

(** C10, amended.  On a track with at least one keyframe whose bounds are
    synchronized, [deleteFeature] at a frame that holds nothing still bumps
    [revision] and calls the notifier (when one is installed) with the
    event [feature] and the old value [undefined]; [features],
    [featureIndex], [begin] and [end] stay as they were. *)
Theorem C10_deleteFeature_absent_still_notifies (s : Track) (frame : nat) :
  Track.isInitialized s = true ->
  bounds_synchronized s ->
  arr_get (Track.features s) frame = None ->
  exists s',
    Track.deleteFeature frame s = (Ok tt, s')
    /\ Track.revision s' = Track.revision s + 1
    /\ Track.emitted s'
       = (if Track.notifier s
          then Track.emitted s ++ [Build_Notification EvFeature OldUndefined]
          else Track.emitted s)
    /\ Track.features s' = Track.features s
    /\ Track.featureIndex s' = Track.featureIndex s
    /\ Track.begin s' = Track.begin s
    /\ Track.end_ s' = Track.end_ s
    /\ s' <> s.
Proof.
  intros Hinit [Hb He] Habs.
  pose proof (absent_not_bound _ _ _ Habs Hb) as Hnb.
  pose proof (absent_not_bound _ _ _ Habs He) as Hne.
  unfold Track.deleteFeature, Track.bind, Track.get, Track.modify,
    Track.maybeShrinkBounds, Track.notify, Track.ret.
  rewrite Habs. cbn.
  rewrite (arr_delete_absent _ _ Habs).
  destruct s as [id me att cp fs ix b e rv nt em]. cbn in *.
  rewrite Hnb, Hne. cbn. unfold Track.isInitialized in *. cbn in *.
  rewrite Hinit.
  destruct nt; cbn; eexists; (split; [reflexivity|]); cbn;
    repeat split; intros E; inversion E; lia.
Qed.

Lemma C10_deleteFeature_absent_still_notifies_witness :
  exists s s',
    Track.fromJSON (record_10_20 true) = Ok s
    /\ Track.deleteFeature 15 s = (Ok tt, s')
    /\ Track.revision s' = 2
    /\ Track.features s' = Track.features s.
Proof.
  eexists (Track.mk _ _ _ _ _ _ _ _ _ _ _).
  destruct (C10_deleteFeature_absent_still_notifies
              (Track.mk 1 ∅ ∅ [] (Track.sparseFeatures
                                    (TrackData.features (record_10_20 true)))
                        [10; 20] (Fin 10) (Fin 20) 1 false []) 15)
    as (s' & Hd & Hr & _ & Hf & _);
    [reflexivity | split; vm_compute; eauto | reflexivity |].
  exists s'. split; [vm_compute; reflexivity|].
  split; [exact Hd|]. split; [exact Hr | exact Hf].
Defined.

(** C10, as stated for every track with a keyframe, fails.  The record
    with one keyframe, at 5, and the bounds 0 and 10 loads.  Frame 0 holds
    no feature, but it is [begin]: [deleteFeature(0)] moves [begin] to 5,
    and the observer is called twice, for [bounds] and for [feature], with
    [revision] up by 2. *)
Lemma C10_deleteFeature_absent_moves_bounds :
  exists s0 s s',
    Track.fromJSON record_5_within_0_10 = Ok s0
    /\ Track.setNotifier true s0 = (Ok tt, s)
    /\ Track.isInitialized s = true
    /\ arr_get (Track.features s) 0 = None
    /\ Track.deleteFeature 0 s = (Ok tt, s')
    /\ Track.begin s = Fin 0
    /\ Track.begin s' = Fin 5
    /\ Track.revision s' = Track.revision s + 2
    /\ Track.emitted s'
       = Track.emitted s
         ++ [Build_Notification EvBounds (OldBounds (Fin 0) (Fin 10));
             Build_Notification EvFeature OldUndefined].
Proof.
  do 3 eexists. split; [vm_compute; reflexivity|].
  split; [vm_compute; reflexivity|].
  split; [reflexivity|]. split; [reflexivity|].
  split; [vm_compute; reflexivity|].
  repeat split.
Qed.

(** *** setFeature on a fresh track *)

(** The constructor path refuses what [setFeature] lets through: a record
    with the feature [{ frame: 3, keyframe: true }] does not load. *)
Lemma fromJSON_rejects_keyframe_without_bounds :
  Track.fromJSON
    {| TrackData.trackId := 0; TrackData.meta := None;
       TrackData.attributes := ∅; TrackData.confidencePairs := [];
       TrackData.features := [Some (Feature.box 3 (Some true) None None)];
       TrackData.begin := Fin 3; TrackData.end_ := Fin 3 |}
  = Throw KeyframeXorBounds.
Proof. reflexivity. Qed.

(** The first keyframe of a track that was created on frame 3
    ([begin = end = 3], the case the comment in [setFeature] speaks of):
    written at frame 5 or at frame 1, the bounds snap to that frame. *)
Lemma first_keyframe_on_created_track :
  let created := Track.with_end (Fin 3) (Track.with_begin (Fin 3) new_track) in
  let after n := snd (Track.setFeature (keyframe_at n false (0, 0, 1, 1)%Q) []
                        created) in
  Track.construct 0
    {| TrackParams.meta := None; TrackParams.begin := Some (Fin 3);
       TrackParams.end_ := Some (Fin 3); TrackParams.features := None;
       TrackParams.confidencePairs := None; TrackParams.attributes := None;
       TrackParams.notifier := false |} = Ok created
  /\ (Track.begin (after 5), Track.end_ (after 5)) = (Fin 5, Fin 5)
  /\ (Track.begin (after 1), Track.end_ (after 1)) = (Fin 1, Fin 1).
Proof. repeat split. Qed.

(** C1.  [setFeature] only looks at [keyframe]: on a fresh track,
    [setFeature({ frame: 3, keyframe: true })] succeeds and stores a
    keyframe that has no bounds. *)
Theorem C1_setFeature_stores_keyframe_without_bounds :
  Track.construct 0 TrackParams.empty = Ok new_track
  /\ exists r s',
       Track.setFeature (Feature.box 3 (Some true) None None) [] new_track
       = (Ok r, s')
       /\ arr_get (Track.features s') 3 = Some r
       /\ Track.featureIndex s' = [3]
       /\ Feature.keyframe r = Some true
       /\ Feature.bounds r = None.
Proof.
  split; [reflexivity|]. do 2 eexists.
  split; [vm_compute; reflexivity|]. repeat split.
Qed.

(** C2.  The first keyframe of a track constructed with the default bounds
    [(Infinity, 0)]: written at frame 5, it is in [featureIndex], and the
    first-keyframe shrink path resets the bounds to [(Infinity, 0)], so
    [begin <= end] does not hold. *)
Theorem C2_first_keyframe_on_default_bounds :
  Track.construct 0 TrackParams.empty = Ok new_track
  /\ exists r s',
       Track.setFeature (keyframe_at 5 false (0, 0, 1, 1)%Q) [] new_track
       = (Ok r, s')
       /\ Track.featureIndex s' = [5]
       /\ Track.begin s' = Infinity
       /\ Track.end_ s' = Fin 0
       /\ num_leb (Track.begin s') (Track.end_ s') = false.
Proof.
  split; [reflexivity|]. do 2 eexists.
  split; [vm_compute; reflexivity|]. repeat split.
Qed.

(** C6.  [setFeature] writes the merged feature before it checks
    [keyframe]: on a fresh track, [setFeature({ frame: 3 })] throws, and
    the track then holds a feature at frame 3. *)
Theorem C6_failed_setFeature_leaves_feature :
  Track.construct 0 TrackParams.empty = Ok new_track
  /\ exists s',
       Track.setFeature (Feature.box 3 None None None) [] new_track
       = (Throw SetFeatureNotKeyframe, s')
       /\ arr_get (Track.features new_track) 3 = None
       /\ arr_get (Track.features s') 3 = Some (Feature.box 3 None None None)
       /\ s' <> new_track.
Proof.
  split; [reflexivity|]. eexists.
  split; [vm_compute; reflexivity|]. repeat split. discriminate.
Qed.
(** *** Sparse arrays *)

Section ArrayFacts.
Context {A : Type}.
Implicit Types (a : list (option A)) (i j : nat) (x : A).

Lemma arr_get_Some a i x : arr_get a i = Some x <-> a !! i = Some (Some x).
Proof.
  unfold arr_get. destruct (a !! i) as [[y|]|]; split; intros H; congruence.
Qed.

Lemma arr_get_set_eq a i x : arr_get (arr_set a i x) i = Some x.
Proof.
  apply arr_get_Some. unfold arr_set. case_decide.
  - by apply list_lookup_insert_eq.
  - rewrite lookup_app_r by lia.
    rewrite lookup_app_r by (rewrite length_replicate; lia).
    rewrite length_replicate. by rewrite Nat.sub_diag.
Qed.

Lemma arr_get_set_ne a i j x : i <> j -> arr_get (arr_set a i x) j = arr_get a j.
Proof.
  intros Hne. unfold arr_get, arr_set. case_decide.
  - by rewrite list_lookup_insert_ne.
  - destruct (decide (j < length a)) as [Hj|Hj].
    + by rewrite lookup_app_l.
    + rewrite (lookup_ge_None_2 a j) by lia.
      rewrite lookup_app_r by lia.
      destruct (decide (j - length a < i - length a)) as [Hlt|Hge].
      * rewrite lookup_app_l by (rewrite length_replicate; lia).
        by rewrite lookup_replicate_2.
      * rewrite lookup_app_r by (rewrite length_replicate; lia).
        rewrite length_replicate.
        destruct (j - length a - (i - length a)) as [|n] eqn:E; [lia|]. done.
Qed.

Lemma elem_of_present a x : x ∈ present a <-> exists i, arr_get a i = Some x.
Proof.
  unfold present. rewrite list_elem_of_omap. split.
  - intros (o & Ho & Hx). simpl in Hx. subst o.
    apply list_elem_of_lookup in Ho as [i Hi]. exists i. by apply arr_get_Some.
  - intros [i Hi]. apply arr_get_Some in Hi. exists (Some x). split; [|done].
    apply list_elem_of_lookup. eauto.
Qed.
End ArrayFacts.

Lemma indexed_from_cons k o l :
  indexed_from k (o :: l) -> indexed_from (S k) l.
Proof. intros H i g Hi. rewrite (H (S i) g Hi). lia. Qed.

Lemma present_frames_sorted k l :
  indexed_from k l ->
  StronglySorted lt (Feature.frame <$> present l)
  /\ Forall (le k) (Feature.frame <$> present l).
Proof.
  revert k. induction l as [|o l IH]; intros k H.
  - split; constructor.
  - destruct (IH (S k) (indexed_from_cons _ _ _ H)) as [Hs Hf].
    assert (Hf' : Forall (le k) (Feature.frame <$> present l))
      by (eapply Forall_impl; [exact Hf|]; simpl; intros; lia).
    destruct o as [g|]; simpl; [|done].
    specialize (H 0 g eq_refl). split.
    + constructor; [done|]. eapply Forall_impl; [exact Hf|].
      simpl. intros. lia.
    + constructor; [lia | done].
Qed.

Lemma StronglySorted_lt_NoDup (l : list nat) : StronglySorted lt l -> NoDup l.
Proof.
  induction 1 as [|x l Hs IH Hx]; constructor; [|done].
  intros Hin. rewrite Forall_forall in Hx. specialize (Hx x Hin). lia.
Qed.

Lemma present_frames_NoDup k l :
  indexed_from k l -> NoDup (Feature.frame <$> present l).
Proof.
  intros H. apply StronglySorted_lt_NoDup. by apply (present_frames_sorted k).
Qed.

Lemma fold_place_lookup (fs : list Feature) (acc : list (option Feature)) i g :
  NoDup (Feature.frame <$> fs) ->
  arr_get (fold_left place fs acc) i = Some g
  <-> (exists f, f ∈ fs /\ Feature.frame f = i /\ g = Track.default_keyframe f)
      \/ (arr_get acc i = Some g /\ i ∉ Feature.frame <$> fs).
Proof.
  revert acc. induction fs as [|f fs IH]; intros acc Hnd; simpl.
  - split; [intros H; right; split; [done|]; by apply not_elem_of_nil|].
    intros [(f & Hf & _)|[H _]]; [by apply elem_of_nil in Hf | done].
  - apply NoDup_cons in Hnd as [Hf Hnd]. rewrite (IH _ Hnd). unfold place.
    split.
    + intros [(f' & Hf' & Hi & Hg)|[Hacc Hni]].
      * left. exists f'. split; [by right | done].
      * destruct (decide (Feature.frame f = i)) as [<-|Hne].
        -- rewrite arr_get_set_eq in Hacc. left. exists f.
           split; [by left|]. split; congruence.
        -- rewrite arr_get_set_ne in Hacc by done. right. split; [done|].
           rewrite not_elem_of_cons. done.
    + intros [(f' & Hf' & Hi & Hg)|[Hacc Hni]].
      * apply elem_of_cons in Hf' as [->|Hf']; [|left; eauto].
        right. subst i. rewrite arr_get_set_eq. split; [congruence | done].
      * apply not_elem_of_cons in Hni as [Hne Hni].
        right. rewrite arr_get_set_ne by done. done.
Qed.

Lemma sparseFeatures_lookup (l : list (option Feature)) i g :
  NoDup (Feature.frame <$> present l) ->
  arr_get (Track.sparseFeatures l) i = Some g
  <-> exists f, f ∈ present l /\ Feature.frame f = i
                /\ g = Track.default_keyframe f.
Proof.
  intros Hnd. unfold Track.sparseFeatures.
  change (fun acc f => arr_set acc (Feature.frame f) (Track.default_keyframe f))
    with place.
  rewrite (fold_place_lookup _ _ _ _ Hnd). split; [|by left].
  intros [H|[H _]]; [done|]. unfold arr_get in H. by rewrite lookup_nil in H.
Qed.

Lemma sparseFeatures_indexed (l : list (option Feature)) :
  NoDup (Feature.frame <$> present l) ->
  indexed_from 0 (Track.sparseFeatures l).
Proof.
  intros Hnd i g Hi. apply arr_get_Some in Hi.
  apply (sparseFeatures_lookup _ _ _ Hnd) in Hi as (f & _ & <- & ->). done.
Qed.

Lemma repopulate_go_ok (l : list Feature) (acc : list nat) :
  Forall consistent l ->
  Track.repopulate_go l acc = Ok (acc ++ keyframes_of l).
Proof.
  unfold keyframes_of.
  revert acc. induction l as [|g l IH]; intros acc H; simpl.
  - by rewrite app_nil_r.
  - apply Forall_cons in H as [Hg H]. unfold consistent in Hg.
    rewrite <- Hg. destruct (truthy (Feature.keyframe g)); simpl.
    + rewrite (IH _ H). by rewrite <- app_assoc.
    + by rewrite (IH _ H).
Qed.

Lemma sanityCheckFeatures_ok (l : list (option Feature)) :
  indexed_from 0 l -> Track.sanityCheckFeatures l = Ok tt.
Proof.
  intros H. unfold Track.sanityCheckFeatures.
  destruct (list_find _ l) as [[i [g|]]|] eqn:E; try done.
  apply list_find_Some in E as (Hi & _ & _).
  rewrite (H _ _ Hi). simpl. by rewrite Nat.eqb_refl.
Qed.

Lemma construct_ok (id : Z) (p : TrackParams) (fs : list (option Feature)) :
  TrackParams.features p = Some fs ->
  indexed_from 0 fs ->
  Forall consistent (present fs) ->
  Track.construct id p
  = Ok {| Track.trackId := id;
          Track.meta := default ∅ (TrackParams.meta p);
          Track.attributes := default ∅ (TrackParams.attributes p);
          Track.confidencePairs := default [] (TrackParams.confidencePairs p);
          Track.features := fs;
          Track.featureIndex := keyframes_of (present fs);
          Track.begin := default Infinity (TrackParams.begin p);
          Track.end_ := default (Fin 0) (TrackParams.end_ p);
          Track.revision := 1;
          Track.notifier := TrackParams.notifier p;
          Track.emitted := [] |}.
Proof.
  intros Hfs Hix Hok. unfold Track.construct. rewrite Hfs. simpl.
  rewrite (sanityCheckFeatures_ok _ Hix).
  unfold Track.repopulateInterpolatedFrames.
  by rewrite (repopulate_go_ok _ _ Hok).
Qed.

(** [fromJSON] on a loadable feature list: the track it returns. *)
Lemma fromJSON_ok (R : TrackData) :
  loadable (TrackData.features R) ->
  Track.fromJSON R
  = Ok {| Track.trackId := TrackData.trackId R;
          Track.meta := default ∅ (TrackData.meta R);
          Track.attributes := TrackData.attributes R;
          Track.confidencePairs := TrackData.confidencePairs R;
          Track.features := Track.sparseFeatures (TrackData.features R);
          Track.featureIndex :=
            keyframes_of (present (Track.sparseFeatures (TrackData.features R)));
          Track.begin := TrackData.begin R;
          Track.end_ := TrackData.end_ R;
          Track.revision := 1;
          Track.notifier := false;
          Track.emitted := [] |}.
Proof.
  intros [Hnd Hok]. unfold Track.fromJSON.
  erewrite construct_ok; [reflexivity | reflexivity | |].
  - by apply sparseFeatures_indexed.
  - apply Forall_forall. intros g Hg.
    apply elem_of_present in Hg as [i Hi].
    apply (sparseFeatures_lookup _ _ _ Hnd) in Hi as (f & Hf & _ & ->).
    rewrite Forall_forall in Hok. by apply Hok.
Qed.

Lemma keyframe_with_bounds_consistent g : keyframe_with_bounds g -> consistent g.
Proof.
  intros [Hk Hb]. unfold consistent. rewrite Hk. simpl.
  symmetry. by apply bool_decide_eq_true_2.
Qed.

Lemma default_keyframe_force f :
  Feature.keyframe f <> Some false ->
  Track.default_keyframe f = force_keyframe f.
Proof.
  intros H. unfold Track.default_keyframe, force_keyframe.
  destruct (Feature.keyframe f) as [[|]|]; simpl; done.
Qed.

Lemma present_Some {A} (l : list A) : present (Some <$> l) = l.
Proof. induction l; simpl; [done|]. unfold present in *. simpl. by f_equal. Qed.

(** A valid record loads: with [keyframe] defaulted every feature is
    flagged and has its box. *)
Lemma valid_record_loadable (R : TrackData) :
  valid_record R -> loadable (TrackData.features R).
Proof.
  intros (_ & Hnd & Hk). split; [exact Hnd|].
  eapply Forall_impl; [exact Hk|]. intros f [Hf Hb]. simpl in *.
  rewrite (default_keyframe_force _ Hf).
  apply keyframe_with_bounds_consistent. by split.
Qed.

(** C4.  For a valid dense record [R], [fromJSON(R)] succeeds and
    [serialize] gives back [trackId], [begin], [end], [attributes] and
    [confidencePairs] of [R], and a dense feature list in ascending frame
    order that is, as a set, the features of [R] with [keyframe] forced to
    [true]. *)
Theorem C4_roundtrip (R : TrackData) :
  valid_record R ->
  exists t,
    Track.fromJSON R = Ok t
    /\ TrackData.trackId (Track.serialize t) = TrackData.trackId R
    /\ TrackData.begin (Track.serialize t) = TrackData.begin R
    /\ TrackData.end_ (Track.serialize t) = TrackData.end_ R
    /\ TrackData.attributes (Track.serialize t) = TrackData.attributes R
    /\ TrackData.confidencePairs (Track.serialize t) = TrackData.confidencePairs R
    /\ Forall is_Some (TrackData.features (Track.serialize t))
    /\ present (TrackData.features (Track.serialize t))
       ≡ₚ force_keyframe <$> present (TrackData.features R)
    /\ (forall f, f ∈ present (TrackData.features (Track.serialize t))
                  <-> exists g, g ∈ present (TrackData.features R)
                                /\ f = force_keyframe g)
    /\ StronglySorted lt
         (Feature.frame <$> present (TrackData.features (Track.serialize t))).
Proof.
  intros Hv. pose proof (valid_record_loadable _ Hv) as Hl.
  destruct Hv as (_ & Hnd & Hk).
  eexists. split; [by apply fromJSON_ok|].
  unfold Track.serialize, Track.condenseFeatures. simpl.
  repeat (split; [reflexivity|]).
  rewrite present_Some.
  pose proof (sparseFeatures_indexed _ Hnd) as Hix.
  assert (present (Track.sparseFeatures (TrackData.features R))
          ≡ₚ force_keyframe <$> present (TrackData.features R)) as Hperm.
  { assert (force_keyframe <$> present (TrackData.features R)
            = Track.default_keyframe <$> present (TrackData.features R)) as ->.
    { apply Forall_fmap_ext_1. eapply Forall_impl; [exact Hk|].
      intros f [Hf _]. symmetry. by apply default_keyframe_force. }
    apply NoDup_Permutation.
    - eapply NoDup_fmap_1. by apply (present_frames_NoDup 0).
    - apply (NoDup_fmap_1 Feature.frame). rewrite <- list_fmap_compose.
      exact Hnd.
    - intros g. rewrite elem_of_present, list_elem_of_fmap. split.
      + intros [i Hi].
        apply (sparseFeatures_lookup _ _ _ Hnd) in Hi as (f & Hf & _ & ->).
        by exists f.
      + intros (f & -> & Hf). exists (Feature.frame f).
        apply (sparseFeatures_lookup _ _ _ Hnd). by exists f. }
  split; [|split; [|split]].
  - apply Forall_fmap, Forall_true. simpl. eauto.
  - exact Hperm.
  - intros f. rewrite Hperm, list_elem_of_fmap. split.
    + intros (g & -> & Hg). by exists g.
    + intros (g & Hg & ->). by exists g.
  - by apply (present_frames_sorted 0).
Qed.

Lemma C4_roundtrip_witness :
  exists t,
    Track.fromJSON (record_10_20 true) = Ok t
    /\ TrackData.confidencePairs (Track.serialize t) = []
    /\ Feature.frame <$> present (TrackData.features (Track.serialize t))
       = [10; 20].
Proof.
  destruct (C4_roundtrip (record_10_20 true)) as (t & Ht & _).
  - split; [repeat constructor; eauto|]. split.
    + cbn. apply NoDup_cons. split; [|apply NoDup_singleton].
      rewrite list_elem_of_singleton. lia.
    + repeat constructor; simpl; eauto; discriminate.
  - exists t. split; [exact Ht|].
    vm_compute in Ht. inversion Ht. split; reflexivity.
Defined.
(** *** Neighbouring keyframes and slices *)


Lemma find_truthy_Some {A} (l : list (option A)) (x : A) :
  find_truthy l = Some x
  <-> exists i, arr_get l i = Some x /\ forall j, j < i -> arr_get l j = None.
Proof.
  unfold find_truthy, present. induction l as [|o l IH]; simpl.
  - split; [done|]. intros (i & H & _). unfold arr_get in H.
    by rewrite lookup_nil in H.
  - destruct o as [y|]; simpl.
    + split.
      * intros [= ->]. exists 0. split; [done|]. intros; lia.
      * intros (i & Hi & Hlt). destruct i as [|i]; [by inversion Hi|].
        specialize (Hlt 0 ltac:(lia)). done.
    + rewrite IH. split; intros (i & Hi & Hlt).
      * exists (S i). split; [done|]. intros [|j] Hj; [done|].
        apply (Hlt j). lia.
      * destruct i as [|i]; [done|]. exists i. split; [done|].
        intros j Hj. apply (Hlt (S j)). lia.
Qed.

Lemma find_truthy_None {A} (l : list (option A)) :
  find_truthy l = None <-> forall j, arr_get l j = None.
Proof.
  split.
  - intros H j. destruct (arr_get l j) as [x|] eqn:E; [|done].
    exfalso. revert j x E.
    unfold find_truthy, present in H. induction l as [|o l IH]; intros j x E.
    + unfold arr_get in E. by rewrite lookup_nil in E.
    + destruct o as [y|]; [done|]. destruct j as [|j]; [done|].
      by apply (IH H j x).
  - intros H. destruct (find_truthy l) as [x|] eqn:E; [|done].
    apply find_truthy_Some in E as (i & Hi & _). by rewrite H in Hi.
Qed.

Lemma arr_get_reverse {A} (l : list (option A)) i :
  i < length l -> arr_get (reverse l) i = arr_get l (length l - S i).
Proof. intros H. unfold arr_get. by rewrite reverse_lookup. Qed.

Lemma arr_get_ge {A} (l : list (option A)) i :
  length l <= i -> arr_get l i = None.
Proof. intros H. unfold arr_get. by rewrite lookup_ge_None_2. Qed.

Lemma arr_get_lt {A} (l : list (option A)) i x :
  arr_get l i = Some x -> i < length l.
Proof.
  intros H. destruct (decide (i < length l)); [done|].
  rewrite arr_get_ge in H by lia. done.
Qed.

Lemma find_truthy_reverse_Some {A} (l : list (option A)) (x : A) :
  find_truthy (reverse l) = Some x
  <-> exists i, arr_get l i = Some x /\ forall j, i < j -> arr_get l j = None.
Proof.
  rewrite find_truthy_Some. split.
  - intros (i & Hi & Hlt).
    pose proof (arr_get_lt _ _ _ Hi) as Hlen. rewrite length_reverse in Hlen.
    rewrite arr_get_reverse in Hi by done.
    exists (length l - S i). split; [done|]. intros j Hj.
    destruct (decide (j < length l)) as [Hjl|]; [|apply arr_get_ge; lia].
    specialize (Hlt (length l - S j) ltac:(lia)).
    rewrite arr_get_reverse in Hlt by lia.
    by replace (length l - S (length l - S j)) with j in Hlt by lia.
  - intros (i & Hi & Hgt). pose proof (arr_get_lt _ _ _ Hi) as Hlen.
    exists (length l - S i). split.
    + rewrite arr_get_reverse by lia.
      by replace (length l - S (length l - S i)) with i by lia.
    + intros j Hj. rewrite arr_get_reverse by lia. apply Hgt. lia.
Qed.

Lemma find_truthy_reverse_None {A} (l : list (option A)) :
  find_truthy (reverse l) = None <-> forall j, arr_get l j = None.
Proof.
  rewrite find_truthy_None. split; intros H j.
  - destruct (decide (j < length l)) as [Hj|]; [|apply arr_get_ge; lia].
    specialize (H (length l - S j)). rewrite arr_get_reverse in H by lia.
    by replace (length l - S (length l - S j)) with j in H by lia.
  - destruct (decide (j < length l)) as [Hj|].
    + rewrite arr_get_reverse by lia. apply H.
    + apply arr_get_ge. rewrite length_reverse. lia.
Qed.

(** *** Slices *)

Lemma arr_get_take {A} (l : list (option A)) n i :
  arr_get (take n l) i = if decide (i < n) then arr_get l i else None.
Proof.
  unfold arr_get. case_decide.
  - by rewrite lookup_take_lt.
  - by rewrite lookup_take_ge by lia.
Qed.

Lemma arr_get_drop {A} (l : list (option A)) n i :
  arr_get (drop n l) i = arr_get l (n + i).
Proof. unfold arr_get. by rewrite lookup_drop. Qed.

Lemma arr_get_slice_from {A} (a : list (option A)) (k i : nat) :
  arr_get (slice_from a (of_frame k)) i = arr_get a (k + i).
Proof.
  unfold slice_from, slice_index, of_frame.
  destruct (Z.ltb_spec (Z.of_nat k) 0); [lia|].
  rewrite Nat2Z.id, arr_get_drop.
  destruct (decide (k <= length a)).
  - by rewrite Nat.min_l.
  - rewrite !arr_get_ge; [done | lia | lia].
Qed.

Lemma arr_get_slice {A} (a : list (option A)) (b e i : nat) :
  arr_get (slice a (of_frame b) (of_frame e)) i
  = if decide (b + i < e) then arr_get a (b + i) else None.
Proof.
  unfold slice, slice_index, of_frame.
  destruct (Z.ltb_spec (Z.of_nat b) 0); [lia|].
  destruct (Z.ltb_spec (Z.of_nat e) 0); [lia|].
  rewrite !Nat2Z.id, arr_get_take, arr_get_drop.
  destruct (decide (b + i < length a)) as [Hin|Hout].
  - repeat case_decide; try done; try lia.
    by replace (b `min` length a) with b by lia.
  - rewrite (arr_get_ge a (b + i)) by lia.
    rewrite (arr_get_ge a (_ + i)) by lia. by repeat case_decide.
Qed.

Lemma well_formed_frames s : well_formed s -> frames_stored s.
Proof. intros [_ H] i f Hi. by apply H. Qed.

Lemma getNextKeyframe_Some (s : Track) (k p : nat) :
  frames_stored s ->
  Track.getNextKeyframe s (of_frame k) = Some p <-> next_keyframe s k p.
Proof.
  intros Hfr. unfold Track.getNextKeyframe, next_keyframe.
  rewrite fmap_Some. split.
  - intros (f & Hf & ->). apply find_truthy_Some in Hf as (i & Hi & Hlt).
    rewrite arr_get_slice_from in Hi. rewrite (Hfr _ _ Hi).
    split; [lia|]. split; [eauto|]. intros j Hj1 Hj2.
    specialize (Hlt (j - k) ltac:(lia)). rewrite arr_get_slice_from in Hlt.
    by replace (k + (j - k)) with j in Hlt by lia.
  - intros (Hle & [f Hf] & Hnone). exists f. split; [|by rewrite (Hfr _ _ Hf)].
    apply find_truthy_Some. exists (p - k). split.
    + rewrite arr_get_slice_from. by replace (k + (p - k)) with p by lia.
    + intros j Hj. rewrite arr_get_slice_from. apply Hnone; lia.
Qed.

Lemma getNextKeyframe_None (s : Track) (k : nat) :
  Track.getNextKeyframe s (of_frame k) = None
  <-> forall j, k <= j -> arr_get (Track.features s) j = None.
Proof.
  unfold Track.getNextKeyframe. rewrite fmap_None, find_truthy_None. split.
  - intros H j Hj. specialize (H (j - k)). rewrite arr_get_slice_from in H.
    by replace (k + (j - k)) with j in H by lia.
  - intros H j. rewrite arr_get_slice_from. apply H. lia.
Qed.

Lemma slice_upto {A} (a : list (option A)) (k : nat) :
  slice a (Fin 0) (num_add (of_frame k) 1) = take (S k) a.
Proof.
  unfold slice, slice_index, of_frame, num_add. simpl.
  destruct (Z.ltb_spec (Z.of_nat k + 1) 0); [lia|].
  rewrite drop_0, Nat.sub_0_r.
  replace (Z.to_nat (Z.of_nat k + 1)) with (S k) by lia.
  destruct (decide (S k <= length a)).
  - by rewrite Nat.min_l.
  - rewrite Nat.min_r by lia. rewrite !take_ge; [done | lia | lia].
Qed.

Lemma getPreviousKeyframe_Some (s : Track) (k p : nat) :
  frames_stored s ->
  Track.getPreviousKeyframe s (of_frame k) = Some p <-> previous_keyframe s k p.
Proof.
  intros Hfr. unfold Track.getPreviousKeyframe, previous_keyframe.
  rewrite slice_upto, fmap_Some. split.
  - intros (f & Hf & ->). apply find_truthy_reverse_Some in Hf as (i & Hi & Hgt).
    rewrite arr_get_take in Hi. case_decide; [|done].
    rewrite (Hfr _ _ Hi). split; [lia|]. split; [eauto|]. intros j Hj1 Hj2.
    specialize (Hgt j Hj1). rewrite arr_get_take in Hgt.
    case_decide; [done | lia].
  - intros (Hle & [f Hf] & Hnone). exists f. split; [|by rewrite (Hfr _ _ Hf)].
    apply find_truthy_reverse_Some. exists p. split.
    + rewrite arr_get_take. case_decide; [done | lia].
    + intros j Hj. rewrite arr_get_take. case_decide; [|done].
      apply Hnone; lia.
Qed.

Lemma getPreviousKeyframe_None (s : Track) (k : nat) :
  Track.getPreviousKeyframe s (of_frame k) = None
  <-> forall j, j <= k -> arr_get (Track.features s) j = None.
Proof.
  unfold Track.getPreviousKeyframe.
  rewrite slice_upto, fmap_None, find_truthy_reverse_None. split.
  - intros H j Hj. specialize (H j). rewrite arr_get_take in H.
    case_decide; [done | lia].
  - intros H j. rewrite arr_get_take. case_decide; [|done]. apply H. lia.
Qed.

Lemma previous_keyframe_unique s k p q :
  previous_keyframe s k p -> previous_keyframe s k q -> p = q.
Proof.
  intros (Hp & [x Hx] & Hpn) (Hq & [y Hy] & Hqn).
  destruct (Nat.lt_trichotomy p q) as [H|[H|H]]; [|done|].
  - rewrite (Hpn q H Hq) in Hy. done.
  - rewrite (Hqn p H Hp) in Hx. done.
Qed.

Lemma next_keyframe_unique s k p q :
  next_keyframe s k p -> next_keyframe s k q -> p = q.
Proof.
  intros (Hp & [x Hx] & Hpn) (Hq & [y Hy] & Hqn).
  destruct (Nat.lt_trichotomy p q) as [H|[H|H]]; [|done|].
  - rewrite (Hqn p Hp H) in Hx. done.
  - rewrite (Hpn q Hq H) in Hy. done.
Qed.

Lemma default_keyframe_id g :
  Feature.keyframe g = Some true -> Track.default_keyframe g = g.
Proof.
  intros H. unfold Track.default_keyframe. destruct g. simpl in *. by subst.
Qed.

Lemma stored_from_loadable k l : stored_from k l -> loadable l.
Proof.
  intros H. split.
  - apply (present_frames_NoDup k). intros i g Hi.
    apply arr_get_Some in Hi. by apply H.
  - apply Forall_forall. intros g Hg. apply elem_of_present in Hg as [i Hi].
    destruct (H _ _ Hi) as [_ [Hk Hb]]. rewrite default_keyframe_id by done.
    by apply keyframe_with_bounds_consistent.
Qed.

Lemma option_eq_Some {A} (o1 o2 : option A) :
  (forall x, o1 = Some x <-> o2 = Some x) -> o1 = o2.
Proof.
  intros H. destruct o1 as [x|], o2 as [y|]; try done.
  - symmetry. by apply H.
  - symmetry. by apply (H x).
  - by apply (H y).
Qed.

Lemma sparseFeatures_get k l i :
  stored_from k l ->
  arr_get (Track.sparseFeatures l) i
  = if decide (k <= i) then arr_get l (i - k) else None.
Proof.
  intros H. pose proof (stored_from_loadable _ _ H) as [Hnd _].
  apply option_eq_Some. intros g.
  rewrite (sparseFeatures_lookup _ _ _ Hnd). split.
  - intros (f & Hf & Hi & ->). apply elem_of_present in Hf as [j Hj].
    destruct (H _ _ Hj) as [Hfr [Hk _]]. rewrite (default_keyframe_id _ Hk).
    case_decide; [|lia]. by replace (i - k) with j by lia.
  - case_decide; [|done]. intros Hg. exists g.
    destruct (H _ _ Hg) as [Hfr [Hk _]].
    split; [apply elem_of_present; eauto|].
    split; [lia|]. by rewrite default_keyframe_id.
Qed.

(** *** split *)

Lemma canSplit_begin (s : Track) (frame : nat) :
  well_formed s ->
  Track.canSplit s frame = true ->
  exists b, Track.begin s = of_frame b /\ b < frame
            /\ num_leb (of_frame frame) (Track.end_ s) = true.
Proof.
  intros [H0 _] Hc. unfold Track.canSplit in Hc.
  apply andb_true_iff in Hc as [Hlt Hle].
  destruct (Track.begin s) as [z|]; [|done]. simpl in *.
  exists (Z.to_nat z). unfold of_frame. split; [f_equal; lia|]. split; [lia|done].
Qed.

Lemma of_frame_pred (frame : nat) :
  0 < frame -> num_add (of_frame frame) (-1) = of_frame (frame - 1).
Proof. intros H. unfold num_add, of_frame. f_equal. lia. Qed.

Lemma stored_from_slice (s : Track) (b frame : nat) :
  well_formed s ->
  stored_from b (slice (Track.features s) (of_frame b) (of_frame frame)).
Proof.
  intros [_ H] i g Hi. rewrite arr_get_slice in Hi. case_decide; [|done].
  destruct (H _ _ Hi) as (Hfr & Hk & _). done.
Qed.

Lemma stored_from_slice_from (s : Track) (frame : nat) :
  well_formed s ->
  stored_from frame (slice_from (Track.features s) (of_frame frame)).
Proof.
  intros [_ H] i g Hi. rewrite arr_get_slice_from in Hi.
  destruct (H _ _ Hi) as (Hfr & Hk & _). done.
Qed.

Lemma split_sample :
  exists s t1 t2,
    Track.fromJSON record_1_5_10 = Ok s
    /\ Track.canSplit s 6 = true
    /\ Track.split s 6 100 200 = Ok (t1, t2)
    /\ Track.end_ t1 = Fin 5
    /\ Track.begin t2 = Fin 10.
Proof.
  do 3 eexists. split; [vm_compute; reflexivity|].
  split; [reflexivity|]. split; [vm_compute; reflexivity|]. split; reflexivity.
Qed.

(** C5, amended.  On a well-formed track, for a frame with [canSplit]
    ([begin < frame <= end]), [split] returns two tracks.  The first keeps
    [begin], ends at the last stored keyframe at or before [frame - 1]
    ([begin] when there is none) and holds exactly the features of
    [[begin, frame)].  The second keeps [end], begins at the first stored
    keyframe at or after [frame] ([end] when there is none) and holds
    exactly the features from [frame] on.  With keyframes at 1, 5 and 10,
    [split(6, 100, 200)] gives [end = 5] and [begin = 10]. *)
Theorem C5_split (s : Track) (frame : nat) (id1 id2 : Z) :
  well_formed s ->
  Track.canSplit s frame = true ->
  (exists t1 t2,
    Track.split s frame id1 id2 = Ok (t1, t2)
    /\ Track.trackId t1 = id1
    /\ Track.begin t1 = Track.begin s
    /\ (forall p, previous_keyframe s (frame - 1) p -> Track.end_ t1 = of_frame p)
    /\ ((forall j, j <= frame - 1 -> arr_get (Track.features s) j = None) ->
        Track.end_ t1 = Track.begin s)
    /\ (forall i,
          arr_get (Track.features t1) i
          = if num_leb (Track.begin s) (of_frame i)
               && num_ltb (of_frame i) (of_frame frame)
            then arr_get (Track.features s) i else None)
    /\ Track.trackId t2 = id2
    /\ Track.end_ t2 = Track.end_ s
    /\ (forall p, next_keyframe s frame p -> Track.begin t2 = of_frame p)
    /\ ((forall j, frame <= j -> arr_get (Track.features s) j = None) ->
        Track.begin t2 = Track.end_ s)
    /\ (forall i,
          arr_get (Track.features t2) i
          = if num_leb (of_frame frame) (of_frame i)
            then arr_get (Track.features s) i else None))
  /\ (exists s0 t1 t2,
        Track.fromJSON record_1_5_10 = Ok s0
        /\ Track.canSplit s0 6 = true
        /\ Track.split s0 6 100 200 = Ok (t1, t2)
        /\ Track.end_ t1 = Fin 5
        /\ Track.begin t2 = Fin 10).
Proof.
  intros Hwf Hc. split; [|exact split_sample].
  destruct (canSplit_begin _ _ Hwf Hc) as (b & Hb & Hlt & Hle).
  pose proof (well_formed_frames _ Hwf) as Hfr.
  pose proof (stored_from_slice s b frame Hwf) as H1.
  pose proof (stored_from_slice_from s frame Hwf) as H2.
  unfold Track.split. rewrite Hc. cbn [negb].
  rewrite of_frame_pred by lia. rewrite Hb.
  rewrite fromJSON_ok by (simpl; by eapply stored_from_loadable).
  rewrite fromJSON_ok by (simpl; by eapply stored_from_loadable).
  do 2 eexists. split; [reflexivity|]. simpl.
  split; [done|]. split; [done|]. split; [|split; [|split]].
  - intros p Hp.
    destruct (Track.getPreviousKeyframe s (of_frame (frame - 1))) as [q|] eqn:E.
    + apply (getPreviousKeyframe_Some _ _ _ Hfr) in E.
      rewrite (previous_keyframe_unique _ _ _ _ Hp E).
      destruct q as [|q]; [|done]. simpl.
      destruct E as (_ & [f Hf] & _). destruct Hwf as [H0 Hst].
      destruct (Hst _ _ Hf) as (_ & _ & Hbl & _). rewrite Hb in Hbl.
      unfold of_frame in *. simpl in Hbl. apply Z.leb_le in Hbl. f_equal. lia.
    + rewrite getPreviousKeyframe_None in E. destruct Hp as (Hpk & [f Hf] & _).
      by rewrite E in Hf.
  - intros Hnone.
    destruct (Track.getPreviousKeyframe s (of_frame (frame - 1))) as [q|] eqn:E;
      [|done].
    apply (getPreviousKeyframe_Some _ _ _ Hfr) in E as (Hq & [f Hf] & _).
    by rewrite Hnone in Hf.
  - intros i. rewrite (sparseFeatures_get b) by done. rewrite ?Hb.
    case_decide.
    + rewrite arr_get_slice. replace (b + (i - b)) with i by lia.
      unfold of_frame, num_leb, num_ltb.
      destruct (Z.leb_spec (Z.of_nat b) (Z.of_nat i)); [|lia]. simpl.
      case_decide; destruct (Z.ltb_spec (Z.of_nat i) (Z.of_nat frame));
        done || lia.
    + unfold of_frame, num_leb, num_ltb.
      destruct (Z.leb_spec (Z.of_nat b) (Z.of_nat i)); [lia|]. done.
  - split; [done|]. split; [done|]. split; [|split].
    + intros p Hp.
      destruct (Track.getNextKeyframe s (of_frame frame)) as [q|] eqn:E.
      * apply (getNextKeyframe_Some _ _ _ Hfr) in E.
        rewrite (next_keyframe_unique _ _ _ _ Hp E).
        destruct E as (Hq & _). destruct q as [|q]; [lia|]. done.
      * rewrite getNextKeyframe_None in E. destruct Hp as (Hpk & [f Hf] & _).
        by rewrite E in Hf.
    + intros Hnone.
      destruct (Track.getNextKeyframe s (of_frame frame)) as [q|] eqn:E; [|done].
      apply (getNextKeyframe_Some _ _ _ Hfr) in E as (Hq & [f Hf] & _).
      by rewrite Hnone in Hf.
    + intros i. rewrite (sparseFeatures_get frame) by done.
      case_decide.
      * rewrite arr_get_slice_from. replace (frame + (i - frame)) with i by lia.
        unfold of_frame, num_leb.
        destruct (Z.leb_spec (Z.of_nat frame) (Z.of_nat i)); [done|lia].
      * unfold of_frame, num_leb.
        destruct (Z.leb_spec (Z.of_nat frame) (Z.of_nat i)); [lia|done].
Qed.

(** Case analysis on the position of a stored feature of a concrete track. *)
Ltac stored_cases s Hi i tac :=
  unfold arr_get in Hi;
  let l := eval vm_compute in (Track.features s) in
  change (Track.features s) with l in Hi;
  repeat (destruct i as [|i]; simpl in Hi;
          [try discriminate; try (inversion Hi; subst; clear Hi; tac)
          |try discriminate]).

Lemma track_1_5_10_well_formed : well_formed track_1_5_10.
Proof.
  split; [reflexivity|]. intros i f Hi.
  stored_cases track_1_5_10 Hi i ltac:(repeat split; eauto).
Qed.

Lemma C5_split_witness :
  exists t1 t2,
    Track.split track_1_5_10 6 100 200 = Ok (t1, t2)
    /\ Track.end_ t1 = of_frame 5
    /\ Track.begin t2 = of_frame 10.
Proof.
  destruct (C5_split track_1_5_10 6 100 200 track_1_5_10_well_formed eq_refl)
    as [(t1 & t2 & Hs & _ & _ & Hp & _ & _ & _ & _ & Hn & _) _].
  exists t1, t2. split; [exact Hs|]. split.
  - apply Hp. split; [simpl; lia|]. split; [by eexists|].
    intros j H1 H2. simpl in H2.
    assert (j = 6 \/ j = 7 \/ j = 8 \/ j = 9 \/ j = 10 \/ False) as Hj by lia.
    repeat (destruct Hj as [->|Hj]; [reflexivity || lia|]). done.
  - apply Hn. split; [lia|]. split; [by eexists|].
    intros j H1 H2.
    assert (j = 6 \/ j = 7 \/ j = 8 \/ j = 9 \/ False) as Hj by lia.
    repeat (destruct Hj as [->|Hj]; [reflexivity|]). done.
Defined.

(** C5, as stated for every track, fails.  [setFeature] takes a keyframe
    without a box: on the track with keyframes at 1, 5 and 10, after
    [setFeature({ frame: 7, keyframe: true })], [canSplit(6)] holds and
    [split(6, 100, 200)] throws, as the constructor of the second track
    refuses the feature of frame 7.  And on the track of a record with
    keyframes at 0, 5 and 10 whose [begin] is 3, the keyframe at or before
    frame 3 is the one of frame 0, yet the first track of
    [split(4, 100, 200)] ends at 3: [0 || begin] is [begin]. *)
Lemma C5_split_off_well_formed :
  (exists x s,
     Track.fromJSON record_1_5_10 = Ok track_1_5_10
     /\ Track.setFeature (Feature.box 7 (Some true) None None) [] track_1_5_10
        = (Ok x, s)
     /\ Track.canSplit s 6 = true
     /\ Track.split s 6 100 200 = Throw KeyframeXorBounds)
  /\ (exists s t1 t2,
        Track.fromJSON record_0_5_10_from_3 = Ok s
        /\ Track.canSplit s 4 = true
        /\ Track.getPreviousKeyframe s (Fin 3) = Some 0
        /\ Track.split s 4 100 200 = Ok (t1, t2)
        /\ Track.end_ t1 = Fin 3).
Proof.
  split.
  - do 2 eexists. split; [vm_compute; reflexivity|].
    split; [vm_compute; reflexivity|].
    split; vm_compute; reflexivity.
  - do 3 eexists. split; [vm_compute; reflexivity|].
    split; [vm_compute; reflexivity|].
    split; [vm_compute; reflexivity|].
    split; vm_compute; reflexivity.
Qed.

(** *** The keyframe index: binary search *)

Lemma sorted_lookup_lt (l : list nat) i j x y :
  StronglySorted lt l -> i < j -> l !! i = Some x -> l !! j = Some y -> x < y.
Proof.
  intros Hs. revert i j. induction Hs as [|a l Hs IH Ha]; intros i j Hij Hi Hj.
  - by rewrite lookup_nil in Hi.
  - destruct j as [|j]; [lia|]. simpl in Hj. destruct i as [|i].
    + injection Hi as ->. rewrite Forall_forall in Ha. apply Ha.
      by eapply list_elem_of_lookup_2.
    + simpl in Hi. apply (IH i j); [lia|done|done].
Qed.

Lemma sorted_lookup_le (l : list nat) i j x y :
  StronglySorted lt l -> i <= j -> l !! i = Some x -> l !! j = Some y -> x <= y.
Proof.
  intros Hs Hij Hi Hj. destruct (decide (i = j)) as [->|].
  - rewrite Hi in Hj. injection Hj as ->. lia.
  - apply Nat.lt_le_incl. apply (sorted_lookup_lt l i j); [done|lia|done|done].
Qed.

Lemma half_between (lo hi : nat) : lo < hi -> lo <= (lo + hi) / 2 < hi.
Proof.
  intros H. split.
  - apply Nat.div_le_lower_bound; lia.
  - apply Nat.Div0.div_lt_upper_bound; lia.
Qed.

Lemma binarySearch_go_spec (fuel : nat) (arr : list nat) (el lo hi : nat) :
  StronglySorted lt arr ->
  lo <= hi <= length arr ->
  hi - lo <= fuel ->
  (forall i x, i < lo -> arr !! i = Some x -> x < el) ->
  (forall i x, hi <= i -> arr !! i = Some x -> el <= x) ->
  lo <= binarySearch_go fuel arr el lo hi <= hi
  /\ splits_at arr el (binarySearch_go fuel arr el lo hi).
Proof.
  intros Hs. revert lo hi.
  induction fuel as [|fuel IH]; intros lo hi Hb Hf Hlo Hhi;
    cbn [binarySearch_go].
  - assert (hi = lo) as -> by lia. split; [lia|]. by split.
  - destruct (Nat.leb_spec hi lo) as [Hle|Hlt].
    { assert (hi = lo) as -> by lia. split; [lia|]. by split. }
    pose proof (half_between lo hi Hlt) as Hk.
    destruct (lookup_lt_is_Some_2 arr ((lo + hi) / 2) ltac:(lia)) as [v Hv].
    rewrite Hv. destruct (Nat.ltb_spec v el) as [Hvel|Hvel].
    + destruct (IH ((lo + hi) / 2 + 1) hi) as [Hr Hsp]; [lia|lia| |done|].
      * intros i x Hi Hx.
        pose proof (sorted_lookup_le arr i ((lo + hi) / 2) x v Hs ltac:(lia) Hx Hv).
        lia.
      * split; [lia|done].
    + destruct (IH lo ((lo + hi) / 2)) as [Hr Hsp]; [lia|lia|done| |].
      * intros i x Hi Hx.
        pose proof (sorted_lookup_le arr ((lo + hi) / 2) i v x Hs ltac:(lia) Hv Hx).
        lia.
      * split; [lia|done].
Qed.

Lemma binarySearch_spec (arr : list nat) (el : nat) :
  StronglySorted lt arr ->
  binarySearch arr el <= length arr /\ splits_at arr el (binarySearch arr el).
Proof.
  intros Hs. unfold binarySearch.
  destruct (binarySearch_go_spec (length arr) arr el 0 (length arr) Hs)
    as [Hr Hsp]; [lia|lia| | |].
  - intros; lia.
  - intros i x Hi Hx. apply lookup_lt_Some in Hx. lia.
  - split; [lia|done].
Qed.

Lemma getSurroundingElements_spec (arr : list nat) (el d0 d1 : nat) :
  StronglySorted lt arr ->
  getSurroundingElements arr (binarySearch arr el) = Some (d0, d1)
  <-> surrounds arr el d0 d1.
Proof.
  intros Hs. destruct (binarySearch_spec arr el Hs) as [Hlen [Hlo Hhi]].
  unfold getSurroundingElements, surrounds.
  set (r := binarySearch arr el) in *. split.
  - destruct r as [|p] eqn:Er; [done|].
    destruct (arr !! p) as [a|] eqn:Ea; [|done].
    destruct (arr !! S p) as [b|] eqn:Eb; [|done].
    intros [= <- <-].
    split; [by eapply list_elem_of_lookup_2|].
    split; [by eapply list_elem_of_lookup_2|].
    split; [split; [apply (Hlo p); [lia|done] | apply (Hhi (S p)); [lia|done]]|].
    intros x Hx. apply list_elem_of_lookup_1 in Hx as [i Hi].
    destruct (decide (i <= p)).
    + left. by apply (sorted_lookup_le arr i p).
    + right. apply (sorted_lookup_le arr (S p) i); [done|lia|done|done].
  - intros (H0 & H1 & [Hlt Hle] & Hadj).
    apply list_elem_of_lookup_1 in H0 as [i0 Hi0].
    apply list_elem_of_lookup_1 in H1 as [i1 Hi1].
    assert (i0 < r) as Hi0r.
    { destruct (decide (i0 < r)); [done|].
      pose proof (Hhi i0 d0 ltac:(lia) Hi0). lia. }
    assert (r <= i1) as Hri1.
    { destruct (decide (r <= i1)); [done|].
      pose proof (Hlo i1 d1 ltac:(lia) Hi1). lia. }
    pose proof (lookup_lt_Some _ _ _ Hi1) as Hi1len.
    destruct r as [|p]; [lia|].
    destruct (lookup_lt_is_Some_2 arr p ltac:(lia)) as [y Hy].
    destruct (lookup_lt_is_Some_2 arr (S p) ltac:(lia)) as [z Hz].
    rewrite Hy, Hz.
    assert (y = d0) as ->.
    { pose proof (Hlo p y ltac:(lia) Hy).
      pose proof (sorted_lookup_le arr i0 p d0 y Hs ltac:(lia) Hi0 Hy).
      destruct (Hadj y); [by eapply list_elem_of_lookup_2|lia|lia]. }
    assert (z = d1) as ->.
    { pose proof (Hhi (S p) z ltac:(lia) Hz).
      pose proof (sorted_lookup_le arr (S p) i1 z d1 Hs ltac:(lia) Hz Hi1).
      destruct (Hadj z); [by eapply list_elem_of_lookup_2|lia|lia]. }
    done.
Qed.

Lemma take_drop_lookup_elem {A} (l : list A) (n : nat) (x : A) :
  x ∈ l <-> x ∈ take n l \/ x ∈ drop n l.
Proof. rewrite <- elem_of_app. by rewrite take_drop. Qed.

Lemma listInsert_spec (arr : list nat) (g : nat) :
  StronglySorted lt arr ->
  StronglySorted lt (listInsert arr g)
  /\ (forall x, x ∈ listInsert arr g <-> x = g \/ x ∈ arr)
  /\ length arr <= length (listInsert arr g).
Proof.
  intros Hs. destruct (binarySearch_spec arr g Hs) as [Hlen [Hlo Hhi]].
  unfold listInsert. set (r := binarySearch arr g) in *.
  case_decide as Hr.
  - split; [done|]. split; [|lia]. intros x. split; [by right|].
    intros [->|H]; [|done]. by eapply list_elem_of_lookup_2.
  - split; [|split].
    + pose proof Hs as Hs0. rewrite <- (take_drop r arr) in Hs.
      apply StronglySorted_app in Hs as (H12 & Hs1 & Hs2).
      apply StronglySorted_app_2; [|done|].
      * intros x1 x2 Hx1 Hx2. apply elem_of_cons in Hx2 as [->|Hx2].
        -- apply list_elem_of_lookup_1 in Hx1 as [i Hi].
           apply lookup_take_Some in Hi as [Hi Hir]. by apply (Hlo i).
        -- by apply H12.
      * constructor; [done|]. apply Forall_forall. intros x Hx.
        apply list_elem_of_lookup_1 in Hx as [i Hi]. rewrite lookup_drop in Hi.
        pose proof (Hhi (r + i) x ltac:(lia) Hi) as Hge.
        destruct (decide (x = g)) as [->|]; [|lia]. exfalso.
        destruct i as [|i].
        -- rewrite Nat.add_0_r in Hi. done.
        -- destruct (lookup_lt_is_Some_2 arr r) as [y Hy].
           { apply lookup_lt_Some in Hi. lia. }
           pose proof (Hhi r y ltac:(lia) Hy).
           pose proof (sorted_lookup_lt arr r (r + S i) y g Hs0 ltac:(lia) Hy Hi).
           lia.
    + intros x. rewrite elem_of_app, elem_of_cons.
      rewrite (take_drop_lookup_elem arr r x). tauto.
    + rewrite length_app. simpl. rewrite length_take, length_drop. lia.
Qed.

(** *** Running the methods *)

Lemma bind_inv {A B} (m : Track.M A) (k : A -> Track.M B) s r s' :
  Track.bind m k s = (r, s') ->
  (exists a s1, m s = (Ok a, s1) /\ k a s1 = (r, s'))
  \/ (exists e, m s = (Throw e, s') /\ r = Throw e).
Proof.
  unfold Track.bind. destruct (m s) as [[a|e] s1]; intros H.
  - left. eauto.
  - right. injection H as <- <-. eauto.
Qed.

Lemma preserves_ret {A} P (a : A) : preserves P (Track.ret a).
Proof. intros s r s' HP [= <- <-]. done. Qed.

Lemma preserves_bind {A B} P (m : Track.M A) (k : A -> Track.M B) :
  preserves P m -> (forall a, preserves P (k a)) -> preserves P (Track.bind m k).
Proof.
  intros Hm Hk s r s' HP H.
  apply bind_inv in H as [(a & s1 & H1 & H2)|(e & H1 & _)].
  - eapply Hk; [|exact H2]. eapply Hm; [exact HP | exact H1].
  - eapply Hm; [exact HP | exact H1].
Qed.

Lemma preserves_get P : preserves P Track.get.
Proof. intros s r s' HP [= <- <-]. done. Qed.

Lemma preserves_modify P (f : Track -> Track) :
  (forall s, P s -> P (f s)) -> preserves P (Track.modify f).
Proof. intros Hf s r s' HP [= <- <-]. by apply Hf. Qed.

Lemma preserves_forEach {A} P (l : list A) (body : A -> Track.M unit) :
  (forall x, preserves P (body x)) -> preserves P (Track.forEach l body).
Proof.
  intros Hb. induction l as [|x l IH]; simpl.
  - apply preserves_ret.
  - apply preserves_bind; [apply Hb | intros _; apply IH].
Qed.

Lemma same_timeline_refl s : same_timeline s s.
Proof. by repeat split. Qed.

Lemma preserves_notify P name old :
  timeline_stable P -> preserves P (Track.notify name old).
Proof.
  intros HP s r s' Hs H. unfold Track.notify in H.
  destruct (Track.isInitialized s); [|injection H as <- <-; done].
  simpl in H. destruct (Track.notifier s); injection H as <- <-;
    (eapply HP; [|exact Hs]); by repeat split.
Qed.

Lemma preserves_setType P trackType confidenceVal replace :
  timeline_stable P -> preserves P (Track.setType trackType confidenceVal replace).
Proof.
  intros HP. unfold Track.setType.
  apply preserves_bind; [apply preserves_get|]. intros s0.
  destruct (Q_geb confidenceVal 1).
  - apply preserves_bind; [|intros; by apply preserves_notify].
    apply preserves_modify. intros s Hs. eapply HP; [|exact Hs]. by repeat split.
  - apply preserves_bind; [|intros; by apply preserves_notify].
    apply preserves_modify. intros s Hs. eapply HP; [|exact Hs]. by repeat split.
Qed.

Lemma preserves_setAttribute P key value :
  timeline_stable P -> preserves P (Track.setAttribute key value).
Proof.
  intros HP. unfold Track.setAttribute.
  apply preserves_bind; [apply preserves_get|]. intros s0.
  apply preserves_bind; [|intros; by apply preserves_notify].
  apply preserves_modify. intros s Hs. eapply HP; [|exact Hs]. by repeat split.
Qed.




(** *** Bounds bookkeeping *)

Lemma num_ltb_leb (a b : num) : num_ltb a b = negb (num_leb b a).
Proof.
  destruct a as [x|], b as [y|]; simpl; try done.
  destruct (Z.ltb_spec x y), (Z.leb_spec y x); done || lia.
Qed.

Lemma num_leb_trans (a b c : num) :
  num_leb a b = true -> num_leb b c = true -> num_leb a c = true.
Proof.
  destruct a as [x|], b as [y|], c as [z|]; simpl; try done.
  rewrite !Z.leb_le. lia.
Qed.

Lemma num_leb_of_frame (i j : nat) : num_leb (of_frame i) (of_frame j) = true <-> i <= j.
Proof. unfold of_frame. simpl. rewrite Z.leb_le. lia. Qed.

Lemma notify_spec name old s :
  exists s', Track.notify name old s = (Ok tt, s') /\ same_timeline s s'.
Proof.
  unfold Track.notify. destruct (Track.isInitialized s).
  - simpl. destruct (Track.notifier s); eexists; split; try reflexivity;
      by repeat split.
  - eexists. split; [reflexivity|]. apply same_timeline_refl.
Qed.

Lemma maybeExpandBounds_spec g s :
  exists s',
    Track.maybeExpandBounds g s = (Ok tt, s')
    /\ Track.features s' = Track.features s
    /\ Track.featureIndex s' = Track.featureIndex s
    /\ expanded (Track.begin s) (Track.end_ s) g (Track.begin s') (Track.end_ s').
Proof.
  unfold Track.maybeExpandBounds, Track.bind, Track.get, Track.modify, expanded.
  destruct (num_ltb (of_frame g) (Track.begin s)) eqn:E1.
  - destruct (notify_spec EvBounds (OldBounds (Track.begin s) (Track.end_ s))
                (Track.with_begin (of_frame g) s)) as (s' & -> & Hf & Hi & Hb & He).
    exists s'. split; [done|]. rewrite Hf, Hi, Hb, He. simpl. tauto.
  - destruct (num_ltb (Track.end_ s) (of_frame g)) eqn:E2.
    + destruct (notify_spec EvBounds (OldBounds (Track.begin s) (Track.end_ s))
                  (Track.with_end (of_frame g) s)) as (s' & -> & Hf & Hi & Hb & He).
      exists s'. split; [done|]. rewrite Hf, Hi, Hb, He. simpl. tauto.
    + exists s. split; [done|]. tauto.
Qed.

Lemma maybeShrinkBounds_spec n s :
  exists s',
    Track.maybeShrinkBounds n s = (Ok tt, s')
    /\ Track.features s' = Track.features s
    /\ Track.featureIndex s' = Track.featureIndex s.
Proof.
  unfold Track.maybeShrinkBounds, Track.bind, Track.get, Track.modify.
  destruct (num_eqb n (Track.begin s)).
  - destruct (Track.getNextKeyframe s _) as [nx|].
    + destruct (notify_spec EvBounds (OldBounds (Track.begin s) (Track.end_ s))
                  (Track.with_begin (of_frame nx) s)) as (s' & -> & Hf & Hi & _).
      exists s'. rewrite Hf, Hi. done.
    + destruct (notify_spec EvBounds (OldBounds (Track.begin s) (Track.end_ s))
                  (Track.with_end (Fin 0) (Track.with_begin Infinity s)))
        as (s' & -> & Hf & Hi & _).
      exists s'. rewrite Hf, Hi. done.
  - destruct (num_eqb n (Track.end_ s)); [|by exists s].
    destruct (Track.getPreviousKeyframe s _) as [pv|].
    + destruct (notify_spec EvBounds (OldBounds (Track.begin s) (Track.end_ s))
                  (Track.with_end (of_frame pv) s)) as (s' & -> & Hf & Hi & _).
      exists s'. rewrite Hf, Hi. done.
    + destruct (notify_spec EvBounds (OldBounds (Track.begin s) (Track.end_ s))
                  (Track.with_begin Infinity (Track.with_end (Fin 0) s)))
        as (s' & -> & Hf & Hi & _).
      exists s'. rewrite Hf, Hi. done.
Qed.

(** *** What setFeature does to the timeline *)

Lemma arr_get_set2 {A} (a : list (option A)) g (x y : A) j :
  arr_get (arr_set (arr_set a g x) g y) j
  = if decide (j = g) then Some y else arr_get a j.
Proof.
  case_decide as H.
  - subst. apply arr_get_set_eq.
  - by rewrite !arr_get_set_ne.
Qed.

Lemma setFeature_effect (fb : Feature) (geom : list GeoFeature) (s : Track) r s' :
  Track.setFeature fb geom s = (r, s') ->
  (forall j, j <> Feature.frame fb ->
             arr_get (Track.features s') j = arr_get (Track.features s) j)
  /\ ((r = Throw SetFeatureNotKeyframe
       /\ Track.featureIndex s' = Track.featureIndex s
       /\ Track.begin s' = Track.begin s
       /\ Track.end_ s' = Track.end_ s)
      \/ (r = Ok (Track.with_patched_geometry
                    (Track.merged_feature
                       (arr_get (Track.features s) (Feature.frame fb)) fb) geom)
          /\ arr_get (Track.features s') (Feature.frame fb)
             = Some (Track.with_patched_geometry
                       (Track.merged_feature
                          (arr_get (Track.features s) (Feature.frame fb)) fb) geom)
          /\ Track.featureIndex s'
             = listInsert (Track.featureIndex s) (Feature.frame fb)
          /\ (List.length (listInsert (Track.featureIndex s) (Feature.frame fb)) <> 1 ->
              expanded (Track.begin s) (Track.end_ s) (Feature.frame fb)
                       (Track.begin s') (Track.end_ s')))).
Proof.
  unfold Track.setFeature. cbv zeta.
  set (g := Feature.frame fb).
  unfold Track.bind at 1. unfold Track.get at 1.
  unfold Track.bind at 1. unfold Track.modify at 1.
  destruct (negb (truthy _)) eqn:Ek.
  - unfold Track.throw. cbv beta. intros [= <- <-]. simpl. split.
    + intros j Hj. by rewrite arr_get_set_ne.
    + left. done.
  - unfold Track.bind at 1. unfold Track.modify at 1.
    unfold Track.bind at 1. unfold Track.modify at 1.
    cbn [Track.features Track.with_features Track.with_featureIndex
         Track.featureIndex].
    set (s3 := Track.with_features _ _).
    unfold Track.bind at 1.
    destruct (maybeExpandBounds_spec g s3) as (s4 & -> & Hf4 & Hi4 & Hx4).
    unfold Track.bind at 1. unfold Track.get at 1.
    unfold Track.bind at 1.
    assert (exists s5, (if List.length (Track.featureIndex s4) =? 1
                        then if negb (num_eqb (of_frame g) (Track.begin s4))
                             then Track.maybeShrinkBounds (Track.begin s4)
                             else if negb (num_eqb (of_frame g) (Track.end_ s4))
                                  then Track.maybeShrinkBounds (Track.end_ s4)
                                  else Track.ret tt
                        else Track.ret tt) s4 = (Ok tt, s5)
                       /\ Track.features s5 = Track.features s4
                       /\ Track.featureIndex s5 = Track.featureIndex s4
                       /\ (List.length (Track.featureIndex s4) <> 1 -> s5 = s4))
      as (s5 & -> & Hf5 & Hi5 & Hs5).
    { destruct (Nat.eqb_spec (List.length (Track.featureIndex s4)) 1) as [E|E].
      - destruct (negb (num_eqb (of_frame g) (Track.begin s4))).
        + destruct (maybeShrinkBounds_spec (Track.begin s4) s4) as (s5 & -> & ? & ?).
          exists s5. done.
        + destruct (negb (num_eqb (of_frame g) (Track.end_ s4))).
          * destruct (maybeShrinkBounds_spec (Track.end_ s4) s4) as (s5 & -> & ? & ?).
            exists s5. done.
          * exists s4. done.
      - exists s4. done. }
    unfold Track.bind at 1.
    destruct (notify_spec EvFeature
                (Track.old_feature_value (arr_get (Track.features s) g) fb geom) s5)
      as (s6 & -> & Hf6 & Hi6 & Hb6 & He6).
    unfold Track.ret. cbv beta. intros [= <- <-].
    rewrite Hf6, Hf5, Hf4, Hi6, Hi5, Hi4. subst s3. simpl. split.
    + intros j Hj. rewrite arr_get_set2. by case_decide.
    + right. split; [done|]. split; [by rewrite arr_get_set2, decide_True|].
      split; [done|]. intros Hlen.
      rewrite Hb6, He6, (Hs5 ltac:(by rewrite Hi4)). exact Hx4.
Qed.

(** *** getFeature *)


Lemma expanded_contains b e g b' e' i :
  expanded b e g b' e' -> bounds_contain b e i -> bounds_contain b' e' i.
Proof.
  intros [(H1 & -> & ->)|[(H1 & H2 & -> & ->)|(H1 & H2 & -> & ->)]] [Hb He];
    [| |done].
  - split; [|done]. destruct b as [b|]; unfold of_frame in *; simpl in *.
    + rewrite Z.leb_le in *. rewrite Z.ltb_lt in H1. lia.
    + done.
  - split; [done|]. destruct e as [e|]; unfold of_frame in *; simpl in *.
    + rewrite Z.leb_le in *. rewrite Z.ltb_lt in H2. lia.
    + done.
Qed.

Lemma expanded_contains_new b e g b' e' i :
  expanded b e g b' e' -> bounds_contain b e i -> bounds_contain b' e' g.
Proof.
  intros [(H1 & -> & ->)|[(H1 & H2 & -> & ->)|(H1 & H2 & -> & ->)]] [Hb He].
  - split; [by apply num_leb_of_frame|].
    destruct b as [b|], e as [e|]; unfold of_frame in *; simpl in *; try done.
    rewrite Z.leb_le in *. rewrite Z.ltb_lt in H1. lia.
  - split; [|by apply num_leb_of_frame].
    destruct b as [b|], e as [e|]; unfold of_frame in *; simpl in *; try done.
    rewrite Z.leb_le in *. rewrite Z.ltb_lt in H2. lia.
  - rewrite num_ltb_leb, negb_false_iff in H1, H2. by split.
Qed.


Lemma getFeature_stored s f x :
  arr_get (Track.features s) f = Some x ->
  Track.getFeature s f = Ok (Some x, Some x, Some x).
Proof. intros H. unfold Track.getFeature. by rewrite H. Qed.

Lemma getFeature_exact_None s f l u :
  Track.getFeature s f = Ok (None, l, u) ->
  arr_get (Track.features s) f = None.
Proof.
  unfold Track.getFeature. destruct (arr_get (Track.features s) f); [|done].
  intros [=].
Qed.




(** *** merge: what the track had stays *)





(** Bound expansion: on a track that has keyframes, whose index is sorted
    and within the bounds, [setFeature] keeps the index sorted and within
    the bounds, unless it rewrites the only keyframe (the index is then of
    length 1 and the first-keyframe path runs). *)
Lemma setFeature_index_ok (fb : Feature) geom (s : Track) r s' :
  index_ok s ->
  Track.featureIndex s <> [] ->
  List.length (listInsert (Track.featureIndex s) (Feature.frame fb)) <> 1 ->
  Track.setFeature fb geom s = (r, s') ->
  index_ok s'.
Proof.
  intros [Hs Hb] Hne Hlen Hset.
  destruct (setFeature_effect _ _ _ _ _ Hset)
    as [_ [(_ & Hx' & Hb' & He')|(_ & _ & Hx' & Hexp)]].
  - unfold index_ok. by rewrite Hx', Hb', He'.
  - destruct (listInsert_spec (Track.featureIndex s) (Feature.frame fb) Hs)
      as (Hs' & Hmem & _).
    specialize (Hexp Hlen).
    destruct (Track.featureIndex s) as [|i0 ix] eqn:Eix; [done|].
    split; [by rewrite Hx'|]. intros i Hi. rewrite Hx' in Hi.
    apply Hmem in Hi as [->|Hi].
    + apply (expanded_contains_new _ _ _ _ _ i0 Hexp). apply Hb. by left.
    + apply (expanded_contains _ _ _ _ _ i Hexp). by apply Hb.
Qed.

(** With a keyframe in an index that lies within the bounds,
    [begin <= end]. *)
Lemma index_ok_begin_le_end (s : Track) :
  index_ok s ->
  Track.featureIndex s <> [] ->
  num_leb (Track.begin s) (Track.end_ s) = true.
Proof.
  intros [_ Hb] Hne. destruct (Track.featureIndex s) as [|i0 ix]; [done|].
  destruct (Hb i0 ltac:(by left)) as [H1 H2]. by eapply num_leb_trans.
Qed.












(** ** The track invariant *)

Lemma num_eqb_eq (a b : num) : num_eqb a b = true <-> a = b.
Proof.
  destruct a as [x|], b as [y|]; simpl; try (split; [discriminate|congruence]);
    [|done].
  rewrite Z.eqb_eq. split; congruence.
Qed.

Lemma num_eqb_of_frame (i j : nat) :
  num_eqb (of_frame i) (of_frame j) = bool_decide (i = j).
Proof.
  unfold of_frame. simpl. case_bool_decide as H.
  - subst. apply Z.eqb_refl.
  - apply Z.eqb_neq. lia.
Qed.

Lemma num_ltb_of_frame (i j : nat) :
  num_ltb (of_frame i) (of_frame j) = true <-> i < j.
Proof. unfold of_frame. simpl. rewrite Z.ltb_lt. lia. Qed.

Lemma of_frame_inj (i j : nat) : of_frame i = of_frame j -> i = j.
Proof. unfold of_frame. intros [=]. lia. Qed.

Lemma of_frame_succ (i : nat) : num_add (of_frame i) 1 = of_frame (S i).
Proof. unfold of_frame. simpl. f_equal. lia. Qed.

Lemma sortedb_sound (l : list nat) : sortedb l = true -> StronglySorted lt l.
Proof.
  induction l as [|x l IH]; simpl; intros H; [constructor|].
  apply andb_prop in H as [H1 H2]. constructor; [by apply IH|].
  apply Forall_forall. intros y Hy.
  rewrite forallb_forall in H1. apply Nat.ltb_lt, H1.
  by apply list_elem_of_In.
Qed.

Lemma sorted_head_last (l : list nat) b e i :
  StronglySorted lt l -> head l = Some b -> last l = Some e -> i ∈ l ->
  b <= i <= e.
Proof.
  intros Hs Hb He Hi. apply list_elem_of_lookup_1 in Hi as [p Hp].
  rewrite head_lookup in Hb. rewrite last_lookup in He.
  pose proof (lookup_lt_Some _ _ _ Hp). split.
  - apply (sorted_lookup_le l 0 p); [done|lia|done|done].
  - apply (sorted_lookup_le l p (pred (length l))); [done|lia|done|done].
Qed.

Lemma coherentb_sound (s : Track) : coherentb s = true -> coherent s.
Proof.
  unfold coherentb. intros H.
  apply andb_prop in H as [H H4]. apply andb_prop in H as [H H3].
  apply andb_prop in H as [H1 H2].
  rewrite forallb_forall in H2. rewrite forallb_forall in H3.
  assert (Hin : forall i, i < List.length (Track.features s) ->
            (i ∈ Track.featureIndex s <-> is_Some (arr_get (Track.features s) i))
            /\ stored_okb i (arr_get (Track.features s) i) = true).
  { intros i Hi. specialize (H3 i). rewrite in_seq in H3.
    specialize (H3 ltac:(lia)). apply andb_prop in H3 as [Ha Hb].
    split; [|done]. apply Bool.eqb_prop in Ha.
    rewrite <- (bool_decide_spec (i ∈ _)), <- (bool_decide_spec (is_Some _)).
    by rewrite Ha. }
  split; [by apply sortedb_sound|]. split; [|split].
  - intros i. destruct (decide (i < List.length (Track.features s))) as [Hi|Hi].
    + by apply Hin.
    + split.
      * intros Hx. apply list_elem_of_In, H2, Nat.ltb_lt in Hx. lia.
      * intros [x Hx]. apply arr_get_lt in Hx. lia.
  - intros i f Hf. pose proof (arr_get_lt _ _ _ Hf) as Hi.
    destruct (Hin i Hi) as [_ Hok]. rewrite Hf in Hok. simpl in Hok.
    apply andb_prop in Hok as [Hok Hb]. apply andb_prop in Hok as [Hfr Hk].
    apply Nat.eqb_eq in Hfr. apply bool_decide_eq_true_1 in Hk, Hb. done.
  - intros Hne.
    destruct (head (Track.featureIndex s)) as [b|] eqn:Eb;
      [|by apply head_None in Eb].
    destruct (last (Track.featureIndex s)) as [e|] eqn:Ee;
      [|by apply last_None in Ee].
    apply andb_prop in H4 as [Hb He]. apply num_eqb_eq in Hb, He.
    exists b, e. split; [done|]. split; [done|].
    split; [by apply head_Some_elem_of|]. split.
    + rewrite last_lookup in Ee. by eapply list_elem_of_lookup_2.
    + intros i Hi. eapply sorted_head_last; eauto. by apply sortedb_sound.
Qed.

Lemma coherent_frames_stored (s : Track) : coherent s -> frames_stored s.
Proof. intros (_ & _ & H & _) i f Hf. by apply H. Qed.

Lemma coherent_empty (s : Track) i :
  coherent s -> Track.featureIndex s = [] -> arr_get (Track.features s) i = None.
Proof.
  intros (_ & Hix & _) He. destruct (arr_get _ i) eqn:E; [|done].
  assert (i ∈ Track.featureIndex s) as Hi by (apply Hix; eauto).
  rewrite He in Hi. by apply elem_of_nil in Hi.
Qed.

Lemma arr_get_num_of_frame {A} (a : list (option A)) (i : nat) :
  arr_get_num a (of_frame i) = arr_get a i.
Proof.
  unfold arr_get_num, of_frame.
  destruct (Z.ltb_spec (Z.of_nat i) 0); [lia|]. by rewrite Nat2Z.id.
Qed.

Lemma arr_get_num_empty {A} (a : list (option A)) (n : num) :
  (forall i, arr_get a i = None) -> arr_get_num a n = None.
Proof.
  intros H. destruct n as [z|]; simpl; [|done]. by destruct (z <? 0)%Z.
Qed.

(** The shapes of [getFeature(f)] on a coherent track. *)
Lemma getFeature_coherent (s : Track) (f : nat) :
  coherent s ->
  match arr_get (Track.features s) f with
  | Some x => Track.getFeature s f = Ok (Some x, Some x, Some x)
  | None =>
      (Track.featureIndex s = [] /\ Track.getFeature s f = Ok (None, None, None))
      \/ (exists b x,
            Track.begin s = of_frame b /\ f < b
            /\ arr_get (Track.features s) b = Some x
            /\ Track.getFeature s f = Ok (None, Some x, None))
      \/ (exists e x,
            Track.end_ s = of_frame e /\ e < f
            /\ arr_get (Track.features s) e = Some x
            /\ Track.getFeature s f = Ok (None, None, Some x))
      \/ (exists d0 d1 a c r,
            bounds_contain (Track.begin s) (Track.end_ s) f
            /\ surrounds (Track.featureIndex s) f d0 d1
            /\ d0 < f < d1
            /\ arr_get (Track.features s) d0 = Some a
            /\ arr_get (Track.features s) d1 = Some c
            /\ Track.getFeature s f = Ok (r, Some a, Some c)
            /\ ((truthy (Feature.interpolate a) = false /\ r = None)
                \/ (truthy (Feature.interpolate a) = true
                    /\ exists bx, r = Some (Feature.box f (Some false) (Some true)
                                              (Some bx)))))
  end.
Proof.
  intros Hc. pose proof Hc as (Hs & Hix & Hst & Hbe).
  destruct (arr_get (Track.features s) f) as [x|] eqn:Ef.
  { by apply getFeature_stored. }
  unfold Track.getFeature. rewrite Ef.
  destruct (decide (Track.featureIndex s = [])) as [Hnil|Hne].
  { left. split; [done|].
    rewrite (arr_get_num_empty _ (Track.begin s)),
      (arr_get_num_empty _ (Track.end_ s))
      by (intros; by apply coherent_empty).
    rewrite Hnil. simpl.
    destruct (_ || _); [|done].
    by destruct (match Track.begin s with Fin _ => _ | Infinity => _ end). }
  right. destruct (Hbe Hne) as (b & e & Hb & He & Hbi & Hei & Hall).
  rewrite Hb, He.
  assert (f <> b) as Hfb.
  { intros ->. apply Hix in Hbi as [x Hx]. congruence. }
  assert (f <> e) as Hfe.
  { intros ->. apply Hix in Hei as [x Hx]. congruence. }
  destruct (num_ltb (of_frame f) (of_frame b)) eqn:E1.
  { apply num_ltb_of_frame in E1. simpl orb. cbv iota.
    assert (num_leb (of_frame f) (of_frame b) = true) as ->
      by (apply num_leb_of_frame; lia).
    left. apply Hix in Hbi as [x Hx]. exists b, x.
    rewrite arr_get_num_of_frame, Hx. done. }
  destruct (num_ltb (of_frame e) (of_frame f)) eqn:E2.
  { apply num_ltb_of_frame in E2. simpl orb. cbv iota.
    assert (num_leb (of_frame f) (of_frame b) = false) as ->.
    { apply not_true_is_false. rewrite num_leb_of_frame.
      apply not_true_iff_false in E1. rewrite num_ltb_of_frame in E1. lia. }
    right. left. apply Hix in Hei as [x Hx]. exists e, x.
    rewrite arr_get_num_of_frame, Hx. done. }
  simpl orb. cbv iota. right. right.
  apply not_true_iff_false in E1, E2. rewrite num_ltb_of_frame in E1, E2.
  destruct (binarySearch_spec (Track.featureIndex s) f Hs) as [Hlen [Hlo Hhi]].
  set (r := binarySearch (Track.featureIndex s) f) in *.
  apply list_elem_of_lookup_1 in Hbi as Hpb. destruct Hpb as [pb Hpb].
  apply list_elem_of_lookup_1 in Hei as Hpe. destruct Hpe as [pe Hpe].
  assert (pb < r) as Hpbr.
  { destruct (decide (pb < r)); [done|]. pose proof (Hhi pb b ltac:(lia) Hpb). lia. }
  assert (r <= pe) as Hrpe.
  { destruct (decide (r <= pe)); [done|]. pose proof (Hlo pe e ltac:(lia) Hpe). lia. }
  pose proof (lookup_lt_Some _ _ _ Hpe) as Hpelen.
  destruct r as [|p] eqn:Er; [lia|].
  destruct (Track.featureIndex s !! p) as [d0|] eqn:Ed0;
    [|apply lookup_ge_None in Ed0; lia].
  destruct (Track.featureIndex s !! S p) as [d1|] eqn:Ed1;
    [|apply lookup_ge_None in Ed1; lia].
  assert (getSurroundingElements (Track.featureIndex s) (S p) = Some (d0, d1)) as Hg.
  { unfold getSurroundingElements. by rewrite Ed0, Ed1. }
  rewrite Hg.
  assert (surrounds (Track.featureIndex s) f d0 d1) as Hsur.
  { apply getSurroundingElements_spec; [done|]. fold r. by rewrite Er. }
  pose proof Hsur as (Hd0 & Hd1 & [Hlt Hle] & _).
  assert (f <> d1) as Hfd1.
  { intros ->. apply Hix in Hd1 as [x Hx]. congruence. }
  apply Hix in Hd0 as [a Ha]. apply Hix in Hd1 as [c Hcc].
  destruct (Hst _ _ Ha) as (Hfa & Hka & [ba Hba]).
  destruct (Hst _ _ Hcc) as (Hfc & Hkc & [bc Hbc]).
  rewrite Ha, Hcc. unfold Track.interpolate_entries.
  destruct (truthy (Feature.interpolate a)) eqn:Ei; simpl negb; cbv iota.
  - rewrite (interpolate_on f a c ba bc) by (done || lia).
    exists d0, d1, a, c. eexists. split.
    { split; apply num_leb_of_frame; lia. }
    split; [done|]. split; [lia|]. split; [done|]. split; [done|].
    split; [reflexivity|]. right. split; [done|].
    assert (Q_eqb (blend_weight f a c) 0 || Q_eqb (1 - blend_weight f a c) 0 = false)
      as ->.
    { apply not_true_is_false. rewrite keyframe_flag_spec.
      destruct (blend_weight_interior f a c) as [H0 H1]; [lia|].
      intros [H|H]; rewrite H in *; [by apply Qlt_irrefl in H0|by apply Qlt_irrefl in H1]. }
    eauto.
  - exists d0, d1, a, c, None. split.
    { split; apply num_leb_of_frame; lia. }
    split; [done|]. split; [lia|]. split; [done|]. split; [done|].
    split; [reflexivity|]. left. done.
Qed.

Lemma getFeature_total (s : Track) (f : nat) :
  coherent s -> exists r, Track.getFeature s f = Ok r.
Proof.
  intros Hc. pose proof (getFeature_coherent s f Hc) as H.
  destruct (arr_get (Track.features s) f); [eauto|].
  destruct H as [[_ H]|[(b & x & _ & _ & _ & H)|[(e & x & _ & _ & _ & H)
    |(d0 & d1 & a & c & r & _ & _ & _ & _ & _ & H & _)]]]; eauto.
Qed.

(** *** setFeature on a keyframe *)

Lemma setFeature_throws (fb : Feature) (geom : list GeoFeature) (s : Track) :
  truthy (Feature.keyframe
            (Track.merged_feature
               (arr_get (Track.features s) (Feature.frame fb)) fb)) = false ->
  Track.setFeature fb geom s
  = (Throw SetFeatureNotKeyframe,
     Track.with_features
       (arr_set (Track.features s) (Feature.frame fb)
          (Track.merged_feature
             (arr_get (Track.features s) (Feature.frame fb)) fb)) s).
Proof.
  intros Hk. unfold Track.setFeature. cbv zeta.
  unfold Track.bind at 1. unfold Track.get at 1.
  unfold Track.bind at 1. unfold Track.modify at 1.
  by rewrite Hk.
Qed.

Lemma setFeature_success (fb : Feature) (geom : list GeoFeature) (s : Track) :
  truthy (Feature.keyframe
            (Track.merged_feature
               (arr_get (Track.features s) (Feature.frame fb)) fb)) = true ->
  exists s',
    Track.setFeature fb geom s
    = (Ok (Track.with_patched_geometry
             (Track.merged_feature
                (arr_get (Track.features s) (Feature.frame fb)) fb) geom), s')
    /\ (forall j,
          arr_get (Track.features s') j
          = if decide (j = Feature.frame fb)
            then Some (Track.with_patched_geometry
                         (Track.merged_feature
                            (arr_get (Track.features s) (Feature.frame fb)) fb) geom)
            else arr_get (Track.features s) j)
    /\ Track.featureIndex s'
       = listInsert (Track.featureIndex s) (Feature.frame fb)
    /\ (List.length (listInsert (Track.featureIndex s) (Feature.frame fb)) <> 1 ->
        expanded (Track.begin s) (Track.end_ s) (Feature.frame fb)
                 (Track.begin s') (Track.end_ s'))
    /\ (Track.begin s = of_frame (Feature.frame fb) ->
        Track.end_ s = of_frame (Feature.frame fb) ->
        Track.begin s' = Track.begin s /\ Track.end_ s' = Track.end_ s).
Proof.
  intros Hk. unfold Track.setFeature. cbv zeta.
  set (g := Feature.frame fb) in *.
  unfold Track.bind at 1. unfold Track.get at 1.
  unfold Track.bind at 1. unfold Track.modify at 1.
  rewrite Hk. cbn [negb].
  unfold Track.bind at 1. unfold Track.modify at 1.
  unfold Track.bind at 1. unfold Track.modify at 1.
  cbn [Track.features Track.with_features Track.with_featureIndex
       Track.featureIndex].
  set (s3 := Track.with_features _ _).
  unfold Track.bind at 1.
  destruct (maybeExpandBounds_spec g s3) as (s4 & -> & Hf4 & Hi4 & Hx4).
  unfold Track.bind at 1. unfold Track.get at 1.
  unfold Track.bind at 1.
  assert (exists s5, (if List.length (Track.featureIndex s4) =? 1
                      then if negb (num_eqb (of_frame g) (Track.begin s4))
                           then Track.maybeShrinkBounds (Track.begin s4)
                           else if negb (num_eqb (of_frame g) (Track.end_ s4))
                                then Track.maybeShrinkBounds (Track.end_ s4)
                                else Track.ret tt
                      else Track.ret tt) s4 = (Ok tt, s5)
                     /\ Track.features s5 = Track.features s4
                     /\ Track.featureIndex s5 = Track.featureIndex s4
                     /\ (List.length (Track.featureIndex s4) <> 1 -> s5 = s4)
                     /\ (Track.begin s4 = of_frame g -> Track.end_ s4 = of_frame g ->
                         s5 = s4))
    as (s5 & -> & Hf5 & Hi5 & Hs5 & Hs5').
  { destruct (Nat.eqb_spec (List.length (Track.featureIndex s4)) 1) as [E|E].
    - destruct (negb (num_eqb (of_frame g) (Track.begin s4))) eqn:E1.
      + destruct (maybeShrinkBounds_spec (Track.begin s4) s4) as (s5 & -> & ? & ?).
        exists s5. repeat split; try done. intros Hb. rewrite Hb in E1.
        by rewrite num_eqb_of_frame, bool_decide_eq_true_2 in E1.
      + destruct (negb (num_eqb (of_frame g) (Track.end_ s4))) eqn:E2.
        * destruct (maybeShrinkBounds_spec (Track.end_ s4) s4) as (s5 & -> & ? & ?).
          exists s5. repeat split; try done. intros _ He. rewrite He in E2.
          by rewrite num_eqb_of_frame, bool_decide_eq_true_2 in E2.
        * exists s4. done.
    - exists s4. done. }
  unfold Track.bind at 1.
  destruct (notify_spec EvFeature
              (Track.old_feature_value (arr_get (Track.features s) g) fb geom) s5)
    as (s6 & -> & Hf6 & Hi6 & Hb6 & He6).
  unfold Track.ret. cbv beta. exists s6. split; [done|].
  rewrite Hf6, Hf5, Hf4, Hi6, Hi5, Hi4, Hb6, He6. subst s3. simpl.
  split; [|split; [done|split]].
  - intros j. by rewrite arr_get_set2.
  - intros Hlen. rewrite (Hs5 ltac:(by rewrite Hi4)). exact Hx4.
  - intros Hb He.
    assert (Track.begin s4 = Track.begin s /\ Track.end_ s4 = Track.end_ s)
      as [Hb4 He4].
    { destruct Hx4 as [(H & _)|[(_ & H & _)|(_ & _ & H)]]; simpl in *.
      - rewrite Hb in H. apply num_ltb_of_frame in H. lia.
      - rewrite He in H. apply num_ltb_of_frame in H. lia.
      - done. }
    rewrite (Hs5' ltac:(congruence) ltac:(congruence)). done.
Qed.

Lemma over_Some_true {A} (a : A) (o : option A) :
  o = Some a \/ o = None -> Feature.over o (Some a) = Some a.
Proof. by intros [->| ->]. Qed.

Lemma patched_fields (stored : Feature) (geom : list GeoFeature) :
  Feature.frame (Track.with_patched_geometry stored geom) = Feature.frame stored
  /\ Feature.keyframe (Track.with_patched_geometry stored geom)
     = Feature.keyframe stored
  /\ Feature.interpolate (Track.with_patched_geometry stored geom)
     = Feature.interpolate stored
  /\ Feature.bounds (Track.with_patched_geometry stored geom)
     = Feature.bounds stored
  /\ Feature.attributes (Track.with_patched_geometry stored geom)
     = Feature.attributes stored.
Proof. unfold Track.with_patched_geometry. by destruct (_ || _). Qed.

Lemma merged_fields (f : option Feature) (fb : Feature) :
  Feature.frame (Track.merged_feature f fb) = Feature.frame fb
  /\ Feature.keyframe (Track.merged_feature f fb)
     = Feature.over (Feature.keyframe fb) (f ≫= Feature.keyframe)
  /\ Feature.interpolate (Track.merged_feature f fb)
     = Feature.over (Feature.interpolate fb) (f ≫= Feature.interpolate)
  /\ Feature.bounds (Track.merged_feature f fb)
     = Feature.over (round_bounds <$> Feature.bounds fb) (f ≫= Feature.bounds)
  /\ Feature.attributes (Track.merged_feature f fb)
     = Feature.over (Feature.attributes fb) (f ≫= Feature.attributes).
Proof.
  unfold Track.merged_feature.
  destruct f as [f|]; destruct fb as [? ? ? ? [b|] ? ? ? ? ?]; simpl;
    repeat split; try done;
    match goal with |- ?o = Feature.over ?o None => by destruct o end.
Qed.

(** The entry [setFeature] stores for a settable argument is a keyframe
    with a box, on the frame of the argument. *)
Lemma settable_stored (s : Track) (fb : Feature) (geom : list GeoFeature) :
  coherent s -> settable s fb ->
  let x := Track.with_patched_geometry
             (Track.merged_feature
                (arr_get (Track.features s) (Feature.frame fb)) fb) geom in
  Feature.frame x = Feature.frame fb /\ keyframe_with_bounds x.
Proof.
  intros (_ & _ & Hst & _) Hset x. subst x.
  destruct (patched_fields
              (Track.merged_feature
                 (arr_get (Track.features s) (Feature.frame fb)) fb) geom)
    as (-> & Hk & _ & Hb & _).
  destruct (merged_fields (arr_get (Track.features s) (Feature.frame fb)) fb)
    as (-> & Hk' & _ & Hb' & _).
  split; [done|]. unfold keyframe_with_bounds. rewrite Hk, Hb, Hk', Hb'.
  unfold settable in Hset.
  destruct (arr_get (Track.features s) (Feature.frame fb)) as [old|] eqn:E; simpl.
  - destruct (Hst _ _ E) as (_ & Hko & [bo Hbo]). rewrite Hko, Hbo. split.
    + by destruct (Feature.keyframe fb) as [[|]|].
    + by destruct (Feature.bounds fb).
  - destruct Hset as [-> [b ->]]. simpl. eauto.
Qed.

Lemma length_one_members (l : list nat) (x y : nat) :
  List.length l = 1 -> x ∈ l -> y ∈ l -> x = y.
Proof.
  destruct l as [|a [|b l]]; try done. intros _.
  rewrite !list_elem_of_singleton. congruence.
Qed.

Lemma setFeature_coherent (fb : Feature) (geom : list GeoFeature) (s : Track) :
  coherent s -> initialized s -> settable s fb ->
  exists x s',
    Track.setFeature fb geom s = (Ok x, s')
    /\ x = Track.with_patched_geometry
             (Track.merged_feature
                (arr_get (Track.features s) (Feature.frame fb)) fb) geom
    /\ coherent s' /\ initialized s'
    /\ (forall j,
          arr_get (Track.features s') j
          = if decide (j = Feature.frame fb) then Some x
            else arr_get (Track.features s) j)
    /\ Track.featureIndex s'
       = listInsert (Track.featureIndex s) (Feature.frame fb)
    /\ (bounds_contain (Track.begin s) (Track.end_ s) (Feature.frame fb) ->
        Track.begin s' = Track.begin s /\ Track.end_ s' = Track.end_ s).
Proof.
  intros Hc Hinit Hset.
  destruct (settable_stored s fb geom Hc Hset) as [Hfr [Hkx Hbx]].
  pose proof Hc as (Hs & Hix & Hst & Hbe).
  destruct (setFeature_success fb geom s) as (s' & Hrun & Hf & Hi & Hx & Hx1).
  { destruct (patched_fields
                (Track.merged_feature
                   (arr_get (Track.features s) (Feature.frame fb)) fb) geom)
      as (_ & Hk & _). rewrite <- Hk, Hkx. done. }
  set (g := Feature.frame fb) in *.
  set (x := Track.with_patched_geometry _ _) in *.
  destruct (listInsert_spec (Track.featureIndex s) g Hs) as (Hs' & Hmem & Hlen).
  destruct (Hbe Hinit) as (b & e & Hb & He & Hbi & Hei & Hall).
  assert (Hbounds :
    exists b' e', Track.begin s' = of_frame b' /\ Track.end_ s' = of_frame e'
      /\ b' ∈ listInsert (Track.featureIndex s) g
      /\ e' ∈ listInsert (Track.featureIndex s) g
      /\ (forall i, i ∈ listInsert (Track.featureIndex s) g -> b' <= i <= e')
      /\ (bounds_contain (Track.begin s) (Track.end_ s) g -> b' = b /\ e' = e)).
  { destruct (decide (List.length (listInsert (Track.featureIndex s) g) = 1))
      as [H1|H1].
    - assert (b = g) as ->
        by (eapply length_one_members; [exact H1| |]; apply Hmem; eauto).
      assert (e = g) as ->
        by (eapply length_one_members; [exact H1| |]; apply Hmem; eauto).
      destruct (Hx1 Hb He) as [Hb' He']. exists g, g.
      rewrite Hb', He'.
      split; [done|]. split; [done|]. split; [apply Hmem; eauto|].
      split; [apply Hmem; eauto|]. split; [|done].
      intros i Hi'. assert (i = g) as ->; [|done].
      eapply length_one_members; [exact H1|done|]. apply Hmem; eauto.
    - specialize (Hx H1). rewrite Hb, He in Hx.
      destruct Hx as [(H & -> & ->)|[(H0 & H & -> & ->)|(H0 & H & -> & ->)]].
      + apply num_ltb_of_frame in H. exists g, e.
        split; [done|]. split; [done|]. split; [apply Hmem; eauto|].
        split; [apply Hmem; eauto|]. split.
        * intros i Hi'. pose proof (Hall b Hbi).
          apply Hmem in Hi' as [->|Hi']; [lia|]. apply Hall in Hi'. lia.
        * intros [H2 _]. rewrite Hb in H2. apply num_leb_of_frame in H2. lia.
      + apply num_ltb_of_frame in H. exists b, g.
        split; [done|]. split; [done|]. split; [apply Hmem; eauto|].
        split; [apply Hmem; eauto|]. split.
        * intros i Hi'. pose proof (Hall e Hei).
          apply Hmem in Hi' as [->|Hi']; [lia|]. apply Hall in Hi'. lia.
        * intros [_ H2]. rewrite He in H2. apply num_leb_of_frame in H2. lia.
      + apply not_true_iff_false in H0, H.
        rewrite num_ltb_of_frame in H0, H. exists b, e.
        split; [done|]. split; [done|]. split; [apply Hmem; eauto|].
        split; [apply Hmem; eauto|]. split; [|done].
        intros i Hi'. pose proof (Hall e Hei).
        apply Hmem in Hi' as [->|Hi']; [lia|]. apply Hall in Hi'. lia. }
  exists x, s'. split; [done|]. split; [done|].
  assert (initialized s') as Hinit'.
  { unfold initialized. rewrite Hi. intros Hnil.
    assert (g ∈ listInsert (Track.featureIndex s) g) as Hg by (apply Hmem; eauto).
    rewrite Hnil in Hg. by apply elem_of_nil in Hg. }
  split; [|split; [done|split; [done|split; [done|]]]].
  - split; [by rewrite Hi|]. split; [|split].
    + intros i. rewrite Hi, Hmem, Hf. case_decide as Hd.
      * split; eauto.
      * rewrite <- Hix. split; [intros [?|?]|]; eauto; done.
    + intros i f. rewrite Hf. case_decide as Hd.
      * intros [= <-]. subst i. done.
      * apply Hst.
    + intros _. rewrite Hi.
      destruct Hbounds as (b' & e' & ? & ? & ? & ? & ? & _). exists b', e'. done.
  - intros Hin. destruct Hbounds as (b' & e' & -> & -> & _ & _ & _ & Hsame).
    destruct (Hsame Hin) as [-> ->]. done.
Qed.

(** *** deleteFeature *)

Lemma sorted_member_position (arr : list nat) (g : nat) :
  StronglySorted lt arr -> g ∈ arr -> arr !! binarySearch arr g = Some g.
Proof.
  intros Hs Hg. destruct (binarySearch_spec arr g Hs) as [Hlen [Hlo Hhi]].
  set (r := binarySearch arr g) in *.
  apply list_elem_of_lookup_1 in Hg as [p Hp].
  assert (r <= p) as Hrp.
  { destruct (decide (r <= p)); [done|]. pose proof (Hlo p g ltac:(lia) Hp). lia. }
  pose proof (lookup_lt_Some _ _ _ Hp) as Hpl.
  destruct (arr !! r) as [x|] eqn:Ex; [|apply lookup_ge_None in Ex; lia].
  pose proof (Hhi r x ltac:(lia) Ex).
  pose proof (sorted_lookup_le arr r p x g Hs Hrp Ex Hp). f_equal. lia.
Qed.

Lemma listInsert_member (arr : list nat) (g : nat) :
  StronglySorted lt arr -> g ∈ arr -> listInsert arr g = arr.
Proof.
  intros Hs Hg. unfold listInsert.
  rewrite decide_True; [done|]. by apply sorted_member_position.
Qed.

Lemma listRemove_spec (arr : list nat) (g : nat) :
  StronglySorted lt arr ->
  StronglySorted lt (listRemove arr g)
  /\ (forall x, x ∈ listRemove arr g <-> x ∈ arr /\ x <> g).
Proof.
  intros Hs. unfold listRemove. set (r := binarySearch arr g).
  case_decide as Hr.
  - pose proof Hs as Hs0.
    rewrite <- (take_drop_middle arr r g Hr) in Hs.
    apply StronglySorted_app in Hs as (Hcross & Hs1 & Hs2).
    apply StronglySorted_inv in Hs2 as [Hs2 Hg2].
    split.
    + apply StronglySorted_app_2; [|done|done].
      intros x y Hx Hy. apply (Hcross x y Hx). by right.
    + intros x. rewrite elem_of_app.
      rewrite <- (take_drop_middle arr r g Hr) at 3.
      rewrite elem_of_app, elem_of_cons. split.
      * intros [Hx|Hx].
        -- split; [by left|]. intros ->.
           pose proof (Hcross g g Hx ltac:(by left)). lia.
        -- split; [by right; right|]. intros ->.
           rewrite Forall_forall in Hg2. pose proof (Hg2 g Hx). lia.
      * intros [[Hx|[->|Hx]] Hne]; [by left|done|by right].
  - split; [done|]. intros x. split; [|by intros [? _]].
    intros Hx. split; [done|]. intros ->. apply Hr.
    by apply sorted_member_position.
Qed.

Lemma arr_get_delete {A} (a : list (option A)) (g i : nat) :
  arr_get (arr_delete a g) i = if decide (i = g) then None else arr_get a i.
Proof.
  unfold arr_get, arr_delete. case_decide as H.
  - subst. destruct (decide (g < length a)).
    + by rewrite list_lookup_insert_eq.
    + rewrite list_insert_ge by lia.
      by rewrite (proj2 (lookup_ge_None a g)) by lia.
  - by rewrite list_lookup_insert_ne.
Qed.

Lemma maybeShrinkBounds_bounds (n : num) (s : Track) :
  exists s',
    Track.maybeShrinkBounds n s = (Ok tt, s')
    /\ Track.features s' = Track.features s
    /\ Track.featureIndex s' = Track.featureIndex s
    /\ (Track.begin s', Track.end_ s') = shrunk_bounds s n.
Proof.
  unfold Track.maybeShrinkBounds, shrunk_bounds, Track.bind, Track.get, Track.modify.
  destruct (num_eqb n (Track.begin s)).
  - destruct (Track.getNextKeyframe s _) as [nx|].
    + destruct (notify_spec EvBounds (OldBounds (Track.begin s) (Track.end_ s))
                  (Track.with_begin (of_frame nx) s)) as (s' & -> & Hf & Hi & Hb & He).
      exists s'. rewrite Hf, Hi, Hb, He. done.
    + destruct (notify_spec EvBounds (OldBounds (Track.begin s) (Track.end_ s))
                  (Track.with_end (Fin 0) (Track.with_begin Infinity s)))
        as (s' & -> & Hf & Hi & Hb & He).
      exists s'. rewrite Hf, Hi, Hb, He. done.
  - destruct (num_eqb n (Track.end_ s)); [|by exists s].
    destruct (Track.getPreviousKeyframe s _) as [pv|].
    + destruct (notify_spec EvBounds (OldBounds (Track.begin s) (Track.end_ s))
                  (Track.with_end (of_frame pv) s)) as (s' & -> & Hf & Hi & Hb & He).
      exists s'. rewrite Hf, Hi, Hb, He. done.
    + destruct (notify_spec EvBounds (OldBounds (Track.begin s) (Track.end_ s))
                  (Track.with_begin Infinity (Track.with_end (Fin 0) s)))
        as (s' & -> & Hf & Hi & Hb & He).
      exists s'. rewrite Hf, Hi, Hb, He. done.
Qed.

Lemma deleteFeature_run (g : nat) (s : Track) :
  exists s',
    Track.deleteFeature g s = (Ok tt, s')
    /\ Track.features s' = arr_delete (Track.features s) g
    /\ Track.featureIndex s'
       = (if Track.opt_flag (arr_get (Track.features s) g) Feature.keyframe
          then listRemove (Track.featureIndex s) g
          else Track.featureIndex s)
    /\ (Track.begin s', Track.end_ s')
       = shrunk_bounds
           (Track.with_features (arr_delete (Track.features s) g) s) (of_frame g).
Proof.
  unfold Track.deleteFeature.
  unfold Track.bind at 1. unfold Track.get at 1.
  unfold Track.bind at 1.
  set (s1 := if Track.opt_flag (arr_get (Track.features s) g) Feature.keyframe
             then Track.with_featureIndex (listRemove (Track.featureIndex s) g) s
             else s).
  assert ((if Track.opt_flag (arr_get (Track.features s) g) Feature.keyframe
           then Track.modify
                  (fun s0 => Track.with_featureIndex
                               (listRemove (Track.featureIndex s0) g) s0)
           else Track.ret tt) s = (Ok tt, s1)) as ->.
  { subst s1. by destruct (Track.opt_flag _ _). }
  unfold Track.bind at 1. unfold Track.modify at 1.
  unfold Track.bind at 1.
  destruct (maybeShrinkBounds_bounds (of_frame g)
              (Track.with_features (arr_delete (Track.features s1) g) s1))
    as (s3 & -> & Hf3 & Hi3 & Hb3).
  destruct (notify_spec EvFeature
              match arr_get (Track.features s) g with
              | Some f => OldFeature f
              | None => OldUndefined
              end s3) as (s4 & -> & Hf4 & Hi4 & Hb4 & He4).
  exists s4. split; [done|]. rewrite Hf4, Hi4, Hb4, He4, Hf3, Hi3, Hb3.
  subst s1. by destruct (Track.opt_flag _ _).
Qed.

Lemma nonempty_elem {A} (l : list A) : l <> [] -> exists x, x ∈ l.
Proof. destruct l as [|x l]; [done|]. intros _. exists x. left. Qed.

Lemma deleteFeature_coherent (g : nat) (s : Track) :
  coherent s ->
  exists s',
    Track.deleteFeature g s = (Ok tt, s')
    /\ coherent s'
    /\ (forall j,
          arr_get (Track.features s') j
          = if decide (j = g) then None else arr_get (Track.features s) j)
    /\ (forall i, i ∈ Track.featureIndex s'
                  <-> i ∈ Track.featureIndex s /\ i <> g).
Proof.
  intros Hc. pose proof Hc as (Hs & Hix & Hst & Hbe).
  destruct (deleteFeature_run g s) as (s' & Hrun & Hf & Hi & Hb).
  exists s'. split; [done|].
  assert (Hget : forall j,
            arr_get (Track.features s') j
            = if decide (j = g) then None else arr_get (Track.features s) j).
  { intros j. by rewrite Hf, arr_get_delete. }
  destruct (listRemove_spec (Track.featureIndex s) g Hs) as [Hs' Hmem].
  assert (Hidx : forall i, i ∈ Track.featureIndex s'
                           <-> i ∈ Track.featureIndex s /\ i <> g).
  { intros i. rewrite Hi.
    destruct (arr_get (Track.features s) g) as [x|] eqn:Eg; simpl.
    - destruct (Hst _ _ Eg) as (_ & -> & _). simpl. apply Hmem.
    - split; [|by intros [? _]]. intros Hx. split; [done|]. intros ->.
      apply Hix in Hx as [x Hx]. congruence. }
  assert (Hsorted : StronglySorted lt (Track.featureIndex s')).
  { rewrite Hi. by destruct (Track.opt_flag _ _). }
  assert (Hix' : forall i, i ∈ Track.featureIndex s'
                           <-> is_Some (arr_get (Track.features s') i)).
  { intros i. rewrite Hidx, Hget, Hix. case_decide as Hd.
    - split; [by intros [_ ?]|]. by intros [? ?].
    - split; [by intros [? _]|done]. }
  split; [|done]. split; [done|]. split; [done|]. split.
  { intros i f. rewrite Hget. case_decide; [done|]. apply Hst. }
  intros Hne.
  assert (Track.featureIndex s <> []) as Hne0.
  { intros Hnil. destruct (nonempty_elem _ Hne) as [i Hi'].
    apply Hidx in Hi' as [Hi' _]. rewrite Hnil in Hi'. by apply elem_of_nil in Hi'. }
  destruct (Hbe Hne0) as (b & e & Hbb & Hee & Hbi & Hei & Hall).
  set (s2 := Track.with_features (arr_delete (Track.features s) g) s) in *.
  assert (Hfs2 : frames_stored s2).
  { intros i f. subst s2. simpl. rewrite arr_get_delete.
    case_decide; [done|]. intros Hx. by apply Hst in Hx as [? _]. }
  assert (Hget2 : forall j,
            arr_get (Track.features s2) j
            = if decide (j = g) then None else arr_get (Track.features s) j).
  { intros j. subst s2. simpl. apply arr_get_delete. }
  assert (Hstored' : forall i, i ∈ Track.featureIndex s'
                               <-> is_Some (arr_get (Track.features s2) i)).
  { intros i. rewrite Hix', Hget, Hget2. done. }
  destruct (nonempty_elem _ Hne) as [w Hw].
  unfold shrunk_bounds in Hb.
  change (Track.begin s2) with (Track.begin s) in Hb.
  change (Track.end_ s2) with (Track.end_ s) in Hb.
  rewrite Hbb, Hee in Hb. rewrite !num_eqb_of_frame in Hb.
  case_bool_decide as Hgb.
  - (* the first keyframe goes *)
    subst g. rewrite of_frame_succ in Hb.
    destruct (Track.getNextKeyframe s2 (of_frame (S b))) as [nx|] eqn:En.
    + apply (getNextKeyframe_Some s2 (S b) nx Hfs2) in En as (Hle & Hsome & Hmin).
      injection Hb as Hb' He'. exists nx, e.
      split; [done|]. split; [done|].
      split; [by apply Hstored'|]. split.
      * apply Hidx. split; [done|]. intros ->.
        apply Hidx in Hw as [Hw1 Hw2]. apply Hall in Hw1. lia.
      * intros i Hi'. pose proof Hi' as Hi2.
        apply Hidx in Hi2 as [Hi2 Hi3]. apply Hall in Hi2. split; [|lia].
        destruct (decide (nx <= i)); [done|].
        apply Hstored' in Hi' as [x Hx].
        rewrite (Hmin i) in Hx; [done|lia|lia].
    + rewrite getNextKeyframe_None in En.
      pose proof Hw as Hw'. apply Hidx in Hw' as [Hw1 Hw2]. apply Hall in Hw1.
      apply Hstored' in Hw as [x Hx]. rewrite En in Hx; [done|lia].
  - case_bool_decide as Hge.
    + (* the last keyframe goes *)
      subst g. assert (b < e) as Hlt by (pose proof (Hall b Hbi); lia).
      rewrite of_frame_pred in Hb by lia.
      destruct (Track.getPreviousKeyframe s2 (of_frame (e - 1))) as [pv|] eqn:Ep.
      * apply (getPreviousKeyframe_Some s2 (e - 1) pv Hfs2) in Ep
          as (Hle & Hsome & Hmax).
        injection Hb as Hb' He'. exists b, pv.
        split; [done|]. split; [done|]. split.
        -- apply Hidx. split; [done|]. lia.
        -- split; [by apply Hstored'|].
           intros i Hi'. pose proof Hi' as Hi2.
           apply Hidx in Hi2 as [Hi2 Hi3]. apply Hall in Hi2. split; [lia|].
           destruct (decide (i <= pv)); [done|].
           apply Hstored' in Hi' as [x Hx].
           rewrite (Hmax i) in Hx; [done|lia|lia].
      * rewrite getPreviousKeyframe_None in Ep.
        pose proof Hw as Hw'. apply Hidx in Hw' as [Hw1 Hw2]. apply Hall in Hw1.
        apply Hstored' in Hw as [x Hx]. rewrite Ep in Hx; [done|lia].
    + injection Hb as Hb' He'. exists b, e.
      split; [done|]. split; [done|]. split; [apply Hidx; split; [done|congruence]|].
      split; [apply Hidx; split; [done|congruence]|].
      intros i Hi'. apply Hidx in Hi' as [Hi' _]. by apply Hall.
Qed.

(** *** toggleKeyframe *)

Lemma canInterpolate_getFeature (s : Track) (f : nat) real lower upper :
  Track.getFeature s f = Ok (real, lower, upper) ->
  Track.canInterpolate s f
  = Ok (real, lower, upper,
        Track.opt_flag real Feature.interpolate
        || Track.opt_flag lower Feature.interpolate
        || (negb (bool_decide (is_Some lower))
            && Track.opt_flag upper Feature.interpolate)).
Proof. intros H. unfold Track.canInterpolate. by rewrite H. Qed.

Lemma setFeature_then_ret (fb : Feature) (s : Track) x s' :
  Track.setFeature fb [] s = (Ok x, s') ->
  Track.bind (Track.setFeature fb []) (fun _ => Track.ret tt) s = (Ok tt, s').
Proof. intros H. unfold Track.bind. by rewrite H. Qed.

Lemma coherent_length_one (s : Track) (i : nat) :
  coherent s -> i ∈ Track.featureIndex s -> Track.length_is s 1 = true ->
  Track.begin s = of_frame i /\ Track.end_ s = of_frame i.
Proof.
  intros (_ & _ & _ & Hbe) Hi Hl.
  destruct (Hbe ltac:(intros E; rewrite E in Hi; by apply elem_of_nil in Hi))
    as (b & e & Hb & He & _ & _ & Hall).
  unfold Track.length_is, Track.length in Hl. rewrite Hb, He in Hl.
  unfold of_frame in Hl. apply Z.eqb_eq in Hl.
  pose proof (Hall i Hi). rewrite Hb, He.
  assert (b = i) by lia. assert (e = i) by lia. by subst.
Qed.

Lemma coherent_length_gap (s : Track) (d0 d1 : nat) :
  coherent s -> d0 ∈ Track.featureIndex s -> d1 ∈ Track.featureIndex s ->
  d0 < d1 -> Track.length_is s 1 = false.
Proof.
  intros Hc H0 H1 Hlt. apply not_true_is_false. intros Hl.
  destruct (coherent_length_one s d0 Hc H0 Hl) as [Hb _].
  destruct (coherent_length_one s d1 Hc H1 Hl) as [Hb' _].
  rewrite Hb in Hb'. apply of_frame_inj in Hb'. lia.
Qed.

(** What [toggleKeyframe(f)] does on a coherent track. *)
Lemma toggleKeyframe_cases (f : nat) (s : Track) :
  coherent s ->
  exists r s',
    Track.toggleKeyframe f s = (r, s')
    /\ coherent s'
    /\ ((r = Throw OnlyKeyframe /\ s' = s
         /\ Track.begin s = of_frame f /\ Track.length_is s 1 = true
         /\ is_Some (arr_get (Track.features s) f))
        \/ (r = Ok tt
            /\ is_Some (arr_get (Track.features s) f)
            /\ arr_get (Track.features s') f = None)
        \/ (r = Ok tt /\ s' = s
            /\ arr_get (Track.features s) f = None
            /\ (Track.featureIndex s = []
                \/ (bounds_contain (Track.begin s) (Track.end_ s) f
                    /\ exists l u, Track.getFeature s f = Ok (None, l, u))))
        \/ (r = Ok tt
            /\ arr_get (Track.features s) f = None
            /\ initialized s
            /\ exists x y,
                 arr_get (Track.features s') f = Some y
                 /\ y = Track.with_patched_geometry
                          (Track.merged_feature None
                             (Feature.set_keyframe (Some true)
                                (Feature.set_frame f x))) []
                 /\ ((exists b, Track.begin s = of_frame b /\ f < b
                                /\ arr_get (Track.features s) b = Some x)
                     \/ (exists e, Track.end_ s = of_frame e /\ e < f
                                   /\ arr_get (Track.features s) e = Some x)
                     \/ (exists l u, Track.getFeature s f = Ok (Some x, l, u))))).
Proof.
  intros Hc. pose proof Hc as (Hs & Hix & Hst & Hbe).
  pose proof (getFeature_coherent s f Hc) as Hg.
  unfold Track.toggleKeyframe.
  unfold Track.bind at 1. unfold Track.lift at 1.
  destruct (arr_get (Track.features s) f) as [x|] eqn:Ef.
  - rewrite (canInterpolate_getFeature _ _ _ _ _ Hg).
    unfold Track.bind at 1. unfold Track.get at 1.
    rewrite bool_decide_eq_true_2 by eauto. rewrite andb_true_l.
    destruct (Track.length_is s 1) eqn:El.
    + exists (Throw OnlyKeyframe), s. split; [done|]. split; [done|]. left.
      assert (f ∈ Track.featureIndex s) as Hf by (apply Hix; eauto).
      destruct (coherent_length_one s f Hc Hf El) as [Hb _]. eauto 10.
    + destruct (Hst _ _ Ef) as (_ & -> & _).
      change (negb (truthy (Some true))) with false. cbv iota.
      destruct (deleteFeature_coherent f s Hc) as (s' & -> & Hc' & Hf' & _).
      exists (Ok tt), s'. split; [done|]. split; [done|]. right. left.
      split; [done|]. split; [eauto|]. rewrite Hf'. by rewrite decide_True.
  - destruct Hg as [[Hnil Hg]|[(b & x & Hb & Hlt & Hx & Hg)|[(e & x & He & Hlt & Hx & Hg)
      |(d0 & d1 & a & c & r & Hin & Hsur & Hlt & Ha & Hcc & Hg & Hr)]]];
      rewrite (canInterpolate_getFeature _ _ _ _ _ Hg);
      unfold Track.bind at 1; unfold Track.get at 1.
    + exists (Ok tt), s. split; [done|]. split; [done|]. right. right. left.
      eauto 10.
    + rewrite bool_decide_eq_false_2 by (by intros [? ?]). rewrite andb_false_l.
      destruct (Hst _ _ Hx) as (Hfx & Hkx & Hbx). rewrite Hfx.
      rewrite (proj2 (Nat.ltb_lt f b)) by done.
      assert (initialized s) as Hinit.
      { intros Hnil. rewrite (coherent_empty s b Hc Hnil) in Hx. done. }
      destruct (setFeature_coherent
                  (Feature.set_keyframe (Some true) (Feature.set_frame f x)) [] s
                  Hc Hinit) as (y & s' & Hrun & Hy & Hc' & _ & Hf' & _).
      { unfold settable. simpl. rewrite Ef. done. }
      rewrite (setFeature_then_ret _ _ _ _ Hrun).
      exists (Ok tt), s'. split; [done|]. split; [done|]. right. right. right.
      split; [done|]. split; [done|]. split; [done|]. exists x, y.
      split; [by rewrite Hf', decide_True|]. simpl in Hy. rewrite Ef in Hy.
      split; [done|]. left. eauto.
    + rewrite bool_decide_eq_false_2 by (by intros [? ?]). rewrite andb_false_l.
      destruct (Hst _ _ Hx) as (Hfx & Hkx & Hbx). rewrite Hfx.
      rewrite (proj2 (Nat.ltb_lt e f)) by done.
      assert (initialized s) as Hinit.
      { intros Hnil. rewrite (coherent_empty s e Hc Hnil) in Hx. done. }
      destruct (setFeature_coherent
                  (Feature.set_keyframe (Some true) (Feature.set_frame f x)) [] s
                  Hc Hinit) as (y & s' & Hrun & Hy & Hc' & _ & Hf' & _).
      { unfold settable. simpl. rewrite Ef. done. }
      rewrite (setFeature_then_ret _ _ _ _ Hrun).
      exists (Ok tt), s'. split; [done|]. split; [done|]. right. right. right.
      split; [done|]. split; [done|]. split; [done|]. exists x, y.
      split; [by rewrite Hf', decide_True|]. simpl in Hy. rewrite Ef in Hy.
      split; [done|]. right. left. eauto.
    + pose proof Hsur as (Hd0 & Hd1 & _ & _).
      rewrite (coherent_length_gap s d0 d1 Hc Hd0 Hd1 ltac:(lia)).
      rewrite andb_false_r.
      destruct (Hst _ _ Ha) as (Hfa & _). destruct (Hst _ _ Hcc) as (Hfc & _).
      destruct Hr as [[Hi ->]|[Hi [bx ->]]].
      * rewrite Hfa, Hfc.
        rewrite (proj2 (Nat.ltb_ge d1 f)) by lia.
        rewrite (proj2 (Nat.ltb_ge f d0)) by lia.
        exists (Ok tt), s. split; [done|]. split; [done|]. right. right. left.
        split; [done|]. split; [done|]. split; [done|]. right. eauto.
      * change (negb (truthy (Feature.keyframe
                   (Feature.box f (Some false) (Some true) (Some bx))))) with true.
        cbv iota.
        assert (initialized s) as Hinit.
        { intros Hnil. rewrite Hnil in Hd0. by apply elem_of_nil in Hd0. }
        destruct (setFeature_coherent
                    (Feature.set_keyframe (Some true)
                       (Feature.set_frame f
                          (Feature.box f (Some false) (Some true) (Some bx)))) [] s
                    Hc Hinit) as (y & s' & Hrun & Hy & Hc' & _ & Hf' & _).
        { unfold settable. simpl. rewrite Ef. eauto. }
        rewrite (setFeature_then_ret _ _ _ _ Hrun).
        exists (Ok tt), s'. split; [done|]. split; [done|]. right. right. right.
        split; [done|]. split; [done|]. split; [done|]. eexists _, y.
        split; [by rewrite Hf', decide_True|]. simpl in Hy. rewrite Ef in Hy.
        split; [exact Hy|]. right. right. eauto.
Qed.

Lemma canInterpolate_total (s : Track) (f : nat) :
  coherent s -> exists r, Track.canInterpolate s f = Ok r.
Proof.
  intros Hc. destruct (getFeature_total s f Hc) as [[[real lower] upper] H].
  rewrite (canInterpolate_getFeature _ _ _ _ _ H). eauto.
Qed.

(** X6.  The keyframe button of the track item never makes a coherent
    track throw: where [toggleKeyframe] of the track would refuse to remove
    the only keyframe, [keyframeDisabled] is set and the track is not
    asked.  The track stays coherent. *)
Theorem TrackItem_toggleKeyframe_never_throws (f : nat) (s : Track) :
  coherent s ->
  exists s', TrackItem.toggleKeyframe f s = (Ok tt, s') /\ coherent s'.
Proof.
  intros Hc. unfold TrackItem.toggleKeyframe, Track.bind, Track.lift,
    TrackItem.keyframeDisabled, TrackItem.feature.
  destruct (canInterpolate_total s f Hc) as [[[[real lower] upper] flag] Hr].
  destruct (negb (Track.revision s =? 0)).
  - rewrite Hr. cbn [TrackItem.real TrackItem.shouldInterpolate].
    destruct (_ || _) eqn:Ed; cbn [negb]; [by exists s|].
    destruct (toggleKeyframe_cases f s Hc) as (r & s' & -> & Hc' & H).
    destruct H as [(_ & _ & Hb & Hl & _)|[(-> & _)|[(-> & _)|(-> & _)]]];
      try by exists s'.
    rewrite Hl, Hb, num_eqb_of_frame in Ed.
    rewrite (bool_decide_eq_true_2 (f = f) eq_refl) in Ed.
    by rewrite orb_true_r in Ed.
  - cbn. by exists s.
Qed.

(** *** toggleInterpolation *)

Lemma surrounds_unique (arr : list nat) (f d0 d1 g g1 : nat) :
  surrounds arr f d0 d1 -> surrounds arr f g g1 -> d0 = g.
Proof.
  intros (H0 & H1 & [Hlt Hle] & Hall) (G0 & G1 & [Glt Gle] & Gall).
  destruct (Hall g G0); destruct (Gall d0 H0); lia.
Qed.

Lemma anchored_unique (s : Track) (f g g' : nat) :
  coherent s -> initialized s ->
  anchored s f g -> anchored s f g' -> g = g'.
Proof.
  intros (_ & _ & _ & Hbe) Hinit H H'.
  destruct (Hbe Hinit) as (b & e & Hb & He & Hbi & Hei & Hall).
  pose proof (Hall b Hbi) as Hbe'.
  unfold anchored, bounds_contain in *. rewrite Hb, He in *.
  destruct H as [[Hs ->]|[Hn H]]; destruct H' as [[Hs' ->]|[Hn' H']];
    try done; try (rewrite Hn in Hs'; by destruct Hs');
    try (rewrite Hn' in Hs; by destruct Hs).
  destruct H as [[? H]|[[? H]|[[H1 H2] [d1 H]]]];
    destruct H' as [[? H']|[[? H']|[[H1' H2'] [d1' H']]]];
    try apply of_frame_inj in H; try apply of_frame_inj in H';
    try rewrite num_leb_of_frame in *; try lia.
  by eapply surrounds_unique.
Qed.

Lemma canInterpolate_anchor (s : Track) (f : nat) :
  coherent s -> initialized s ->
  exists g k real lower upper,
    anchored s f g
    /\ arr_get (Track.features s) g = Some k
    /\ Track.canInterpolate s f
       = Ok (real, lower, upper, truthy (Feature.interpolate k))
    /\ (if Track.opt_flag real Feature.keyframe then real
        else match lower with
             | Some l => Some l
             | None => upper
             end) = Some k.
Proof.
  intros Hc Hinit. pose proof Hc as (Hs & Hix & Hst & Hbe).
  pose proof (getFeature_coherent s f Hc) as Hg. unfold anchored.
  destruct (arr_get (Track.features s) f) as [x|] eqn:Ef.
  - exists f, x, (Some x), (Some x), (Some x).
    rewrite (canInterpolate_getFeature _ _ _ _ _ Hg).
    destruct (Hst _ _ Ef) as (_ & Hk & _).
    split; [left; eauto|]. split; [done|]. simpl. rewrite Hk. simpl.
    split; [|done]. by destruct (truthy (Feature.interpolate x)).
  - destruct Hg as [[Hnil Hg]|[(b & x & Hb & Hlt & Hx & Hg)|[(e & x & He & Hlt & Hx & Hg)
      |(d0 & d1 & a & c & r & Hin & Hsur & Hlt & Ha & Hcc & Hg & Hr)]]];
      [done| | |];
      rewrite (canInterpolate_getFeature _ _ _ _ _ Hg).
    + exists b, x, None, (Some x), None. split; [right; eauto|].
      split; [done|]. simpl. split; [|done].
      by destruct (truthy (Feature.interpolate x)).
    + exists e, x, None, None, (Some x). split; [right; eauto|].
      split; [done|]. simpl. done.
    + exists d0, a, r, (Some a), (Some c). split; [right; eauto 10|].
      split; [done|].
      destruct Hr as [[Hi ->]|[Hi [bx ->]]]; simpl; rewrite Hi; done.
Qed.

(** X7.  On a coherent, initialized track [toggleInterpolation(f)] returns
    and flips what [canInterpolate(f)] reports; the index and the bounds
    stay, and the track stays coherent. *)
Theorem toggleInterpolation_flips_flag (f : nat) (s : Track) :
  coherent s -> initialized s ->
  exists real lower upper flag s' real' lower' upper',
    Track.canInterpolate s f = Ok (real, lower, upper, flag)
    /\ Track.toggleInterpolation f s = (Ok tt, s')
    /\ coherent s'
    /\ Track.featureIndex s' = Track.featureIndex s
    /\ Track.begin s' = Track.begin s
    /\ Track.end_ s' = Track.end_ s
    /\ Track.canInterpolate s' f = Ok (real', lower', upper', negb flag).
Proof.
  intros Hc Hinit. pose proof Hc as (Hs & Hix & Hst & Hbe).
  destruct (canInterpolate_anchor s f Hc Hinit)
    as (g & k & real & lower & upper & Hanc & Hk & Hcan & Htk).
  set (flag := truthy (Feature.interpolate k)) in *.
  destruct (Hst _ _ Hk) as (Hfk & Hkk & Hbk).
  assert (g ∈ Track.featureIndex s) as Hgi by (apply Hix; eauto).
  destruct (setFeature_coherent
              (Feature.set_interpolate (Some (negb flag)) k) [] s Hc Hinit)
    as (y & s' & Hrun & Hy & Hc' & Hinit' & Hf' & Hi' & Hb').
  { unfold settable. simpl. rewrite Hfk, Hk, Hkk. done. }
  simpl in Hf', Hi', Hb', Hy. rewrite Hfk in Hf', Hi', Hb', Hy.
  rewrite (listInsert_member _ _ Hs Hgi) in Hi'.
  destruct Hb' as [Hbb Hee].
  { destruct (Hbe Hinit) as (b & e & -> & -> & _ & _ & Hall).
    pose proof (Hall g Hgi). split; apply num_leb_of_frame; lia. }
  assert (Track.toggleInterpolation f s = (Ok tt, s')) as Htog.
  { unfold Track.toggleInterpolation.
    unfold Track.bind at 1. unfold Track.lift at 1. rewrite Hcan, Htk.
    by apply setFeature_then_ret with y. }
  assert (anchored s' f g) as Hanc'.
  { unfold anchored in *. rewrite Hi', Hbb, Hee, !Hf'.
    destruct Hanc as [[Hsome ->]|[Hnone H]].
    - left. by rewrite decide_True.
    - right. split; [|done]. rewrite decide_False; [done|].
      intros ->. congruence. }
  destruct (canInterpolate_anchor s' f Hc' Hinit')
    as (g' & k' & real' & lower' & upper' & Hanc2 & Hk' & Hcan' & _).
  assert (g' = g) as -> by (by eapply anchored_unique).
  rewrite Hf', decide_True in Hk' by done. injection Hk' as <-.
  assert (truthy (Feature.interpolate y) = negb flag) as Hflag.
  { rewrite Hy.
    destruct (patched_fields
                (Track.merged_feature (arr_get (Track.features s) g)
                   (Feature.set_interpolate (Some (negb flag)) k)) [])
      as (_ & _ & -> & _).
    destruct (merged_fields (arr_get (Track.features s) g)
                (Feature.set_interpolate (Some (negb flag)) k))
      as (_ & _ & -> & _). done. }
  rewrite Hflag in Hcan'.
  exists real, lower, upper, flag, s', real', lower', upper'. done.
Qed.

(** *** Methods that return normally *)

Lemma succeeds_ret {A} P (a : A) : succeeds P (Track.ret a).
Proof. intros s Hs. by exists a, s. Qed.

Lemma succeeds_bind {A B} P (m : Track.M A) (k : A -> Track.M B) :
  succeeds P m -> (forall a, succeeds P (k a)) -> succeeds P (Track.bind m k).
Proof.
  intros Hm Hk s Hs. destruct (Hm s Hs) as (a & s1 & E & H1).
  destruct (Hk a s1 H1) as (b & s2 & E2 & H2).
  exists b, s2. unfold Track.bind. by rewrite E.
Qed.

Lemma succeeds_get P : succeeds P Track.get.
Proof. intros s Hs. by exists s, s. Qed.

Lemma succeeds_forEach {A} P (l : list A) (body : A -> Track.M unit) :
  (forall x, x ∈ l -> succeeds P (body x)) -> succeeds P (Track.forEach l body).
Proof.
  induction l as [|x l IH]; intros H; simpl.
  - apply succeeds_ret.
  - apply succeeds_bind.
    + apply H. left.
    + intros _. apply IH. intros y Hy. apply H. by right.
Qed.

Lemma succeeds_notify P name old :
  timeline_stable P -> succeeds P (Track.notify name old).
Proof.
  intros HP s Hs. destruct (notify_spec name old s) as (s' & E & Ht).
  exists tt, s'. split; [done|]. by apply (HP s).
Qed.

Lemma succeeds_modify P (f : Track -> Track) :
  (forall s, P s -> P (f s)) -> succeeds P (Track.modify f).
Proof. intros H s Hs. exists tt, (f s). split; [done|]. by apply H. Qed.

Lemma succeeds_setType P trackType confidenceVal replace :
  timeline_stable P -> succeeds P (Track.setType trackType confidenceVal replace).
Proof.
  intros HP. unfold Track.setType. apply succeeds_bind; [apply succeeds_get|].
  intros s0. destruct (Q_geb confidenceVal 1).
  - apply succeeds_bind; [|intros; by apply succeeds_notify].
    apply succeeds_modify. intros s Hs. by apply (HP s).
  - apply succeeds_bind; [|intros; by apply succeeds_notify].
    apply succeeds_modify. intros s Hs. by apply (HP s).
Qed.

Lemma succeeds_setAttribute P key value :
  timeline_stable P -> succeeds P (Track.setAttribute key value).
Proof.
  intros HP. unfold Track.setAttribute. apply succeeds_bind; [apply succeeds_get|].
  intros s0. apply succeeds_bind; [|intros; by apply succeeds_notify].
  apply succeeds_modify. intros s Hs. by apply (HP s).
Qed.

Lemma succeeds_merge_pair P cp :
  timeline_stable P -> succeeds P (Track.merge_pair cp).
Proof.
  intros HP. unfold Track.merge_pair. apply succeeds_bind; [apply succeeds_get|].
  intros s0. destruct (find_name _ _) as [m|]; [|by apply succeeds_setType].
  destruct (Q_ltb _ _); [by apply succeeds_setType|apply succeeds_ret].
Qed.

Lemma succeeds_merge_attribute P kv :
  timeline_stable P -> succeeds P (Track.merge_attribute kv).
Proof.
  intros HP. unfold Track.merge_attribute. apply succeeds_bind; [apply succeeds_get|].
  intros s0. destruct (is_nullish _); [by apply succeeds_setAttribute|].
  apply succeeds_ret.
Qed.

Lemma coherent_timeline_stable :
  timeline_stable (fun s => coherent s /\ initialized s).
Proof.
  intros s s' (Hf & Hi & Hb & He) [Hc Hinit].
  unfold coherent, initialized in *. rewrite Hf, Hi, Hb, He. done.
Qed.

Lemma succeeds_merge_feature (fo : Feature) :
  keyframe_with_bounds fo ->
  succeeds (fun s => coherent s /\ initialized s) (Track.merge_feature fo).
Proof.
  intros [Hk Hb] s [Hc Hinit]. unfold Track.merge_feature.
  unfold Track.bind at 1. unfold Track.lift at 1.
  destruct (getFeature_total s (Feature.frame fo) Hc) as [[[real l] u] Hg].
  rewrite Hg. destruct real as [x|]; [by exists tt, s|].
  apply getFeature_exact_None in Hg.
  destruct (setFeature_coherent fo (default [] (Feature.geometry fo)) s Hc Hinit)
    as (y & s' & Hrun & _ & Hc' & Hinit' & _).
  { unfold settable. by rewrite Hg. }
  exists tt, s'. split; [|done]. unfold Track.bind. by rewrite Hrun.
Qed.

(** X8.  [merge] of coherent tracks into a coherent, initialized track
    returns normally and leaves a coherent track. *)
Theorem merge_keeps_coherent (others : list Track) (s : Track) :
  coherent s -> initialized s -> Forall coherent others ->
  exists s', Track.merge others s = (Ok tt, s') /\ coherent s' /\ initialized s'.
Proof.
  intros Hc Hinit Ho.
  assert (succeeds (fun s => coherent s /\ initialized s) (Track.merge others)) as H.
  { unfold Track.merge. apply succeeds_forEach. intros other Hother.
    rewrite Forall_forall in Ho. specialize (Ho other Hother).
    unfold Track.merge_other.
    apply succeeds_bind.
    { apply succeeds_forEach. intros cp _. apply succeeds_merge_pair.
      apply coherent_timeline_stable. }
    intros _. apply succeeds_bind.
    { apply succeeds_forEach. intros fo Hfo. apply succeeds_merge_feature.
      apply elem_of_present in Hfo as [i Hi].
      destruct Ho as (_ & _ & Hst & _). by apply Hst in Hi as [_ ?]. }
    intros _. apply succeeds_forEach. intros kv _.
    apply succeeds_merge_attribute. apply coherent_timeline_stable. }
  destruct (H s (conj Hc Hinit)) as ([] & s' & E & Hc' & Hinit').
  by exists s'.
Qed.

(** *** What the methods leave alone *)

Lemma preserves_throw {A} P (e : Error) : preserves P (Track.throw (A := A) e).
Proof. by intros s r s' Hs [= <- <-]. Qed.

Lemma preserves_lift {A} P (f : Track -> Res A) : preserves P (Track.lift f).
Proof. by intros s r s' Hs [= <- <-]. Qed.

Ltac blind_step :=
  first
    [ apply preserves_bind; [|intros ?]
    | apply preserves_ret
    | apply preserves_modify; intros ? ?
    | apply preserves_get
    | apply preserves_throw
    | apply preserves_lift ].

Lemma blind_maybeExpandBounds P frame :
  timeline_blind P -> preserves P (Track.maybeExpandBounds frame).
Proof.
  intros (Hf & Hi & Hb & He & Hn). unfold Track.maybeExpandBounds.
  blind_step; [blind_step|].
  destruct (num_ltb _ _); [|destruct (num_ltb _ _)]; repeat blind_step;
    try apply Hn; auto.
Qed.

Lemma blind_maybeShrinkBounds P frame :
  timeline_blind P -> preserves P (Track.maybeShrinkBounds frame).
Proof.
  intros (Hf & Hi & Hb & He & Hn). unfold Track.maybeShrinkBounds.
  blind_step; [blind_step|].
  destruct (num_eqb _ _); [|destruct (num_eqb _ _)].
  - blind_step; [|apply Hn].
    destruct (Track.getNextKeyframe _ _); repeat blind_step; auto.
  - blind_step; [|apply Hn].
    destruct (Track.getPreviousKeyframe _ _); repeat blind_step; auto.
  - blind_step.
Qed.

Lemma blind_setFeature P fb geom :
  timeline_blind P -> preserves P (Track.setFeature fb geom).
Proof.
  intros HP. pose proof HP as (Hf & Hi & Hb & He & Hn).
  unfold Track.setFeature. cbv zeta.
  blind_step; [blind_step|]. blind_step; [blind_step; auto|].
  destruct (negb _); [blind_step|].
  blind_step; [blind_step; auto|]. blind_step; [blind_step; auto|].
  blind_step; [by apply blind_maybeExpandBounds|].
  blind_step; [blind_step|]. blind_step.
  { destruct (_ =? _); [|blind_step].
    destruct (negb _); [by apply blind_maybeShrinkBounds|].
    destruct (negb _); [by apply blind_maybeShrinkBounds|blind_step]. }
  blind_step; [apply Hn|blind_step].
Qed.

Lemma blind_deleteFeature P frame :
  timeline_blind P -> preserves P (Track.deleteFeature frame).
Proof.
  intros HP. pose proof HP as (Hf & Hi & Hb & He & Hn).
  unfold Track.deleteFeature.
  blind_step; [blind_step|]. blind_step.
  { destruct (Track.opt_flag _ _); blind_step; auto. }
  blind_step; [blind_step; auto|].
  blind_step; [by apply blind_maybeShrinkBounds|]. apply Hn.
Qed.

Lemma blind_setFeatureAttribute P frame name value :
  timeline_blind P -> preserves P (Track.setFeatureAttribute frame name value).
Proof.
  intros (Hf & Hi & Hb & He & Hn). unfold Track.setFeatureAttribute.
  blind_step; [blind_step|].
  destruct (arr_get _ _); [|blind_step].
  blind_step; [blind_step; auto|apply Hn].
Qed.

Lemma blind_removeFeatureGeometry P frame key type :
  timeline_blind P -> preserves P (Track.removeFeatureGeometry frame key type).
Proof.
  intros (Hf & Hi & Hb & He & Hn). unfold Track.removeFeatureGeometry.
  blind_step; [blind_step|].
  destruct (arr_get _ _) as [x|]; [|blind_step].
  destruct (Feature.geometry x) as [g|]; [|blind_step].
  destruct (Track.remove_first _ _); [|blind_step].
  blind_step; [blind_step; auto|]. blind_step; [apply Hn|blind_step].
Qed.

Lemma blind_toggleInterpolation P frame :
  timeline_blind P -> preserves P (Track.toggleInterpolation frame).
Proof.
  intros HP. unfold Track.toggleInterpolation.
  blind_step; [blind_step|]. destruct a as [[[real lower] upper] flag].
  destruct (if Track.opt_flag real Feature.keyframe then real else _);
    [|blind_step].
  blind_step; [by apply blind_setFeature|blind_step].
Qed.

Lemma blind_toggleKeyframe P frame :
  timeline_blind P -> preserves P (Track.toggleKeyframe frame).
Proof.
  intros HP. unfold Track.toggleKeyframe.
  blind_step; [blind_step|]. destruct a as [[[real lower] upper] flag].
  blind_step; [blind_step|].
  destruct (_ && _); [blind_step|].
  destruct real as [re|].
  - destruct (negb _); [|by apply blind_deleteFeature].
    blind_step; [by apply blind_setFeature|blind_step].
  - destruct lower as [l|], upper as [u|]; try blind_step;
      repeat match goal with
             | |- context [if ?c then _ else _] => destruct c
             end;
      try blind_step; try (by apply blind_setFeature); try blind_step.
Qed.

Lemma blind_setType P trackType confidenceVal replace :
  timeline_blind P -> pairs_blind P ->
  preserves P (Track.setType trackType confidenceVal replace).
Proof.
  intros (_ & _ & _ & _ & Hn) Hp. unfold Track.setType.
  blind_step; [blind_step|].
  destruct (Q_geb _ _); (blind_step; [blind_step; auto|apply Hn]).
Qed.

Lemma blind_removeTypes P types :
  timeline_blind P -> pairs_blind P -> preserves P (Track.removeTypes types).
Proof.
  intros (_ & _ & _ & _ & Hn) Hp. unfold Track.removeTypes.
  blind_step; [blind_step|]. blind_step.
  { destruct (_ <? _); [|blind_step].
    blind_step; [blind_step; auto|apply Hn]. }
  blind_step; [blind_step|blind_step].
Qed.

Lemma blind_setAttribute P key value :
  timeline_blind P -> attributes_blind P ->
  preserves P (Track.setAttribute key value).
Proof.
  intros (_ & _ & _ & _ & Hn) Hp. unfold Track.setAttribute.
  blind_step; [blind_step|]. blind_step; [blind_step; auto|apply Hn].
Qed.

Lemma blind_merge_pair P cp :
  timeline_blind P -> pairs_blind P -> preserves P (Track.merge_pair cp).
Proof.
  intros HP Hp. unfold Track.merge_pair. blind_step; [blind_step|].
  destruct (find_name _ _) as [m|]; [|by apply blind_setType].
  destruct (Q_ltb _ _); [by apply blind_setType|blind_step].
Qed.

Lemma blind_merge_feature P f :
  timeline_blind P -> preserves P (Track.merge_feature f).
Proof.
  intros HP. unfold Track.merge_feature. blind_step; [blind_step|].
  destruct a as [[[x|] l] u]; [blind_step|].
  blind_step; [by apply blind_setFeature|blind_step].
Qed.

Lemma blind_merge P others :
  timeline_blind P -> pairs_blind P -> attributes_blind P ->
  preserves P (Track.merge others).
Proof.
  intros HP Hp Ha. unfold Track.merge. apply preserves_forEach. intros other.
  unfold Track.merge_other.
  blind_step; [apply preserves_forEach; intros; by apply blind_merge_pair|].
  blind_step; [apply preserves_forEach; intros; by apply blind_merge_feature|].
  apply preserves_forEach. intros kv. unfold Track.merge_attribute.
  blind_step; [blind_step|].
  destruct (is_nullish _); [by apply blind_setAttribute|blind_step].
Qed.

(** *** The change log *)

Lemma grows_refl s : grows s s.
Proof.
  unfold grows. repeat split; try done. exists []. rewrite app_nil_r.
  split; [done|]. destruct (Track.notifier s); simpl; lia.
Qed.

Lemma grows_notify s0 name old : preserves (grows s0) (Track.notify name old).
Proof.
  intros s r s' (Hid & Hm & Hn & Hr & new & He & Hl). unfold Track.notify.
  destruct (Track.isInitialized s).
  - cbn [Track.notifier Track.with_revision]. rewrite Hn.
    unfold grows.
    destruct (Track.notifier s0); intros [= <- <-]; simpl.
    + split; [done|]. split; [done|]. split; [done|]. split; [lia|].
      exists (new ++ [Build_Notification name old]).
      rewrite He, <- app_assoc. split; [done|]. rewrite length_app. simpl. lia.
    + split; [done|]. split; [done|]. split; [done|]. split; [lia|].
      exists new. done.
  - intros [= <- <-]. unfold grows. eauto 10.
Qed.

Lemma grows_timeline_blind s0 : timeline_blind (grows s0).
Proof.
  split; [|split; [|split; [|split]]]; try (by intros s x H);
    intros; apply grows_notify.
Qed.

Lemma grows_pairs_blind s0 : pairs_blind (grows s0).
Proof. by intros s x H. Qed.

Lemma grows_attributes_blind s0 : attributes_blind (grows s0).
Proof. by intros s x H. Qed.

(** *** Labels and timeline *)

Lemma same_labels_timeline_blind s0 : timeline_blind (same_labels s0).
Proof.
  split; [|split; [|split; [|split]]]; try (by intros s x H).
  intros name old s r s' H. unfold Track.notify.
  destruct (Track.isInitialized s); [|by intros [= <- <-]].
  cbn [Track.notifier Track.with_revision].
  by destruct (Track.notifier s); intros [= <- <-].
Qed.

(** *** Confidence pairs *)

Lemma Q_ltb_false (x y : Q) : Q_ltb x y = false <-> (y <= x)%Q.
Proof.
  unfold Q_ltb. rewrite negb_false_iff. apply Qle_bool_iff.
Qed.

Lemma Q_ltb_true (x y : Q) : Q_ltb x y = true <-> (x < y)%Q.
Proof.
  unfold Q_ltb. rewrite negb_true_iff. split.
  - intros H. apply Qnot_le_lt. intros Hle. apply Qle_bool_iff in Hle. congruence.
  - intros H. apply not_true_is_false. intros Hle. apply Qle_bool_iff in Hle.
    by apply Qle_not_lt in Hle.
Qed.

Lemma Q_geb_true (x y : Q) : Q_geb x y = true <-> (y <= x)%Q.
Proof. unfold Q_geb. apply Qle_bool_iff. Qed.

Lemma Q_geb_false (x y : Q) : Q_geb x y = false <-> (x < y)%Q.
Proof.
  unfold Q_geb. split.
  - intros H. apply Qnot_le_lt. intros Hle. apply Qle_bool_iff in Hle. congruence.
  - intros H. apply not_true_is_false. intros Hle. apply Qle_bool_iff in Hle.
    by apply Qle_not_lt in Hle.
Qed.

Lemma insert_desc_perm (x : ConfidencePair) (l : list ConfidencePair) :
  insert_desc x l ≡ₚ x :: l.
Proof.
  induction l as [|y l IH]; simpl; [done|].
  destruct (Q_ltb _ _); [|done]. rewrite IH. apply Permutation_swap.
Qed.

Lemma sort_desc_perm (l : list ConfidencePair) : sort_desc l ≡ₚ l.
Proof.
  induction l as [|x l IH]; simpl; [done|].
  unfold sort_desc in *. simpl. by rewrite insert_desc_perm, IH.
Qed.

Lemma insert_desc_sorted (x : ConfidencePair) (l : list ConfidencePair) :
  StronglySorted not_below l -> StronglySorted not_below (insert_desc x l).
Proof.
  induction 1 as [|y l Hs IH Hy]; simpl.
  - repeat constructor.
  - destruct (Q_ltb (snd x) (snd y)) eqn:E.
    + constructor; [done|]. rewrite insert_desc_perm. constructor; [|done].
      apply Q_ltb_true in E. unfold not_below. by apply Qlt_le_weak.
    + apply Q_ltb_false in E. constructor; [by constructor|].
      constructor; [done|]. eapply Forall_impl; [exact Hy|].
      intros z Hz. unfold not_below in *. by eapply Qle_trans.
Qed.

Lemma sort_desc_sorted (l : list ConfidencePair) :
  StronglySorted not_below (sort_desc l).
Proof.
  induction l as [|x l IH]; [constructor|].
  unfold sort_desc in *. simpl. by apply insert_desc_sorted.
Qed.

Lemma findIndex_name_Some (l : list ConfidencePair) (n : string) (i : nat) :
  findIndex_name l n = Some i -> exists v, l !! i = Some (n, v).
Proof.
  revert i. induction l as [|[a v] l IH]; intros i; simpl; [done|].
  destruct (String.eqb_spec a n) as [->|Hne].
  - intros [= <-]. by exists v.
  - destruct (findIndex_name l n) as [j|]; [|done]. simpl.
    intros [= <-]. by apply IH.
Qed.

Lemma findIndex_name_None (l : list ConfidencePair) (n : string) :
  findIndex_name l n = None <-> n ∉ l.*1.
Proof.
  induction l as [|[a v] l IH]; simpl.
  - split; [intros _; apply not_elem_of_nil|done].
  - rewrite not_elem_of_cons. destruct (String.eqb_spec a n) as [->|Hne].
    + split; [done|]. by intros [? _].
    + destruct (findIndex_name l n) as [j|] eqn:E; simpl.
      * split; [done|]. intros [_ H]. by apply IH in H.
      * split; [|done]. intros _. split; [done|]. by apply IH.
Qed.

Lemma insert_delete_perm {A} (l : list A) (i : nat) (x y : A) :
  l !! i = Some y -> <[i := x]> l ≡ₚ x :: delete i l.
Proof.
  revert i. induction l as [|a l IH]; intros [|i]; simpl; try done.
  intros H. rewrite (IH i H). apply Permutation_swap.
Qed.

Lemma splice_pair_perm (l : list ConfidencePair) (n : string) (v : Q) :
  splice_pair l (findIndex_name l n) (n, v)
  ≡ₚ (n, v) :: match findIndex_name l n with
               | Some i => delete i l
               | None => l
               end.
Proof.
  unfold splice_pair. destruct (findIndex_name l n) as [i|] eqn:E.
  - apply findIndex_name_Some in E as [w Hw]. by eapply insert_delete_perm.
  - rewrite <- Permutation_middle. by rewrite take_drop.
Qed.

(** What [notify] leaves behind. *)
Lemma notify_run (name : EventName) (old : OldValue) (s : Track) :
  exists s',
    Track.notify name old s = (Ok tt, s')
    /\ same_timeline s s' /\ same_labels s s'
    /\ Track.notifier s' = Track.notifier s
    /\ Track.revision s'
       = (if Track.isInitialized s then Track.revision s + 1 else Track.revision s)
    /\ Track.emitted s'
       = Track.emitted s
         ++ (if Track.isInitialized s && Track.notifier s
             then [Build_Notification name old] else []).
Proof.
  unfold Track.notify. destruct (Track.isInitialized s); simpl.
  - destruct (Track.notifier s) eqn:En; eexists; (split; [reflexivity|]); simpl;
      rewrite ?app_nil_r; by repeat split.
  - eexists; (split; [reflexivity|]); rewrite ?app_nil_r; by repeat split.
Qed.

Lemma setType_run (trackType : string) (confidenceVal : Q)
    (replace : option string) (s : Track) :
  let old := Track.confidencePairs s in
  let pairs :=
    if Q_geb confidenceVal 1 then [(trackType, 1%Q)]
    else
      let spliced :=
        splice_pair old (findIndex_name old trackType) (trackType, confidenceVal) in
      sort_desc
        (if truthy_str replace then
           match findIndex_name spliced (default ""%string replace) with
           | Some replaceIndex => delete replaceIndex spliced
           | None => spliced
           end
         else spliced) in
  exists s',
    Track.setType trackType confidenceVal replace s = (Ok tt, s')
    /\ Track.confidencePairs s' = pairs
    /\ Track.attributes s' = Track.attributes s
    /\ same_timeline s s'
    /\ Track.revision s'
       = (if Track.isInitialized s then Track.revision s + 1 else Track.revision s)
    /\ Track.emitted s'
       = Track.emitted s
         ++ (if Track.isInitialized s && Track.notifier s
             then [Build_Notification EvConfidencePairs
                     (OldConfidencePairs
                        (if Q_geb confidenceVal 1 then old else pairs))]
             else []).
Proof.
  intros old pairs. unfold Track.setType.
  unfold Track.bind at 1. unfold Track.get at 1. fold old.
  destruct (Q_geb confidenceVal 1).
  - unfold Track.bind, Track.modify.
    destruct (notify_run EvConfidencePairs (OldConfidencePairs old)
                (Track.with_confidencePairs [(trackType, 1%Q)] s))
      as (s' & -> & Ht & [Ha Hp] & Hn & Hr & He).
    exists s'. split; [done|]. rewrite Hp, Ha, Hr, He. done.
  - subst pairs. cbv zeta. unfold Track.bind, Track.modify.
    match goal with
    | |- context [Track.notify ?a ?b ?c] =>
        destruct (notify_run a b c) as (s' & -> & Ht & [Ha Hp] & Hn & Hr & He)
    end.
    exists s'. split; [done|]. rewrite Hp, Ha, Hr, He. done.
Qed.

Lemma sorted_head_top (l : list ConfidencePair) (top : ConfidencePair) :
  StronglySorted not_below l -> l !! 0 = Some top ->
  forall p, p ∈ l -> (snd p <= snd top)%Q.
Proof.
  intros Hs Ht p Hp. destruct l as [|x l]; [done|]. injection Ht as ->.
  apply StronglySorted_inv in Hs as [_ Hx].
  apply elem_of_cons in Hp as [->|Hp]; [apply Qle_refl|].
  rewrite Forall_forall in Hx. by apply Hx.
Qed.

Lemma find_name_sorted (l : list ConfidencePair) (n : string) (v : Q) :
  StronglySorted not_below l -> (n, v) ∈ l ->
  exists q, find_name l n = Some (n, q) /\ (v <= q)%Q.
Proof.
  unfold find_name. induction 1 as [|[a w] l Hs IH Hy]; intros Hin.
  - by apply elem_of_nil in Hin.
  - simpl. destruct (String.eqb_spec a n) as [->|Hne].
    + exists w. split; [done|].
      apply elem_of_cons in Hin as [[= ->]|Hin]; [apply Qle_refl|].
      rewrite Forall_forall in Hy. apply (Hy _ Hin).
    + apply elem_of_cons in Hin as [[= ? ?]|Hin]; [congruence|]. by apply IH.
Qed.

(** *** Loading *)

Lemma fold_place_last (fs : list Feature) (acc : list (option Feature)) (i : nat) :
  arr_get (fold_left place fs acc) i
  = match last (List.filter (fun f => Feature.frame f =? i) fs) with
    | Some f => Some (Track.default_keyframe f)
    | None => arr_get acc i
    end.
Proof.
  revert acc. induction fs as [|f fs IH]; intros acc; simpl; [done|].
  rewrite IH. destruct (Nat.eqb_spec (Feature.frame f) i) as [E|E].
  - rewrite last_cons.
    destruct (last (List.filter _ fs)); [done|].
    unfold place. rewrite E. apply arr_get_set_eq.
  - destruct (last (List.filter _ fs)); [done|].
    unfold place. by apply arr_get_set_ne.
Qed.

Lemma construct_features (id : Z) (p : TrackParams) (t : Track) :
  Track.construct id p = Ok t ->
  Track.features t = default [] (TrackParams.features p)
  /\ Track.begin t = default Infinity (TrackParams.begin p)
  /\ Track.end_ t = default (Fin 0) (TrackParams.end_ p)
  /\ Track.revision t = 1
  /\ Track.emitted t = [].
Proof.
  unfold Track.construct. destruct (Track.sanityCheckFeatures _); [|done].
  destruct (Track.repopulateInterpolatedFrames _); [|done].
  by intros [= <-].
Qed.

Lemma repopulate_go_consistent (l : list Feature) (acc idx : list nat) :
  Track.repopulate_go l acc = Ok idx -> Forall consistent l.
Proof.
  revert acc. induction l as [|g l IH]; intros acc; simpl; [by constructor|].
  destruct (xorb _ _) eqn:E; [done|]. intros H. constructor; [|by eapply IH].
  unfold consistent. by apply xorb_eq in E.
Qed.

Lemma sanityCheckFeatures_Throw (l : list (option Feature)) (e : Error) :
  Track.sanityCheckFeatures l = Throw e
  <-> e = SparseArrayExpected
      /\ exists i f, l !! i = Some (Some f)
                     /\ (forall j, j < i -> l !! j = Some None)
                     /\ Feature.frame f <> i.
Proof.
  unfold Track.sanityCheckFeatures.
  destruct (list_find _ l) as [[i [g|]]|] eqn:E.
  - apply list_find_Some in E as (Hi & _ & Hbefore).
    destruct (Nat.eqb_spec (Feature.frame g) i) as [Heq|Hne].
    + split; [done|]. intros (_ & i' & f & Hi' & Hb' & Hf).
      destruct (Nat.lt_trichotomy i i') as [H|[H|H]].
      * rewrite (Hb' i H) in Hi. done.
      * subst i'. rewrite Hi in Hi'. injection Hi' as ->. done.
      * destruct (Hbefore i' (Some f) Hi' H). eauto.
    + split.
      * intros [= <-]. split; [done|]. exists i, g. split; [done|]. split; [|done].
        intros j Hj. destruct (l !! j) as [[x|]|] eqn:Ej; [|done|].
        -- destruct (Hbefore j (Some x) Ej Hj). eauto.
        -- apply lookup_ge_None in Ej. apply lookup_lt_Some in Hi. lia.
      * intros (-> & _). done.
  - apply list_find_Some in E as (_ & [x Hx] & _). done.
  - split; [done|]. intros (_ & i & f & Hi & _).
    rewrite list_find_None in E. rewrite Forall_forall in E.
    destruct (E (Some f)); [|eauto]. by eapply list_elem_of_lookup_2.
Qed.

Lemma sorted_ext (l1 l2 : list nat) :
  StronglySorted lt l1 -> StronglySorted lt l2 ->
  (forall x, x ∈ l1 <-> x ∈ l2) -> l1 = l2.
Proof.
  intros H1 H2 Hext.
  assert (AntiSymm eq lt) by (intros x y ? ?; lia).
  apply (StronglySorted_unique lt); try done.
  apply NoDup_Permutation; [by apply StronglySorted_lt_NoDup
                           |by apply StronglySorted_lt_NoDup|done].
Qed.

Lemma filter_all {A} (p : A -> bool) (l : list A) :
  Forall (fun x => p x = true) l -> List.filter p l = l.
Proof.
  induction 1 as [|x l Hx _ IH]; simpl; [done|]. by rewrite Hx, IH.
Qed.

Lemma force_keyframe_fields (f : Feature) :
  Feature.frame (force_keyframe f) = Feature.frame f
  /\ Feature.keyframe (force_keyframe f) = Some true
  /\ Feature.bounds (force_keyframe f) = Feature.bounds f.
Proof. done. Qed.

Lemma coherent_ext (s t : Track) :
  coherent s ->
  (forall i, arr_get (Track.features t) i = arr_get (Track.features s) i) ->
  Track.featureIndex t = Track.featureIndex s ->
  Track.begin t = Track.begin s ->
  Track.end_ t = Track.end_ s ->
  coherent t.
Proof.
  intros (Hs & Hix & Hst & Hbe) Hf Hi Hb He. unfold coherent.
  rewrite Hi, Hb, He. split; [done|]. split; [|split; [|done]].
  - intros i. by rewrite Hf.
  - intros i f. rewrite Hf. apply Hst.
Qed.

Lemma fromJSON_coherent (R : TrackData) :
  tight_record R ->
  exists t,
    Track.fromJSON R = Ok t
    /\ coherent t
    /\ (forall i g,
          arr_get (Track.features t) i = Some g
          <-> exists f, f ∈ present (TrackData.features R)
                        /\ Feature.frame f = i /\ g = force_keyframe f)
    /\ Track.trackId t = TrackData.trackId R
    /\ Track.meta t = default ∅ (TrackData.meta R)
    /\ Track.attributes t = TrackData.attributes R
    /\ Track.confidencePairs t = TrackData.confidencePairs R
    /\ Track.begin t = TrackData.begin R
    /\ Track.end_ t = TrackData.end_ R
    /\ Track.revision t = 1
    /\ Track.notifier t = false
    /\ Track.emitted t = [].
Proof.
  intros (Hnd & Hall & Hbe). rewrite Forall_forall in Hall.
  assert (loadable (TrackData.features R)) as Hl.
  { split; [done|]. apply Forall_forall. intros f Hf.
    destruct (Hall f Hf) as [Hk Hb].
    rewrite (default_keyframe_force f Hk).
    by apply keyframe_with_bounds_consistent. }
  eexists. split; [by apply fromJSON_ok|].
  set (sf := Track.sparseFeatures (TrackData.features R)).
  assert (Hlook : forall i g,
            arr_get sf i = Some g
            <-> exists f, f ∈ present (TrackData.features R)
                          /\ Feature.frame f = i /\ g = force_keyframe f).
  { intros i g. subst sf. rewrite (sparseFeatures_lookup _ _ _ Hnd).
    split; intros (f & Hf & Hfi & ->); exists f;
      (split; [done|]); (split; [done|]);
      destruct (Hall f Hf) as [Hk _]; by rewrite (default_keyframe_force f Hk). }
  assert (Hidx0 : indexed_from 0 sf) by (by apply sparseFeatures_indexed).
  assert (Hkey : keyframes_of (present sf) = Feature.frame <$> present sf).
  { unfold keyframes_of. f_equal. apply filter_all, Forall_forall.
    intros g Hg. apply elem_of_present in Hg as [i Hi].
    apply Hlook in Hi as (f & _ & _ & ->). done. }
  assert (Hmem : forall i, i ∈ Feature.frame <$> present sf
                           <-> is_Some (arr_get sf i)).
  { intros i. rewrite list_elem_of_fmap. split.
    - intros (g & -> & Hg). apply elem_of_present in Hg as [j Hj].
      pose proof Hj as Hj'. apply arr_get_Some in Hj'.
      rewrite (Hidx0 _ _ Hj'). simpl. eauto.
    - intros [g Hg]. exists g. split.
      + apply arr_get_Some in Hg. by rewrite (Hidx0 _ _ Hg).
      + apply elem_of_present. eauto. }
  split; [|split; [exact Hlook|by repeat split]].
  unfold coherent. cbn [Track.featureIndex Track.features Track.begin Track.end_].
  fold sf. rewrite Hkey.
  split; [by apply (present_frames_sorted 0)|]. split; [done|]. split.
  - intros i g Hg. apply Hlook in Hg as (f & Hf & Hfi & ->).
    destruct (Hall f Hf) as [_ Hb]. done.
  - intros Hne.
    assert (Hfr : forall i, i ∈ Feature.frame <$> present sf
                    <-> i ∈ Feature.frame <$> present (TrackData.features R)).
    { intros i. rewrite Hmem, list_elem_of_fmap. split.
      - intros [g Hg]. apply Hlook in Hg as (f & Hf & Hfi & _). eauto.
      - intros (f & -> & Hf). exists (force_keyframe f). apply Hlook. eauto. }
    destruct Hbe as (b & e & Hb & He & Hbi & Hei & Hle).
    { intros Hnil. destruct (nonempty_elem _ Hne) as [i Hi].
      apply Hfr in Hi. rewrite Hnil in Hi. by apply elem_of_nil in Hi. }
    exists b, e. split; [done|]. split; [done|].
    split; [by apply Hfr|]. split; [by apply Hfr|].
    intros i Hi. apply Hle. by apply Hfr.
Qed.

Lemma serialize_tight (s : Track) : coherent s -> tight_record (Track.serialize s).
Proof.
  intros Hc. pose proof Hc as (Hs & Hix & Hst & Hbe).
  unfold tight_record, Track.serialize, Track.condenseFeatures. simpl.
  rewrite present_Some.
  assert (indexed_from 0 (Track.features s)) as Hidx.
  { intros i g Hg. apply arr_get_Some in Hg. by apply Hst in Hg as [-> _]. }
  assert (Hmem : forall i, i ∈ Feature.frame <$> present (Track.features s)
                           <-> i ∈ Track.featureIndex s).
  { intros i. rewrite Hix, list_elem_of_fmap. split.
    - intros (g & -> & Hg). apply elem_of_present in Hg as [j Hj].
      destruct (Hst _ _ Hj) as [-> _]. eauto.
    - intros [g Hg]. exists g. destruct (Hst _ _ Hg) as [-> _].
      split; [done|]. apply elem_of_present. eauto. }
  split; [by apply (present_frames_NoDup 0)|]. split.
  - apply Forall_forall. intros g Hg. apply elem_of_present in Hg as [j Hj].
    destruct (Hst _ _ Hj) as (_ & Hk & Hb). split; [by rewrite Hk|done].
  - intros Hne. destruct Hbe as (b & e & Hb & He & Hbi & Hei & Hle).
    { intros Hnil. destruct (nonempty_elem _ Hne) as [g Hg].
      assert (Feature.frame g ∈ Track.featureIndex s) as Hi.
      { apply Hmem, list_elem_of_fmap. eauto. }
      rewrite Hnil in Hi. by apply elem_of_nil in Hi. }
    exists b, e. split; [done|]. split; [done|].
    split; [by apply Hmem|]. split; [by apply Hmem|].
    intros i Hi. apply Hle. by apply Hmem.
Qed.

(** X10.  [serialize] and then [fromJSON] give a coherent track back as it
    was: the same stored features, index, bounds, id, meta, attributes and
    confidence pairs.  Only the change log starts again: [revision] is 1
    and no notifier is installed. *)
Theorem fromJSON_serialize_round_trip (s : Track) :
  coherent s ->
  exists t,
    Track.fromJSON (Track.serialize s) = Ok t
    /\ coherent t
    /\ (forall i, arr_get (Track.features t) i = arr_get (Track.features s) i)
    /\ Track.featureIndex t = Track.featureIndex s
    /\ Track.begin t = Track.begin s
    /\ Track.end_ t = Track.end_ s
    /\ Track.trackId t = Track.trackId s
    /\ Track.meta t = Track.meta s
    /\ Track.attributes t = Track.attributes s
    /\ Track.confidencePairs t = Track.confidencePairs s
    /\ Track.revision t = 1
    /\ Track.notifier t = false
    /\ Track.emitted t = [].
Proof.
  intros Hc. pose proof Hc as (Hs & Hix & Hst & Hbe).
  destruct (fromJSON_coherent _ (serialize_tight s Hc))
    as (t & Hrun & Hct & Hlook & Hid & Hm & Ha & Hp & Hb & He & Hr & Hn & Hem).
  exists t. split; [done|]. split; [done|].
  assert (Hf : forall i, arr_get (Track.features t) i = arr_get (Track.features s) i).
  { intros i. apply option_eq_Some. intros g. rewrite Hlook.
    unfold Track.serialize, Track.condenseFeatures. simpl. rewrite present_Some.
    split.
    - intros (f & Hf & Hfi & ->). apply elem_of_present in Hf as [j Hj].
      destruct (Hst _ _ Hj) as (Hfj & Hk & _). rewrite <- Hfi, Hfj, Hj. f_equal.
      destruct f. simpl in Hk. by rewrite Hk.
    - intros Hg. exists g. destruct (Hst _ _ Hg) as (Hfj & Hk & _).
      split; [apply elem_of_present; eauto|]. split; [done|].
      destruct g. simpl in Hk. by rewrite Hk. }
  split; [done|]. split; [|by repeat split].
  destruct Hct as (Hst' & Hix' & _). apply sorted_ext; [done|done|].
  intros i. by rewrite Hix, Hix', Hf.
Qed.

(** *** Rounding *)

Lemma Math_round_inject_Z (z : Z) : Math_round (inject_Z z) = inject_Z z.
Proof.
  unfold Math_round. f_equal.
  assert (Qfloor (inject_Z z + (1 # 2)) <= z)%Z.
  { apply Z.lt_succ_r. rewrite Zlt_Qlt.
    eapply Qle_lt_trans; [apply Qfloor_le|].
    unfold Z.succ. rewrite inject_Z_plus.
    apply Qplus_lt_r. reflexivity. }
  assert (z <= Qfloor (inject_Z z + (1 # 2)))%Z.
  { rewrite <- (Qfloor_Z z) at 1. apply Qfloor_resp_le.
    rewrite <- (Qplus_0_r (inject_Z z)) at 1. apply Qplus_le_r. discriminate. }
  lia.
Qed.

Lemma Math_round_idem (x : Q) : Math_round (Math_round x) = Math_round x.
Proof. unfold Math_round at 2 3. apply Math_round_inject_Z. Qed.

Lemma round_bounds_idem (b : RectBounds) : round_bounds (round_bounds b) = round_bounds b.
Proof.
  destruct b as [[[x1 y1] x2] y2]. unfold round_bounds.
  by rewrite !Math_round_idem.
Qed.

Lemma over_same {A} (o : option A) : Feature.over o o = o.
Proof. by destruct o. Qed.

Lemma spread_same (x : Feature) : Feature.spread x x = x.
Proof.
  destruct x. unfold Feature.spread.
  cbn [Feature.frame Feature.flick Feature.interpolate Feature.keyframe
       Feature.bounds Feature.geometry Feature.fishLength Feature.attributes
       Feature.head Feature.tail].
  by rewrite !over_same.
Qed.

(** Setting a feature onto itself changes nothing once its box is rounded. *)
Lemma respread (x : Feature) :
  (forall b, Feature.bounds x = Some b -> round_bounds b = b) ->
  Track.with_patched_geometry (Track.merged_feature (Some x) x) [] = x.
Proof.
  intros Hb.
  unfold Track.merged_feature, Track.with_patched_geometry, Track.patched_geometry.
  cbn [Feature.spread_onto]. rewrite spread_same.
  destruct x as [fr fl ip kf [b|] [g|] fi at_ hd tl]; cbn in *;
    rewrite ?(Hb _ eq_refl); done.
Qed.

(** *** Geometry *)

Lemma remove_first_filter {A} (p : A -> bool) (l : list A) :
  match Track.remove_first p l with
  | Some l' => List.filter p l <> [] /\ List.filter p l' = tail (List.filter p l)
  | None => List.filter p l = []
  end.
Proof.
  induction l as [|x l IH]; simpl; [done|].
  destruct (p x) eqn:E; [done|].
  destruct (Track.remove_first p l) as [l'|]; simpl; [|done].
  by rewrite E.
Qed.

Lemma geo_patch_elem (fg : list GeoFeature) (geo : GeoFeature) :
  geo ∈ geo_patch fg geo.
Proof.
  induction fg as [|item fg IH]; simpl; [left|].
  destruct (geo_matches geo item); [left|by right].
Qed.

Lemma geo_patch_length (fg : list GeoFeature) (geo : GeoFeature) :
  0 < List.length (geo_patch fg geo).
Proof.
  destruct fg as [|item fg]; simpl; [lia|].
  destruct (geo_matches geo item); simpl; lia.
Qed.

Lemma GeoType_eqb_refl (t : GeoType) : GeoType_eqb t t = true.
Proof. by destruct t. Qed.

Lemma geo_selected_self (geo : GeoFeature) :
  Track.geo_selected (geo_key geo) (Some (geo_type geo)) geo = true.
Proof.
  unfold Track.geo_selected. rewrite GeoType_eqb_refl, andb_true_r.
  destruct (geo_key geo) as [k|]; simpl; [|done].
  rewrite String.eqb_refl. apply orb_true_r.
Qed.

(** *** Stepping through the keyframes *)

Lemma gotoNext_spec (s : Track) (f p : nat) :
  frames_stored s ->
  TrackItem.gotoNext s f = Some p <-> next_keyframe s (S f) p.
Proof.
  intros Hs. unfold TrackItem.gotoNext. rewrite of_frame_succ.
  by apply getNextKeyframe_Some.
Qed.

Lemma gotoPrevious_spec (s : Track) (f p : nat) :
  frames_stored s ->
  TrackItem.gotoPrevious s f = Some p <-> 0 < f /\ previous_keyframe s (f - 1) p.
Proof.
  intros Hs. unfold TrackItem.gotoPrevious. destruct f as [|f].
  - split; [|intros [? _]; lia]. unfold Track.getPreviousKeyframe, slice.
    simpl. done.
  - rewrite of_frame_pred by lia.
    rewrite (getPreviousKeyframe_Some s _ p Hs). split; [|by intros [_ ?]].
    intros H. split; [lia|done].
Qed.

(** *** The type list *)

Lemma difference_elem (a b : list string) (x : string) :
  x ∈ TypeList.difference a b <-> x ∈ a /\ x ∉ b.
Proof.
  unfold TypeList.difference. rewrite list_elem_of_In, filter_In,
    <- list_elem_of_In, negb_true_iff, bool_decide_eq_false. done.
Qed.

Lemma uniq_from_elem (seen l : list string) (x : string) :
  x ∈ TypeList.uniq_from seen l <-> x ∈ l /\ x ∉ seen.
Proof.
  revert seen. induction l as [|y l IH]; intros seen; simpl.
  - split; [by intros ?%elem_of_nil|by intros [?%elem_of_nil _]].
  - case_bool_decide as Hy.
    + rewrite IH, elem_of_cons. split; [intros [? ?]; eauto|].
      intros [[->|?] ?]; done.
    + rewrite !elem_of_cons, IH, not_elem_of_cons.
      split.
      * intros [->|[? [? ?]]]; eauto.
      * intros [[->|?] ?]; [by left|].
        destruct (decide (x = y)) as [->|]; [by left|right; done].
Qed.

Lemma union_elem (a b : list string) (x : string) :
  x ∈ TypeList.union a b <-> x ∈ a \/ x ∈ b.
Proof.
  unfold TypeList.union. rewrite uniq_from_elem, elem_of_app.
  split; [by intros [? _]|]. intros H. split; [done|apply not_elem_of_nil].
Qed.

Lemma difference_nil (a b : list string) :
  (forall x, x ∈ a -> x ∈ b) -> TypeList.difference a b = [].
Proof.
  intros H. destruct (TypeList.difference a b) as [|x l] eqn:E; [done|].
  assert (x ∈ TypeList.difference a b) as Hx by (rewrite E; left).
  apply difference_elem in Hx as [Hx Hn]. by apply H in Hx.
Qed.

Lemma difference_all (a b : list string) :
  (forall x, x ∈ a -> x ∉ b) -> TypeList.difference a b = a.
Proof.
  intros H. unfold TypeList.difference. apply filter_all, Forall_forall.
  intros x Hx. rewrite negb_true_iff, bool_decide_eq_false. by apply H.
Qed.

Lemma count_step_Throw (fts : list TypeList.FilteredTrack) (e : Error) :
  fold_left TypeList.count_step fts (Throw e) = Throw e.
Proof. induction fts as [|ft fts IH]; simpl; done. Qed.

(** ** Properties of coherent tracks *)

(** X1.  On a coherent track [getFeature(f)] always returns, never the
    "bounds mis-aligned" error: a feature stored at [f] comes back three
    times; otherwise the neighbours that come back are stored keyframes,
    and a first component that is there is an interpolated feature on
    frame [f], not a keyframe, between two stored keyframes of which the
    earlier one interpolates. *)
Theorem getFeature_returns_on_coherent (s : Track) (f : nat) :
  coherent s ->
  exists real lower upper,
    Track.getFeature s f = Ok (real, lower, upper)
    /\ (forall x, arr_get (Track.features s) f = Some x ->
                  real = Some x /\ lower = Some x /\ upper = Some x)
    /\ (forall l, lower = Some l ->
                  arr_get (Track.features s) (Feature.frame l) = Some l)
    /\ (forall u, upper = Some u ->
                  arr_get (Track.features s) (Feature.frame u) = Some u)
    /\ (arr_get (Track.features s) f = None ->
        forall r, real = Some r ->
          Feature.frame r = f
          /\ Feature.keyframe r = Some false
          /\ Feature.interpolate r = Some true
          /\ is_Some (Feature.bounds r)
          /\ exists l u,
               lower = Some l /\ upper = Some u
               /\ truthy (Feature.interpolate l) = true
               /\ Feature.frame l < f < Feature.frame u).
Proof.
  intros Hc. pose proof Hc as (_ & _ & Hst & _).
  pose proof (getFeature_coherent s f Hc) as H.
  destruct (arr_get (Track.features s) f) as [x|] eqn:Ef.
  - destruct (Hst _ _ Ef) as [Hfx _].
    exists (Some x), (Some x), (Some x). split; [done|].
    split; [by intros ? [= <-]|]. split; [intros ? [= <-]; by rewrite Hfx|].
    split; [intros ? [= <-]; by rewrite Hfx|]. done.
  - destruct H as [[_ H]|[(b & x & _ & _ & Hx & H)|[(e & x & _ & _ & Hx & H)
      |(d0 & d1 & a & c & r & _ & _ & Hlt & Ha & Hcc & H & Hr)]]].
    + exists None, None, None. by repeat split.
    + destruct (Hst _ _ Hx) as [Hfx _].
      exists None, (Some x), None. split; [done|]. split; [done|].
      split; [intros ? [= <-]; by rewrite Hfx|]. done.
    + destruct (Hst _ _ Hx) as [Hfx _].
      exists None, None, (Some x). split; [done|]. split; [done|].
      split; [done|]. split; [intros ? [= <-]; by rewrite Hfx|]. done.
    + destruct (Hst _ _ Ha) as [Hfa _]. destruct (Hst _ _ Hcc) as [Hfc _].
      exists r, (Some a), (Some c). split; [done|]. split; [done|].
      split; [intros ? [= <-]; by rewrite Hfa|].
      split; [intros ? [= <-]; by rewrite Hfc|].
      intros _ r' ->. destruct Hr as [[_ [=]]|[Hi [bx [= ->]]]]. simpl.
      split; [done|]. split; [done|]. split; [done|]. split; [eauto|].
      exists a, c. rewrite Hfa, Hfc. done.
Qed.

Lemma getFeature_returns_on_coherent_witness :
  exists real lower upper,
    Track.getFeature track_1_5_10 3 = Ok (real, lower, upper)
    /\ (forall l, lower = Some l ->
                  arr_get (Track.features track_1_5_10) (Feature.frame l) = Some l).
Proof.
  destruct (getFeature_returns_on_coherent track_1_5_10 3)
    as (real & lower & upper & H & _ & Hl & _).
  - apply coherentb_sound. vm_compute. reflexivity.
  - exists real, lower, upper. split; [exact H | exact Hl].
Defined.

Lemma same_apart_from_geometry_eq (o o' : option Feature) :
  o' = o -> same_apart_from_geometry o o'.
Proof. by intros ->. Qed.

(** X2.  [setFeature] keeps an initialized track coherent.  For a keyframe
    with a box on a free frame, or an update of a stored keyframe that does
    not unset [keyframe], it returns the stored entry, the track is
    coherent afterwards, the frame is in the index, and the bounds stay
    when the frame lies within them.  Every other frame holds what it held,
    apart from its geometry collection (the patches are written into the
    collection of the frame, which another frame can hold too); without
    patches every other frame is as it was. *)
Theorem setFeature_keeps_coherent
    (fb : Feature) (geom : list GeoFeature) (s : Track) :
  coherent s -> initialized s -> settable s fb ->
  exists x s',
    Track.setFeature fb geom s = (Ok x, s')
    /\ coherent s' /\ initialized s'
    /\ arr_get (Track.features s') (Feature.frame fb) = Some x
    /\ (forall j, j <> Feature.frame fb ->
                  same_apart_from_geometry (arr_get (Track.features s) j)
                                           (arr_get (Track.features s') j))
    /\ (geom = [] ->
        forall j, j <> Feature.frame fb ->
                  arr_get (Track.features s') j = arr_get (Track.features s) j)
    /\ (forall i, i ∈ Track.featureIndex s'
                  <-> i = Feature.frame fb \/ i ∈ Track.featureIndex s)
    /\ (bounds_contain (Track.begin s) (Track.end_ s) (Feature.frame fb) ->
        Track.begin s' = Track.begin s /\ Track.end_ s' = Track.end_ s).
Proof.
  intros Hc Hinit Hset.
  destruct (setFeature_coherent fb geom s Hc Hinit Hset)
    as (x & s' & Hrun & _ & Hc' & Hinit' & Hf & Hi & Hb).
  exists x, s'. split; [done|]. split; [done|]. split; [done|].
  split; [by rewrite Hf, decide_True|].
  split; [intros j Hj; apply same_apart_from_geometry_eq;
          by rewrite Hf, decide_False|].
  split; [intros _ j Hj; by rewrite Hf, decide_False|].
  split; [|done]. intros i. rewrite Hi.
  destruct Hc as (Hs & _). by apply listInsert_spec.
Qed.

Lemma setFeature_keeps_coherent_witness :
  exists x s',
    Track.setFeature (keyframe_at 7 false (1, 1, 3, 3)%Q) [] track_1_5_10 = (Ok x, s')
    /\ coherent s'
    /\ Track.begin s' = Track.begin track_1_5_10.
Proof.
  destruct (setFeature_keeps_coherent (keyframe_at 7 false (1, 1, 3, 3)%Q) []
              track_1_5_10)
    as (x & s' & Hrun & Hc & _ & _ & _ & _ & _ & Hb).
  - apply coherentb_sound. vm_compute. reflexivity.
  - discriminate.
  - vm_compute. split; [reflexivity|]. exists (1, 1, 3, 3)%Q. reflexivity.
  - exists x, s'. split; [exact Hrun|]. split; [exact Hc|].
    apply Hb. split; reflexivity.
Defined.

(** X3.  [deleteFeature] keeps a track coherent: it returns, the frame is
    free and out of the index afterwards, every other frame is as before,
    and [begin] and [end] have moved to the first and the last keyframe
    left. *)
Theorem deleteFeature_keeps_coherent (g : nat) (s : Track) :
  coherent s ->
  exists s',
    Track.deleteFeature g s = (Ok tt, s')
    /\ coherent s'
    /\ arr_get (Track.features s') g = None
    /\ (forall j, j <> g ->
                  arr_get (Track.features s') j = arr_get (Track.features s) j)
    /\ (forall i, i ∈ Track.featureIndex s'
                  <-> i ∈ Track.featureIndex s /\ i <> g).
Proof.
  intros Hc.
  destruct (deleteFeature_coherent g s Hc) as (s' & Hrun & Hc' & Hf & Hi).
  exists s'. split; [done|]. split; [done|].
  split; [by rewrite Hf, decide_True|].
  split; [intros j Hj; by rewrite Hf, decide_False|done].
Qed.

Lemma deleteFeature_keeps_coherent_witness :
  exists s',
    Track.deleteFeature 1 track_1_5_10 = (Ok tt, s')
    /\ coherent s'
    /\ arr_get (Track.features s') 1 = None.
Proof.
  destruct (deleteFeature_keeps_coherent 1 track_1_5_10)
    as (s' & Hrun & Hc & Hf & _).
  - apply coherentb_sound. vm_compute. reflexivity.
  - exists s'. split; [exact Hrun|]. split; [exact Hc | exact Hf].
Defined.




(** X5.  [toggleKeyframe(f)] on a coherent track leaves a coherent track,
    and the only error is the one for the only keyframe, which changes
    nothing.  When it returns, a keyframe that was stored at [f] is gone;
    on a free frame a keyframe appears exactly when the track is
    initialized and [f] lies outside the bounds or [getFeature(f)]
    interpolates.  In a gap without interpolation nothing happens. *)
Theorem toggleKeyframe_on_coherent (f : nat) (s : Track) :
  coherent s ->
  exists r s',
    Track.toggleKeyframe f s = (r, s')
    /\ coherent s'
    /\ (r = Ok tt \/ (r = Throw OnlyKeyframe /\ s' = s))
    /\ (r = Ok tt -> is_Some (arr_get (Track.features s) f) ->
        arr_get (Track.features s') f = None)
    /\ (arr_get (Track.features s) f = None ->
        (is_Some (arr_get (Track.features s') f)
         <-> initialized s
             /\ (~ bounds_contain (Track.begin s) (Track.end_ s) f
                 \/ exists x l u, Track.getFeature s f = Ok (Some x, l, u)))).
Proof.
  intros Hc.
  destruct (toggleKeyframe_cases f s Hc) as (r & s' & Hrun & Hc' & H).
  exists r, s'. split; [done|]. split; [done|].
  destruct H as [(-> & -> & _ & _ & Hsome)
                |[(-> & Hsome & Hnone)
                 |[(-> & -> & Hnone & H)
                  |(-> & Hnone & Hinit & x & y & Hy & _ & H)]]].
  - split; [by right|]. split; [done|]. intros Hn. rewrite Hn in Hsome.
    by destruct Hsome.
  - split; [by left|]. split; [done|]. intros Hn. rewrite Hn in Hsome.
    by destruct Hsome.
  - split; [by left|]. split; [by intros _ [? ?]; congruence|]. intros _.
    rewrite Hnone. split; [by intros [? ?]|]. intros [Hinit Hcase]. exfalso.
    destruct H as [Hnil|[Hin (l & u & Hg)]]; [done|].
    destruct Hcase as [Hout|(x & l' & u' & Hg')]; [done|congruence].
  - split; [by left|]. split; [intros _ [? ?]; congruence|]. intros _.
    rewrite Hy. split; [|eauto]. intros _. split; [done|].
    destruct H as [(b & Hb & Hlt & _)|[(e & He & Hlt & _)|(l & u & Hg)]].
    + left. intros [H1 _]. rewrite Hb in H1. apply num_leb_of_frame in H1. lia.
    + left. intros [_ H1]. rewrite He in H1. apply num_leb_of_frame in H1. lia.
    + right. eauto.
Qed.

Lemma toggleKeyframe_on_coherent_witness :
  exists r s',
    Track.toggleKeyframe 5 track_1_5_10 = (r, s')
    /\ coherent s'
    /\ (r = Ok tt \/ (r = Throw OnlyKeyframe /\ s' = track_1_5_10)).
Proof.
  destruct (toggleKeyframe_on_coherent 5 track_1_5_10)
    as (r & s' & Hrun & Hc & Hr & _).
  - apply coherentb_sound. vm_compute. reflexivity.
  - exists r, s'. split; [exact Hrun|]. split; [exact Hc | exact Hr].
Defined.

Lemma TrackItem_toggleKeyframe_never_throws_witness :
  exists s', TrackItem.toggleKeyframe 4 track_A_5 = (Ok tt, s') /\ coherent s'.
Proof.
  apply (TrackItem_toggleKeyframe_never_throws 4 track_A_5).
  apply coherentb_sound. vm_compute. reflexivity.
Defined.

Lemma toggleInterpolation_flips_flag_witness :
  exists real lower upper flag s' real' lower' upper',
    Track.canInterpolate track_1_5_10 7 = Ok (real, lower, upper, flag)
    /\ Track.toggleInterpolation 7 track_1_5_10 = (Ok tt, s')
    /\ Track.canInterpolate s' 7 = Ok (real', lower', upper', negb flag).
Proof.
  destruct (toggleInterpolation_flips_flag 7 track_1_5_10)
    as (real & lower & upper & flag & s' & real' & lower' & upper'
        & H1 & H2 & _ & _ & _ & _ & H3).
  - apply coherentb_sound. vm_compute. reflexivity.
  - discriminate.
  - exists real, lower, upper, flag, s', real', lower', upper'.
    split; [exact H1|]. split; [exact H2 | exact H3].
Defined.

Lemma merge_keeps_coherent_witness :
  exists s',
    Track.merge [track_B_5_7; track_1_5_10] track_A_5 = (Ok tt, s')
    /\ coherent s'.
Proof.
  destruct (merge_keeps_coherent [track_B_5_7; track_1_5_10] track_A_5)
    as (s' & Hrun & Hc & _).
  - apply coherentb_sound. vm_compute. reflexivity.
  - discriminate.
  - apply Forall_cons_2; [apply coherentb_sound; vm_compute; reflexivity|].
    apply Forall_cons_2; [apply coherentb_sound; vm_compute; reflexivity|].
    apply Forall_nil_2.
  - exists s'. split; [exact Hrun | exact Hc].
Defined.

(** X9.  [fromJSON] turns a record with distinct frames, whose features
    all carry a box and none is marked [keyframe: false], and whose [begin]
    and [end] are the first and the last frame, into a coherent track that
    stores every feature of the record at its frame, as a keyframe. *)
Theorem fromJSON_tight_record_coherent (R : TrackData) :
  tight_record R ->
  exists t,
    Track.fromJSON R = Ok t
    /\ coherent t
    /\ (forall i g,
          arr_get (Track.features t) i = Some g
          <-> exists f, f ∈ present (TrackData.features R)
                        /\ Feature.frame f = i /\ g = force_keyframe f)
    /\ Track.begin t = TrackData.begin R
    /\ Track.end_ t = TrackData.end_ R.
Proof.
  intros H. destruct (fromJSON_coherent R H)
    as (t & Hrun & Hc & Hl & _ & _ & _ & _ & Hb & He & _).
  exists t. done.
Qed.

Lemma record_1_5_10_tight : tight_record record_1_5_10.
Proof.
  split; [|split].
  - cbn. repeat (apply NoDup_cons; split;
                 [rewrite ?elem_of_cons, ?elem_of_nil; lia|]).
    apply NoDup_nil_2.
  - repeat constructor; try discriminate; eauto.
  - intros _. exists 1, 10. split; [done|]. split; [done|]. cbn.
    split; [rewrite !elem_of_cons; lia|]. split; [rewrite !elem_of_cons; lia|].
    intros i. rewrite !elem_of_cons, elem_of_nil. lia.
Qed.

Lemma fromJSON_tight_record_coherent_witness :
  exists t, Track.fromJSON record_1_5_10 = Ok t /\ coherent t.
Proof.
  destruct (fromJSON_tight_record_coherent record_1_5_10 record_1_5_10_tight)
    as (t & Hrun & Hc & _).
  exists t. split; [exact Hrun | exact Hc].
Defined.

Lemma fromJSON_serialize_round_trip_witness :
  exists t,
    Track.fromJSON (Track.serialize track_1_5_10) = Ok t
    /\ Track.featureIndex t = [1; 5; 10].
Proof.
  destruct (fromJSON_serialize_round_trip track_1_5_10)
    as (t & Hrun & _ & _ & Hi & _).
  - apply coherentb_sound. vm_compute. reflexivity.
  - exists t. split; [exact Hrun | exact Hi].
Defined.

(** X11.  Where a record has several features on one frame, the track
    [fromJSON] builds holds the last of them (with [keyframe] defaulted);
    a frame no feature names is free. *)
Theorem fromJSON_last_duplicate_wins (R : TrackData) (t : Track) (i : nat) :
  Track.fromJSON R = Ok t ->
  arr_get (Track.features t) i
  = Track.default_keyframe
      <$> last (List.filter (fun f => Feature.frame f =? i)
                            (present (TrackData.features R))).
Proof.
  intros H. unfold Track.fromJSON in H.
  apply construct_features in H as (-> & _). simpl.
  unfold Track.sparseFeatures. change (fun acc f => arr_set acc (Feature.frame f)
    (Track.default_keyframe f)) with place.
  rewrite fold_place_last. by destruct (last _).
Qed.

Lemma fromJSON_last_duplicate_wins_witness :
  exists t,
    Track.fromJSON
      (record_of [keyframe_at 2 false (0, 0, 1, 1)%Q;
                  keyframe_at 2 true (5, 5, 6, 6)%Q] 2 2) = Ok t
    /\ arr_get (Track.features t) 2 = Some (keyframe_at 2 true (5, 5, 6, 6)%Q).
Proof.
  eexists. split; [reflexivity|].
  rewrite (fromJSON_last_duplicate_wins
             (record_of [keyframe_at 2 false (0, 0, 1, 1)%Q;
                         keyframe_at 2 true (5, 5, 6, 6)%Q] 2 2) _ 2 eq_refl).
  reflexivity.
Defined.

(** X12.  What the constructor checks, and no more: it accepts a feature
    array exactly when the first feature that is there sits at the
    position of its own [frame] and [keyframe] and [bounds] agree on every
    feature.  Features after the first may sit anywhere. *)
Theorem constructor_accepts_iff (id : Z) (p : TrackParams) :
  let fs := default [] (TrackParams.features p) in
  (exists t, Track.construct id p = Ok t)
  <-> (forall i f, fs !! i = Some (Some f) ->
                   (forall j, j < i -> fs !! j = Some None) ->
                   Feature.frame f = i)
      /\ Forall consistent (present fs).
Proof.
  intros fs. unfold Track.construct. fold fs.
  destruct (Track.sanityCheckFeatures fs) as [[]|e] eqn:Es.
  - assert (Hfirst : forall i f, fs !! i = Some (Some f) ->
                       (forall j, j < i -> fs !! j = Some None) ->
                       Feature.frame f = i).
    { intros i f Hi Hb. destruct (decide (Feature.frame f = i)); [done|].
      assert (Track.sanityCheckFeatures fs = Throw SparseArrayExpected) as Ht.
      { apply sanityCheckFeatures_Throw. split; [done|]. eauto. }
      congruence. }
    unfold Track.repopulateInterpolatedFrames.
    destruct (Track.repopulate_go (present fs) []) as [idx|e] eqn:Er.
    + split; [|eauto]. intros _. split; [done|].
      by eapply repopulate_go_consistent.
    + split; [by intros [? ?]|]. intros [_ Hc].
      rewrite (repopulate_go_ok _ _ Hc) in Er. done.
  - split; [by intros [? ?]|]. intros [Hfirst _].
    apply sanityCheckFeatures_Throw in Es as (_ & i & f & Hi & Hb & Hne).
    by apply Hfirst in Hi.
Qed.

(** ** The change log, the labels and the timeline *)

Lemma preserves_snd {A} (P : Track -> Prop) (m : Track.M A) (s : Track) :
  preserves P m -> P s -> P (snd (m s)).
Proof. intros Hm Hs. destruct (m s) as [r s'] eqn:E. by eapply Hm. Qed.

Lemma preserves_removeTypes P types :
  timeline_stable P -> preserves P (Track.removeTypes types).
Proof.
  intros HP. unfold Track.removeTypes.
  apply preserves_bind; [apply preserves_get|]. intros s0.
  apply preserves_bind.
  - destruct (_ <? _); [|apply preserves_ret].
    apply preserves_bind; [|intros; by apply preserves_notify].
    apply preserves_modify. intros s Hs. by apply (HP s).
  - intros _. apply preserves_bind; [apply preserves_get|].
    intros. apply preserves_ret.
Qed.

Lemma same_timeline_stable s0 : timeline_stable (same_timeline s0).
Proof.
  intros s s' (Hf & Hi & Hb & He) (Hf0 & Hi0 & Hb0 & He0).
  unfold same_timeline. by rewrite Hf, Hi, Hb, He.
Qed.

Lemma same_labels_refl s : same_labels s s.
Proof. done. Qed.

(** X13.  No mutation touches [trackId], [meta] or the notifier, lowers
    [revision] or drops a call of the notifier; and while a notifier is
    installed the notifier is called exactly once for each step of
    [revision].  This holds whether the method returns or throws. *)
Theorem mutations_grow_change_log (s : Track) :
  (forall fb geom, grows s (snd (Track.setFeature fb geom s)))
  /\ (forall frame, grows s (snd (Track.deleteFeature frame s)))
  /\ (forall frame, grows s (snd (Track.toggleKeyframe frame s)))
  /\ (forall frame, grows s (snd (Track.toggleInterpolation frame s)))
  /\ (forall frame name value,
        grows s (snd (Track.setFeatureAttribute frame name value s)))
  /\ (forall frame key type,
        grows s (snd (Track.removeFeatureGeometry frame key type s)))
  /\ (forall trackType confidenceVal replace,
        grows s (snd (Track.setType trackType confidenceVal replace s)))
  /\ (forall types, grows s (snd (Track.removeTypes types s)))
  /\ (forall key value, grows s (snd (Track.setAttribute key value s)))
  /\ (forall others, grows s (snd (Track.merge others s))).
Proof.
  pose proof (grows_timeline_blind s) as Ht.
  pose proof (grows_pairs_blind s) as Hp.
  pose proof (grows_attributes_blind s) as Ha.
  pose proof (grows_refl s) as Hr.
  split; [intros; apply preserves_snd; [by apply blind_setFeature|done]|].
  split; [intros; apply preserves_snd; [by apply blind_deleteFeature|done]|].
  split; [intros; apply preserves_snd; [by apply blind_toggleKeyframe|done]|].
  split; [intros; apply preserves_snd; [by apply blind_toggleInterpolation|done]|].
  split; [intros; apply preserves_snd; [by apply blind_setFeatureAttribute|done]|].
  split; [intros; apply preserves_snd; [by apply blind_removeFeatureGeometry|done]|].
  split; [intros; apply preserves_snd; [by apply blind_setType|done]|].
  split; [intros; apply preserves_snd; [by apply blind_removeTypes|done]|].
  split; [intros; apply preserves_snd; [by apply blind_setAttribute|done]|].
  intros; apply preserves_snd; [by apply blind_merge|done].
Qed.

(** X14.  The methods that edit the timeline leave [attributes] and
    [confidencePairs] alone, and the methods that edit the labels leave
    the timeline ([features], [featureIndex], [begin], [end]) alone,
    whether they return or throw. *)
Theorem timeline_and_labels_apart (s : Track) :
  ((forall fb geom, same_labels s (snd (Track.setFeature fb geom s)))
   /\ (forall frame, same_labels s (snd (Track.deleteFeature frame s)))
   /\ (forall frame, same_labels s (snd (Track.toggleKeyframe frame s)))
   /\ (forall frame, same_labels s (snd (Track.toggleInterpolation frame s)))
   /\ (forall frame name value,
         same_labels s (snd (Track.setFeatureAttribute frame name value s)))
   /\ (forall frame key type,
         same_labels s (snd (Track.removeFeatureGeometry frame key type s))))
  /\ ((forall trackType confidenceVal replace,
         same_timeline s (snd (Track.setType trackType confidenceVal replace s)))
      /\ (forall types, same_timeline s (snd (Track.removeTypes types s)))
      /\ (forall key value, same_timeline s (snd (Track.setAttribute key value s)))).
Proof.
  pose proof (same_labels_timeline_blind s) as Ht.
  pose proof (same_labels_refl s) as Hr.
  pose proof (same_timeline_stable s) as Hs.
  pose proof (same_timeline_refl s) as Hr'.
  split.
  - split; [intros; apply preserves_snd; [by apply blind_setFeature|done]|].
    split; [intros; apply preserves_snd; [by apply blind_deleteFeature|done]|].
    split; [intros; apply preserves_snd; [by apply blind_toggleKeyframe|done]|].
    split; [intros; apply preserves_snd; [by apply blind_toggleInterpolation|done]|].
    split; [intros; apply preserves_snd; [by apply blind_setFeatureAttribute|done]|].
    intros; apply preserves_snd; [by apply blind_removeFeatureGeometry|done].
  - split; [intros; apply preserves_snd; [by apply preserves_setType|done]|].
    split; [intros; apply preserves_snd; [by apply preserves_removeTypes|done]|].
    intros; apply preserves_snd; [by apply preserves_setAttribute|done].
Qed.





(** ** Confidence pairs *)

(** X16.  [setType] with a confidence of 1 or more replaces all pairs by
    the single pair of the type with confidence 1, which [getType()] then
    returns; the timeline stays.  The notifier, when the track is
    initialized and one is installed, is handed the list as it was before
    the call. *)
Theorem setType_certain (trackType : string) (confidenceVal : Q)
    (replace : option string) (s : Track) :
  Q_geb confidenceVal 1 = true ->
  exists s',
    Track.setType trackType confidenceVal replace s = (Ok tt, s')
    /\ Track.confidencePairs s' = [(trackType, 1%Q)]
    /\ Track.getType s' 0 = Ok (trackType, 1%Q)
    /\ same_timeline s s'
    /\ Track.emitted s'
       = Track.emitted s
         ++ (if Track.isInitialized s && Track.notifier s
             then [Build_Notification EvConfidencePairs
                     (OldConfidencePairs (Track.confidencePairs s))]
             else []).
Proof.
  intros Hc.
  destruct (setType_run trackType confidenceVal replace s)
    as (s' & Hrun & Hp & _ & Ht & _ & He).
  rewrite Hc in Hp, He. exists s'. split; [done|]. split; [done|].
  split; [|done]. unfold Track.getType. by rewrite Hp.
Qed.

Lemma setType_certain_witness :
  exists s',
    Track.setType "fish" 2 None track_1_5_10 = (Ok tt, s')
    /\ Track.getType s' 0 = Ok ("fish"%string, 1%Q).
Proof.
  destruct (setType_certain "fish" 2 None track_1_5_10 eq_refl)
    as (s' & Hrun & _ & Hg & _).
  exists s'. split; [exact Hrun | exact Hg].
Defined.

(** X17.  [setType] with a confidence below 1 and no [replace] is an
    upsert: afterwards the list is in descending order of confidence and
    holds the new pair together with the old pairs, less the first old
    pair of that type.  [getType()] returns a pair of the highest
    confidence.  The timeline stays, and the notifier is handed the list
    as it is after the call: the list was edited in place. *)
Theorem setType_below_one (trackType : string) (confidenceVal : Q) (s : Track) :
  Q_geb confidenceVal 1 = false ->
  exists s' top,
    Track.setType trackType confidenceVal None s = (Ok tt, s')
    /\ StronglySorted not_below (Track.confidencePairs s')
    /\ Track.confidencePairs s'
       ≡ₚ (trackType, confidenceVal)
          :: match findIndex_name (Track.confidencePairs s) trackType with
             | Some i => delete i (Track.confidencePairs s)
             | None => Track.confidencePairs s
             end
    /\ Track.getType s' 0 = Ok top
    /\ (forall p, p ∈ Track.confidencePairs s' -> (snd p <= snd top)%Q)
    /\ same_timeline s s'
    /\ Track.emitted s'
       = Track.emitted s
         ++ (if Track.isInitialized s && Track.notifier s
             then [Build_Notification EvConfidencePairs
                     (OldConfidencePairs (Track.confidencePairs s'))]
             else []).
Proof.
  intros Hc.
  destruct (setType_run trackType confidenceVal None s)
    as (s' & Hrun & Hp & _ & Ht & _ & He).
  rewrite Hc in Hp, He. cbn [truthy_str] in Hp, He. cbv zeta in Hp, He.
  assert (Hperm : Track.confidencePairs s'
                  ≡ₚ (trackType, confidenceVal)
                     :: match findIndex_name (Track.confidencePairs s) trackType with
                        | Some i => delete i (Track.confidencePairs s)
                        | None => Track.confidencePairs s
                        end).
  { rewrite Hp, sort_desc_perm. apply splice_pair_perm. }
  assert (Hsorted : StronglySorted not_below (Track.confidencePairs s')).
  { rewrite Hp. apply sort_desc_sorted. }
  destruct (Track.confidencePairs s' !! 0) as [top|] eqn:Etop.
  - exists s', top. split; [done|]. split; [done|]. split; [done|].
    split; [unfold Track.getType; by rewrite Etop|].
    split; [by apply sorted_head_top|]. split; [done|]. by rewrite He, Hp.
  - exfalso. apply lookup_ge_None in Etop.
    apply Permutation_length in Hperm. simpl in Hperm. lia.
Qed.

Lemma setType_below_one_witness :
  exists s' top,
    Track.setType "fish" (1 # 2) None track_1_5_10 = (Ok tt, s')
    /\ Track.getType s' 0 = Ok top.
Proof.
  destruct (setType_below_one "fish" (1 # 2) track_1_5_10 eq_refl)
    as (s' & top & Hrun & _ & _ & Hg & _).
  exists s', top. split; [exact Hrun | exact Hg].
Defined.

Lemma removeTypes_run (types : list string) (s : Track) :
  exists s',
    Track.removeTypes types s = (Ok (Track.confidencePairs s'), s')
    /\ Track.confidencePairs s'
       = List.filter (fun '(type, _) => negb (bool_decide (type ∈ types)))
           (Track.confidencePairs s)
    /\ same_timeline s s'
    /\ (Track.confidencePairs s = [] -> s' = s).
Proof.
  unfold Track.removeTypes.
  unfold Track.bind at 1. unfold Track.get at 1.
  destruct (0 <? List.length (Track.confidencePairs s)) eqn:El.
  - unfold Track.bind, Track.modify, Track.get.
    match goal with
    | |- context [Track.notify ?a ?b ?c] =>
        destruct (notify_run a b c) as (s' & -> & Ht & [Ha Hp] & _)
    end.
    exists s'. split; [done|]. rewrite Hp. simpl. split; [done|].
    split; [done|]. intros E. rewrite E in El. done.
  - exists s. unfold Track.bind, Track.ret, Track.get.
    split; [done|]. apply Nat.ltb_ge in El.
    destruct (Track.confidencePairs s); [|simpl in El; lia].
    split; [done|]. split; [apply same_timeline_refl|done].
Qed.

Lemma sorted_sublist {A} (R : relation A) (l' l : list A) :
  sublist l' l -> StronglySorted R l -> StronglySorted R l'.
Proof.
  induction 1 as [|x l1 l2 Hsub IH|x l1 l2 Hsub IH]; intros Hs; [done| |].
  - apply StronglySorted_inv in Hs as [Hs Hx]. constructor; [by apply IH|].
    rewrite Forall_forall in *. intros y Hy. apply Hx.
    by eapply elem_of_sublist.
  - apply StronglySorted_inv in Hs as [Hs _]. by apply IH.
Qed.

(** X18.  [removeTypes] returns, and stores, the pairs whose type is not
    listed, in their old order; a list in descending order stays so.  The
    timeline stays, and on a track without pairs nothing happens at all:
    the notifier is not called. *)
Theorem removeTypes_filters (types : list string) (s : Track) :
  exists s',
    Track.removeTypes types s = (Ok (Track.confidencePairs s'), s')
    /\ (forall p, p ∈ Track.confidencePairs s'
                  <-> p ∈ Track.confidencePairs s /\ fst p ∉ types)
    /\ sublist (Track.confidencePairs s') (Track.confidencePairs s)
    /\ (StronglySorted not_below (Track.confidencePairs s) ->
        StronglySorted not_below (Track.confidencePairs s'))
    /\ same_timeline s s'
    /\ (Track.confidencePairs s = [] -> s' = s).
Proof.
  destruct (removeTypes_run types s) as (s' & Hrun & Hp & Ht & Hnil).
  exists s'. split; [done|].
  assert (Hsub : sublist (Track.confidencePairs s') (Track.confidencePairs s)).
  { rewrite Hp. generalize (Track.confidencePairs s). intros l.
    induction l as [|[a v] l IH]; simpl; [done|].
    destruct (negb _); by constructor. }
  split; [|split; [done|split; [|done]]].
  - intros [a v]. rewrite Hp, list_elem_of_In, filter_In, <- list_elem_of_In.
    rewrite negb_true_iff, bool_decide_eq_false. done.
  - intros Hs. by eapply sorted_sublist.
Qed.

Lemma find_name_label (l : list ConfidencePair) (n : string) (m : ConfidencePair) :
  find_name l n = Some m -> fst m = n /\ m ∈ l.
Proof.
  unfold find_name. intros H. apply find_some in H as [Hin Hm].
  destruct m as [a v]. apply String.eqb_eq in Hm. split; [done|].
  by apply list_elem_of_In.
Qed.

(** X19.  After one confidence pair [(n, v)] of another track is merged,
    the track has a pair for [n] whose confidence is at least [v], or at
    least 1 where [v] is above 1; and where the own confidence for [n] was
    already [v] or more, nothing has changed. *)
Theorem merge_pair_at_least (n : string) (v : Q) (s : Track) :
  exists s' q,
    Track.merge_pair (n, v) s = (Ok tt, s')
    /\ find_name (Track.confidencePairs s') n = Some (n, q)
    /\ (capped v <= q)%Q
    /\ (forall m, find_name (Track.confidencePairs s) n = Some m ->
                  (v <= snd m)%Q -> s' = s).
Proof.
  unfold Track.merge_pair. unfold Track.bind at 1. unfold Track.get at 1.
  cbn [fst snd].
  assert (Hset : exists s' q,
            Track.setType n v None s = (Ok tt, s')
            /\ find_name (Track.confidencePairs s') n = Some (n, q)
            /\ (capped v <= q)%Q).
  { unfold capped. destruct (Q_geb v 1) eqn:Ev.
    - destruct (setType_run n v None s) as (s' & Hrun & Hp & _).
      rewrite Ev in Hp. exists s', 1%Q. split; [done|]. rewrite Hp.
      unfold find_name. simpl. rewrite String.eqb_refl.
      split; [done|apply Qle_refl].
    - destruct (setType_run n v None s) as (s' & Hrun & Hp & _).
      rewrite Ev in Hp. cbn [truthy_str] in Hp. cbv zeta in Hp.
      destruct (find_name_sorted (Track.confidencePairs s') n v) as (q & Hq & Hle).
      + rewrite Hp. apply sort_desc_sorted.
      + rewrite Hp, sort_desc_perm, splice_pair_perm. left.
      + exists s', q. done. }
  destruct (find_name (Track.confidencePairs s) n) as [m|] eqn:Em.
  - destruct (Q_ltb (snd m) v) eqn:Elt.
    + destruct Hset as (s' & q & Hrun & Hq & Hle). exists s', q.
      split; [done|]. split; [done|]. split; [done|].
      intros m' [= <-] Hv. apply Q_ltb_true in Elt.
      by apply Qlt_not_le in Elt.
    + apply Q_ltb_false in Elt. destruct (find_name_label _ _ _ Em) as [Hn _].
      destruct m as [a w]. simpl in *. subst a.
      exists s, w. split; [done|]. split; [done|]. split; [|done].
      unfold capped. destruct (Q_geb v 1) eqn:Ev; [|done].
      apply Q_geb_true in Ev. by eapply Qle_trans.
  - destruct Hset as (s' & q & Hrun & Hq & Hle). exists s', q. done.
Qed.

Lemma preserves_merge_with P (others : list Track) :
  timeline_blind P -> pairs_blind P ->
  (forall kv, preserves P (Track.merge_attribute kv)) ->
  preserves P (Track.merge others).
Proof.
  intros HP Hp Ha. unfold Track.merge. apply preserves_forEach. intros other.
  unfold Track.merge_other.
  apply preserves_bind;
    [apply preserves_forEach; intros; by apply blind_merge_pair|].
  intros _. apply preserves_bind;
    [apply preserves_forEach; intros; by apply blind_merge_feature|].
  intros _. by apply preserves_forEach.
Qed.

Lemma notify_attributes name old s r s' :
  Track.notify name old s = (r, s') -> Track.attributes s' = Track.attributes s.
Proof.
  intros H. destruct (notify_run name old s) as (s1 & H1 & _ & [Ha _] & _).
  congruence.
Qed.

(** X20.  [merge] keeps every attribute of the track that holds a value:
    an attribute that is neither [null] nor [undefined] is the same after
    the merge, whatever the other tracks say. *)
Theorem merge_keeps_own_attribute
    (others : list Track) (s : Track) (key : string) (value : JsVal) :
  Track.attributes s !! key = Some value ->
  is_nullish value = false ->
  Track.attributes (snd (Track.merge others s)) !! key = Some value.
Proof.
  intros Hv Hn.
  apply (preserves_snd (fun s => Track.attributes s !! key = Some value));
    [|done].
  apply preserves_merge_with.
  - split; [|split; [|split; [|split]]]; try (by intros ? ? ?).
    intros name old s0 r s0' H0 Hrun.
    by rewrite (notify_attributes _ _ _ _ _ Hrun).
  - by intros ? ? ?.
  - intros [k w] s0 r s0' H0. unfold Track.merge_attribute.
    unfold Track.bind at 1. unfold Track.get at 1. cbn [fst snd].
    destruct (decide (k = key)) as [->|Hne].
    + unfold obj_get. rewrite H0. simpl. rewrite Hn. by intros [= <- <-].
    + destruct (is_nullish (obj_get _ _)); [|by intros [= <- <-]].
      unfold Track.setAttribute, Track.bind, Track.get, Track.modify.
      intros Hrun. rewrite (notify_attributes _ _ _ _ _ Hrun). simpl.
      by rewrite lookup_insert_ne.
Qed.

Lemma merge_keeps_own_attribute_witness :
  Track.attributes
    (snd (Track.merge
            [Track.with_attributes {[ "color"%string := JStr "red" ]} track_B_5_7]
            (Track.with_attributes {[ "color"%string := JStr "blue" ]} track_A_5)))
    !! "color"%string
  = Some (JStr "blue").
Proof.
  apply (merge_keeps_own_attribute
           [Track.with_attributes {[ "color"%string := JStr "red" ]} track_B_5_7]
           (Track.with_attributes {[ "color"%string := JStr "blue" ]} track_A_5)
           "color"%string (JStr "blue")).
  - vm_compute. reflexivity.
  - reflexivity.
Defined.

(** ** Features, geometry and attributes *)

Lemma setFeature_Ok_inv (fb : Feature) (geom : list GeoFeature) (s : Track) x s' :
  Track.setFeature fb geom s = (Ok x, s') ->
  truthy (Feature.keyframe
            (Track.merged_feature
               (arr_get (Track.features s) (Feature.frame fb)) fb)) = true.
Proof.
  intros H. destruct (truthy _) eqn:E; [done|].
  rewrite (setFeature_throws fb geom s E) in H. done.
Qed.

(** X21.  What [setFeature] returns is what [getFeature] finds: after a
    call that returns, the frame of the argument holds the returned
    feature, a keyframe on that frame whose box, where the argument brings
    one, is the box of the argument rounded to integers.  Every other
    frame holds what it held, apart from its geometry collection, and
    without patches every other frame is as it was.  Setting the returned
    feature again, without patches, changes nothing when the argument
    brought a box. *)
Theorem setFeature_then_getFeature
    (fb : Feature) (geom : list GeoFeature) (s : Track) (x : Feature) (s' : Track) :
  Track.setFeature fb geom s = (Ok x, s') ->
  Track.getFeature s' (Feature.frame fb) = Ok (Some x, Some x, Some x)
  /\ Feature.frame x = Feature.frame fb
  /\ truthy (Feature.keyframe x) = true
  /\ (forall b, Feature.bounds fb = Some b ->
                Feature.bounds x = Some (round_bounds b))
  /\ (forall j, j <> Feature.frame fb ->
                same_apart_from_geometry (arr_get (Track.features s) j)
                                         (arr_get (Track.features s') j))
  /\ (geom = [] ->
      forall j, j <> Feature.frame fb ->
                arr_get (Track.features s') j = arr_get (Track.features s) j)
  /\ (is_Some (Feature.bounds fb) ->
      exists s'',
        Track.setFeature x [] s' = (Ok x, s'')
        /\ forall j, arr_get (Track.features s'') j = arr_get (Track.features s') j).
Proof.
  intros Hrun. pose proof (setFeature_Ok_inv _ _ _ _ _ Hrun) as Hk.
  destruct (setFeature_success fb geom s Hk) as (s1 & Hrun1 & Hf & _).
  rewrite Hrun in Hrun1. injection Hrun1 as Hx <-.
  destruct (patched_fields
              (Track.merged_feature
                 (arr_get (Track.features s) (Feature.frame fb)) fb) geom)
    as (Hpf & Hpk & _ & Hpb & _).
  destruct (merged_fields (arr_get (Track.features s) (Feature.frame fb)) fb)
    as (Hmf & _ & _ & Hmb & _).
  rewrite <- Hx in Hpf, Hpk, Hpb, Hf.
  assert (arr_get (Track.features s') (Feature.frame fb) = Some x) as Hst.
  { by rewrite Hf, decide_True. }
  assert (Feature.frame x = Feature.frame fb) as Hfr by congruence.
  split; [by apply getFeature_stored|]. split; [done|].
  split; [congruence|]. split; [|split; [|split]].
  - intros b Hb. rewrite Hpb, Hmb, Hb. done.
  - intros j Hj. apply same_apart_from_geometry_eq.
    by rewrite Hf, decide_False.
  - intros _ j Hj. by rewrite Hf, decide_False.
  - intros [b Hb].
    assert (Feature.bounds x = Some (round_bounds b)) as Hbx.
    { rewrite Hpb, Hmb, Hb. done. }
    assert (Track.with_patched_geometry
              (Track.merged_feature
                 (arr_get (Track.features s') (Feature.frame x)) x) [] = x) as Hre.
    { rewrite Hfr, Hst. apply respread. intros b' Hb'.
      rewrite Hbx in Hb'. injection Hb' as <-. apply round_bounds_idem. }
    destruct (setFeature_success x [] s') as (s'' & Hrun2 & Hf2 & _).
    { rewrite Hfr, Hst.
      destruct (merged_fields (Some x) x) as (_ & -> & _). simpl.
      rewrite over_same. congruence. }
    rewrite Hre in Hrun2, Hf2. exists s''. split; [done|].
    intros j. rewrite Hf2. case_decide; [|done]. subst j. by rewrite Hfr, Hst.
Qed.

Lemma setFeature_then_getFeature_witness :
  let fb := keyframe_at 7 false (1 # 2, 1, 3, 3)%Q in
  let r := Track.setFeature fb [] track_1_5_10 in
  exists x, fst r = Ok x
            /\ Track.getFeature (snd r) 7 = Ok (Some x, Some x, Some x)
            /\ Feature.bounds x = Some (1, 1, 3, 3)%Q.
Proof.
  intros fb r.
  destruct r as [[x|e] s'] eqn:Er; [|vm_compute in Er; discriminate].
  destruct (setFeature_then_getFeature fb [] track_1_5_10 x s' Er)
    as (Hg & _ & _ & Hb & _).
  exists x. split; [reflexivity|]. split; [exact Hg|].
  exact (Hb _ eq_refl).
Defined.

(** X22.  [removeFeatureGeometry] on a frame that holds a feature returns
    whether [getFeatureGeometry] finds anything for the same selector, and
    takes out the first geometry it finds: what [getFeatureGeometry] lists
    afterwards is the old list without its head.  The index and the
    bounds stay, every other frame holds what it held apart from its
    geometry collection (the geometry is cut out of the collection of the
    frame, which another frame can hold too), and when nothing is found
    the track is untouched.  On a frame without a feature the call throws
    (a property of [undefined] is read) and the track is untouched. *)
Theorem removeFeatureGeometry_removes_first
    (frame : nat) (key : option string) (type : option GeoType) (s : Track) :
  match arr_get (Track.features s) frame with
  | None => Track.removeFeatureGeometry frame key type s = (Throw TypeError, s)
  | Some _ =>
      exists found s',
        Track.removeFeatureGeometry frame key type s = (Ok found, s')
        /\ (found = true <-> Track.getFeatureGeometry s frame key type <> [])
        /\ Track.getFeatureGeometry s' frame key type
           = tail (Track.getFeatureGeometry s frame key type)
        /\ (forall j, j <> frame ->
                      same_apart_from_geometry (arr_get (Track.features s) j)
                                               (arr_get (Track.features s') j))
        /\ Track.featureIndex s' = Track.featureIndex s
        /\ Track.begin s' = Track.begin s
        /\ Track.end_ s' = Track.end_ s
        /\ (found = false -> s' = s)
  end.
Proof.
  unfold Track.removeFeatureGeometry, Track.getFeatureGeometry.
  destruct (arr_get (Track.features s) frame) as [x|] eqn:Ex;
    unfold Track.bind at 1; unfold Track.get at 1; rewrite Ex; [|reflexivity].
  destruct (Feature.geometry x) as [g|] eqn:Eg.
  - pose proof (remove_first_filter (Track.geo_selected key type) g) as Hrf.
    destruct (Track.remove_first (Track.geo_selected key type) g) as [g'|].
    + destruct Hrf as [Hne Htl].
      unfold Track.bind, Track.modify.
      match goal with
      | |- context [Track.notify ?a ?b ?c] =>
          destruct (notify_run a b c)
            as (s' & -> & (Hf & Hi & Hb & He) & _)
      end.
      exists true, s'. split; [done|]. split; [done|].
      rewrite Hf, Hi, Hb, He. simpl. rewrite arr_get_set_eq. simpl.
      split; [done|]. split; [|done].
      intros j Hj. apply same_apart_from_geometry_eq.
      by rewrite arr_get_set_ne.
    + exists false, s. rewrite Ex, Eg, Hrf. by repeat split.
  - exists false, s. rewrite Ex, Eg. by repeat split.
Qed.

Lemma fold_patch_last (pre : list GeoFeature) (geo : GeoFeature)
    (base : list GeoFeature) :
  fold_left geo_patch (pre ++ [geo]) base
  = geo_patch (fold_left geo_patch pre base) geo.
Proof. by rewrite fold_left_app. Qed.

(** X23.  The last geometry handed to [setFeature] is stored:
    [getFeatureGeometry] for its own key and type finds it on the frame of
    the feature. *)
Theorem setFeature_last_patch_found
    (fb : Feature) (pre : list GeoFeature) (geo : GeoFeature)
    (s : Track) (x : Feature) (s' : Track) :
  Track.setFeature fb (pre ++ [geo]) s = (Ok x, s') ->
  geo ∈ Track.getFeatureGeometry s' (Feature.frame fb)
          (geo_key geo) (Some (geo_type geo)).
Proof.
  intros Hrun. pose proof (setFeature_Ok_inv _ _ _ _ _ Hrun) as Hk.
  destruct (setFeature_success fb (pre ++ [geo]) s Hk) as (s1 & Hrun1 & Hf & _).
  rewrite Hrun in Hrun1. injection Hrun1 as Hx <-.
  unfold Track.getFeatureGeometry. rewrite Hf, decide_True by done.
  unfold Track.with_patched_geometry, Track.patched_geometry.
  rewrite fold_patch_last.
  rewrite (proj2 (Nat.ltb_lt _ _) (geo_patch_length _ geo)), orb_true_r.
  simpl. apply list_elem_of_In, filter_In. split.
  - apply list_elem_of_In, geo_patch_elem.
  - apply geo_selected_self.
Qed.

Lemma setFeature_last_patch_found_witness :
  let geo := {| geo_key := Some "head"%string; geo_type := Point;
                geo_coordinates := [(1, 2)%Q] |} in
  let fb := keyframe_at 7 false (1, 1, 3, 3)%Q in
  geo ∈ Track.getFeatureGeometry (snd (Track.setFeature fb [geo] track_1_5_10)) 7
          (Some "head"%string) (Some Point).
Proof.
  intros geo fb.
  destruct (Track.setFeature fb [geo] track_1_5_10) as [[x|e] s'] eqn:Er;
    [|vm_compute in Er; discriminate].
  exact (setFeature_last_patch_found fb [] geo track_1_5_10 x s' Er).
Defined.

(** X24.  [setFeatureAttribute] on a frame that holds a feature sets the
    one attribute of that feature and keeps its other attributes and
    fields; the other frames, the index and the bounds stay.  The notifier
    is handed the feature as it is after the edit.  On a frame without a
    feature nothing happens: no edit, no notification. *)
Theorem setFeatureAttribute_sets
    (frame : nat) (name : string) (value : JsVal) (s : Track) :
  match arr_get (Track.features s) frame with
  | None => Track.setFeatureAttribute frame name value s = (Ok tt, s)
  | Some f =>
      exists s' f',
        Track.setFeatureAttribute frame name value s = (Ok tt, s')
        /\ arr_get (Track.features s') frame = Some f'
        /\ f' = Feature.set_attributes
                  (Some (<[name := value]> (default ∅ (Feature.attributes f)))) f
        /\ (Feature.attributes f' ≫= (.!! name)) = Some value
        /\ (forall k, k <> name ->
              (Feature.attributes f' ≫= (.!! k)) = (Feature.attributes f ≫= (.!! k)))
        /\ (forall j, j <> frame ->
                      arr_get (Track.features s') j = arr_get (Track.features s) j)
        /\ Track.featureIndex s' = Track.featureIndex s
        /\ Track.begin s' = Track.begin s
        /\ Track.end_ s' = Track.end_ s
        /\ Track.emitted s'
           = Track.emitted s
             ++ (if Track.isInitialized s && Track.notifier s
                 then [Build_Notification EvFeature (OldFeature f')] else [])
  end.
Proof.
  unfold Track.setFeatureAttribute.
  destruct (arr_get (Track.features s) frame) as [f|] eqn:Ef;
    unfold Track.bind at 1; unfold Track.get at 1; rewrite Ef; [|reflexivity].
  unfold Track.bind, Track.modify.
  match goal with
  | |- context [Track.notify ?a ?b ?c] =>
      destruct (notify_run a b c)
        as (s' & -> & (Hf & Hi & Hb & He) & _ & _ & _ & Hem)
  end.
  eexists s', _. split; [done|]. rewrite Hf, Hi, Hb, He, Hem. simpl.
  split; [apply arr_get_set_eq|]. split; [reflexivity|].
  split; [cbn; by rewrite lookup_insert_eq|]. split.
  - intros k Hk. cbn. rewrite lookup_insert_ne by done.
    destruct (Feature.attributes f); cbn; [done|]. by rewrite lookup_empty.
  - split; [|done]. intros j Hj. by rewrite arr_get_set_ne.
Qed.

(** ** The track item and the type list *)

(** X25.  On a track whose stored features each sit at the position of
    their own [frame], the arrows of the track item step through the
    stored frames: [gotoNext] seeks the first stored frame after the
    current one, [gotoPrevious] the last one before it, and from a stored
    frame each undoes the other.  (The constructor only checks the first
    feature of the array; a feature stored away from its own [frame] is
    outside this statement.) *)
Theorem goto_next_previous (s : Track) (f p : nat) :
  frames_stored s ->
  (TrackItem.gotoNext s f = Some p <-> next_keyframe s (S f) p)
  /\ (TrackItem.gotoPrevious s f = Some p
      <-> 0 < f /\ previous_keyframe s (f - 1) p)
  /\ (is_Some (arr_get (Track.features s) f) ->
      (TrackItem.gotoNext s f = Some p -> TrackItem.gotoPrevious s p = Some f)
      /\ (TrackItem.gotoPrevious s f = Some p -> TrackItem.gotoNext s p = Some f)).
Proof.
  intros Hs. split; [by apply gotoNext_spec|]. split; [by apply gotoPrevious_spec|].
  intros Hf. split.
  - rewrite (gotoNext_spec s f p Hs), (gotoPrevious_spec s p f Hs).
    intros (Hle & Hp & Hgap). split; [lia|]. split; [lia|]. split; [done|].
    intros j Hj1 Hj2. apply Hgap; lia.
  - rewrite (gotoPrevious_spec s f p Hs), (gotoNext_spec s p f Hs).
    intros (Hpos & Hle & Hp & Hgap). split; [lia|]. split; [done|].
    intros j Hj1 Hj2. apply Hgap; lia.
Qed.

Lemma goto_next_previous_witness :
  TrackItem.gotoNext track_1_5_10 5 = Some 10
  /\ TrackItem.gotoPrevious track_1_5_10 10 = Some 5.
Proof.
  destruct (goto_next_previous track_1_5_10 5 10) as (_ & _ & H).
  - apply coherent_frames_stored, coherentb_sound. vm_compute. reflexivity.
  - destruct H as [H _]; [vm_compute; eauto|].
    split; [reflexivity|]. apply H. reflexivity.
Defined.

Lemma count_step_fold (fts : list TypeList.FilteredTrack) (acc : gmap string nat) :
  Forall (fun ft => snd ft < List.length (Track.confidencePairs (fst ft))) fts ->
  exists m,
    fold_left TypeList.count_step fts (Ok acc) = Ok m
    /\ forall t,
         default 0 (m !! t)
         = default 0 (acc !! t)
           + List.length
               (List.filter
                  (fun ft => match Track.getType (fst ft) (snd ft) with
                             | Ok cp => String.eqb (fst cp) t
                             | Throw _ => false
                             end) fts).
Proof.
  revert acc. induction fts as [|ft fts IH]; intros acc Hall.
  - exists acc. split; [done|]. intros t. simpl. lia.
  - apply Forall_cons in Hall as [Hft Hall]. simpl.
    unfold Track.getType at 1.
    destruct (lookup_lt_is_Some_2 _ _ Hft) as [cp Hcp]. rewrite Hcp.
    destruct (IH (<[fst cp := default 0 (acc !! fst cp) + 1]> acc) Hall)
      as (m & Hm & Hcount).
    exists m. split; [done|]. intros t. rewrite Hcount.
    unfold Track.getType. rewrite Hcp.
    destruct (String.eqb_spec (fst cp) t) as [->|Hne].
    + rewrite lookup_insert_eq. simpl. lia.
    + rewrite lookup_insert_ne by done. lia.
Qed.

(** X26.  [typeCounts] counts, for every type, the filtered tracks whose
    pair in use ([getType] at the index of the filter) has that type, when
    every track has a pair at its index; one track without such a pair
    makes the whole computation throw. *)
Theorem typeCounts_counts (filteredTracks : list TypeList.FilteredTrack) :
  (Forall (fun ft => snd ft < List.length (Track.confidencePairs (fst ft)))
          filteredTracks ->
   exists m,
     TypeList.typeCounts filteredTracks = Ok m
     /\ forall t,
          default 0 (m !! t)
          = List.length
              (List.filter
                 (fun ft => match Track.getType (fst ft) (snd ft) with
                            | Ok cp => String.eqb (fst cp) t
                            | Throw _ => false
                            end) filteredTracks))
  /\ (Exists (fun ft => List.length (Track.confidencePairs (fst ft)) <= snd ft)
             filteredTracks ->
      TypeList.typeCounts filteredTracks = Throw IndexError).
Proof.
  unfold TypeList.typeCounts. split.
  - intros Hall. destruct (count_step_fold filteredTracks ∅ Hall) as (m & Hm & Hc).
    exists m. split; [done|]. intros t. rewrite Hc. by rewrite lookup_empty.
  - generalize (∅ : gmap string nat) as acc.
    induction filteredTracks as [|ft fts IH]; intros acc Hex.
    + by apply Exists_nil in Hex.
    + simpl. unfold Track.getType.
      destruct (Track.confidencePairs (fst ft) !! snd ft) as [cp|] eqn:Ecp.
      * apply Exists_cons in Hex as [Hft|Hex]; [|by apply IH].
        apply lookup_lt_Some in Ecp. lia.
      * apply count_step_Throw.
Qed.

Lemma typeCounts_counts_witness :
  exists m,
    TypeList.typeCounts
      [(Track.with_confidencePairs [("fish"%string, 1%Q)] track_A_5, 0);
       (Track.with_confidencePairs [("fish"%string, 1%Q)] track_B_5_7, 0)] = Ok m
    /\ default 0 (m !! "fish"%string) = 2.
Proof.
  destruct (typeCounts_counts
              [(Track.with_confidencePairs [("fish"%string, 1%Q)] track_A_5, 0);
               (Track.with_confidencePairs [("fish"%string, 1%Q)] track_B_5_7, 0)])
    as [H _].
  destruct H as (m & Hm & Hc).
  - repeat constructor.
  - exists m. split; [exact Hm|]. rewrite Hc. reflexivity.
Defined.

Lemma headCheckState_one (visibleTypes checkedTypes : list string) :
  (forall x, x ∈ visibleTypes -> x ∈ checkedTypes) ->
  TypeList.headCheckState visibleTypes checkedTypes = 1%Z.
Proof.
  intros H. unfold TypeList.headCheckState. by rewrite difference_nil.
Qed.

Lemma headCheckState_zero (visibleTypes checkedTypes : list string) :
  visibleTypes <> [] ->
  (forall x, x ∈ visibleTypes -> x ∉ checkedTypes) ->
  TypeList.headCheckState visibleTypes checkedTypes = 0%Z.
Proof.
  intros Hne H. unfold TypeList.headCheckState. rewrite difference_all by done.
  destruct visibleTypes; [done|]. simpl. by rewrite Nat.eqb_refl.
Qed.

(** X27.  The head check box of the type list toggles the visible types
    and nothing else.  A click while no visible type is checked checks
    them all (the state becomes 1); a click in any other state unchecks
    them all (the state becomes 0, or stays 1 when no type is visible).
    A type that is not visible is checked afterwards exactly when it was
    checked before. *)
Theorem headCheckClicked_toggles (visibleTypes checkedTypes : list string) :
  let clicked := TypeList.headCheckClicked visibleTypes checkedTypes in
  (TypeList.headCheckState visibleTypes checkedTypes = 0%Z ->
   TypeList.headCheckState visibleTypes clicked = 1%Z
   /\ forall t, t ∈ visibleTypes -> t ∈ clicked)
  /\ (TypeList.headCheckState visibleTypes checkedTypes <> 0%Z ->
      TypeList.headCheckState visibleTypes clicked
      = (if decide (visibleTypes = []) then 1%Z else 0%Z)
      /\ forall t, t ∈ visibleTypes -> t ∉ clicked)
  /\ (forall t, t ∉ visibleTypes -> (t ∈ clicked <-> t ∈ checkedTypes)).
Proof.
  intros clicked. subst clicked. unfold TypeList.headCheckClicked.
  destruct (Z.eqb_spec (TypeList.headCheckState visibleTypes checkedTypes) 0)
    as [E|E].
  - split; [|split; [done|]].
    + intros _.
      assert (forall t, t ∈ visibleTypes ->
                t ∈ TypeList.union
                      (TypeList.difference checkedTypes visibleTypes) visibleTypes)
        as Hall by (intros t Ht; apply union_elem; by right).
      split; [by apply headCheckState_one|done].
    + intros t Ht. rewrite union_elem, difference_elem. split.
      * intros [[? _]|?]; done.
      * intros Hc. left. done.
  - split; [done|]. split.
    + intros _.
      assert (forall t, t ∈ visibleTypes ->
                t ∉ TypeList.difference checkedTypes visibleTypes) as Hnone.
      { intros t Ht. rewrite difference_elem. by intros [_ ?]. }
      split; [|done]. case_decide as Hv.
      * subst. done.
      * by apply headCheckState_zero.
    + intros t Ht. rewrite difference_elem. split; [by intros [? _]|done].
Qed.

Lemma headCheckClicked_toggles_witness :
  TypeList.headCheckState ["fish"%string; "crab"%string]
    (TypeList.headCheckClicked ["fish"%string; "crab"%string] ["eel"%string]) = 1%Z.
Proof.
  destruct (headCheckClicked_toggles ["fish"%string; "crab"%string] ["eel"%string])
    as [H _].
  destruct H as [H _]; [reflexivity | exact H].
Defined.

(** ** split *)

Lemma coherent_well_formed (s : Track) :
  coherent s -> initialized s -> well_formed s.
Proof.
  intros (Hs & Hix & Hst & Hbe) Hinit.
  destruct (Hbe Hinit) as (b & e & Hb & He & Hbi & Hei & Hall).
  split.
  - rewrite Hb. unfold of_frame. simpl. apply Z.leb_le. lia.
  - intros i f Hf. destruct (Hst _ _ Hf) as [Hfr Hk].
    assert (i ∈ Track.featureIndex s) as Hi by (apply Hix; eauto).
    apply Hall in Hi. rewrite Hb, He.
    split; [done|]. split; [done|]. split; apply num_leb_of_frame; lia.
Qed.

Lemma present_slice (fs : list (option Feature)) (b frame : nat) (f : Feature) :
  f ∈ present (slice fs (of_frame b) (of_frame frame))
  <-> exists j, b <= j < frame /\ arr_get fs j = Some f.
Proof.
  rewrite elem_of_present. split.
  - intros [i Hi]. rewrite arr_get_slice in Hi. case_decide; [|done].
    exists (b + i). split; [lia|done].
  - intros (j & Hj & Hf). exists (j - b). rewrite arr_get_slice.
    rewrite decide_True by lia. by replace (b + (j - b)) with j by lia.
Qed.

Lemma present_slice_from (fs : list (option Feature)) (frame : nat) (f : Feature) :
  f ∈ present (slice_from fs (of_frame frame))
  <-> exists j, frame <= j /\ arr_get fs j = Some f.
Proof.
  rewrite elem_of_present. split.
  - intros [i Hi]. rewrite arr_get_slice_from in Hi.
    exists (frame + i). split; [lia|done].
  - intros (j & Hj & Hf). exists (j - frame). rewrite arr_get_slice_from.
    by replace (frame + (j - frame)) with j by lia.
Qed.

Lemma frame_or_Some (p : nat) (d : num) :
  (p = 0 -> d = of_frame 0) -> Track.frame_or (Some p) d = of_frame p.
Proof. destruct p as [|p]; simpl; [by intros ->|done]. Qed.

(** X29.  [split] of a coherent, initialized track at a frame with
    [canSplit] returns two coherent tracks that share out the keyframes:
    the first has the keyframes before the frame, the second those from
    the frame on, and each has at least one. *)
Theorem split_keeps_coherent (s : Track) (frame : nat) (id1 id2 : Z) :
  coherent s -> initialized s -> Track.canSplit s frame = true ->
  exists t1 t2,
    Track.split s frame id1 id2 = Ok (t1, t2)
    /\ coherent t1 /\ coherent t2
    /\ (forall i, i ∈ Track.featureIndex t1
                  <-> i ∈ Track.featureIndex s /\ i < frame)
    /\ (forall i, i ∈ Track.featureIndex t2
                  <-> i ∈ Track.featureIndex s /\ frame <= i)
    /\ initialized t1 /\ initialized t2.
Proof.
  intros Hc Hinit Hcan. pose proof Hc as (Hs & Hix & Hst & Hbe).
  destruct (Hbe Hinit) as (b & e & Hb & He & Hbi & Hei & Hall).
  pose proof (coherent_well_formed s Hc Hinit) as Hwf.
  pose proof (coherent_frames_stored s Hc) as Hfs.
  unfold Track.canSplit in Hcan. rewrite Hb, He in Hcan.
  apply andb_prop in Hcan as [Hlt Hle].
  apply num_ltb_of_frame in Hlt. apply num_leb_of_frame in Hle.
  assert (Hcan : Track.canSplit s frame = true).
  { unfold Track.canSplit. rewrite Hb, He.
    rewrite (proj2 (num_ltb_of_frame b frame) Hlt).
    by rewrite (proj2 (num_leb_of_frame frame e) Hle). }
  pose proof (stored_from_slice s b frame Hwf) as H1.
  pose proof (stored_from_slice_from s frame Hwf) as H2.
  (* the last keyframe before [frame] and the first one from [frame] on *)
  destruct (Track.getPreviousKeyframe s (of_frame (frame - 1))) as [p|] eqn:Ep.
  2:{ rewrite getPreviousKeyframe_None in Ep.
      apply Hix in Hbi as [x Hx]. rewrite Ep in Hx; [done|lia]. }
  apply (getPreviousKeyframe_Some _ _ _ Hfs) in Ep as Hp.
  destruct Hp as (Hple & Hpst & Hpmax).
  destruct (Track.getNextKeyframe s (of_frame frame)) as [q|] eqn:Eq.
  2:{ rewrite getNextKeyframe_None in Eq.
      apply Hix in Hei as [x Hx]. rewrite Eq in Hx; [done|lia]. }
  apply (getNextKeyframe_Some _ _ _ Hfs) in Eq as Hq.
  destruct Hq as (Hqle & Hqst & Hqmin).
  assert (b <= p) as Hbp.
  { destruct (decide (b <= p)); [done|].
    apply Hix in Hbi as [x Hx]. rewrite Hpmax in Hx; [done|lia|lia]. }
  assert (q <= e) as Hqe.
  { destruct (decide (q <= e)); [done|].
    apply Hix in Hei as [x Hx]. rewrite Hqmin in Hx; [done|lia|lia]. }
  set (R1 := {| TrackData.trackId := id1;
                TrackData.meta := Some (Track.meta s);
                TrackData.begin := of_frame b;
                TrackData.end_ := Track.frame_or (Some p) (of_frame b);
                TrackData.features :=
                  slice (Track.features s) (of_frame b) (of_frame frame);
                TrackData.confidencePairs := Track.confidencePairs s;
                TrackData.attributes := Track.attributes s |}).
  set (R2 := {| TrackData.trackId := id2;
                TrackData.meta := Some (Track.meta s);
                TrackData.begin := Track.frame_or (Some q) (of_frame e);
                TrackData.end_ := of_frame e;
                TrackData.features := slice_from (Track.features s) (of_frame frame);
                TrackData.confidencePairs := Track.confidencePairs s;
                TrackData.attributes := Track.attributes s |}).
  assert (Hfr1 : forall i, i ∈ Feature.frame <$> present (TrackData.features R1)
                           <-> i ∈ Track.featureIndex s /\ i < frame).
  { intros i. rewrite list_elem_of_fmap, Hix. split.
    - intros (f & -> & Hf). apply present_slice in Hf as (j & Hj & Hf).
      destruct (Hst _ _ Hf) as [-> _]. split; [eauto|lia].
    - intros [[f Hf] Hi]. exists f. destruct (Hst _ _ Hf) as [-> _].
      split; [done|]. apply present_slice. exists i.
      split; [|done]. split; [|done]. apply Hall, Hix. eauto. }
  assert (Hfr2 : forall i, i ∈ Feature.frame <$> present (TrackData.features R2)
                           <-> i ∈ Track.featureIndex s /\ frame <= i).
  { intros i. rewrite list_elem_of_fmap, Hix. split.
    - intros (f & -> & Hf). apply present_slice_from in Hf as (j & Hj & Hf).
      destruct (Hst _ _ Hf) as [-> _]. split; [eauto|lia].
    - intros [[f Hf] Hi]. exists f. destruct (Hst _ _ Hf) as [-> _].
      split; [done|]. apply present_slice_from. eauto. }
  assert (tight_record R1) as Ht1.
  { split; [by destruct (stored_from_loadable _ _ H1)|]. split.
    - apply Forall_forall. intros f Hf. apply elem_of_present in Hf as [i Hi].
      destruct (H1 _ _ Hi) as [_ [Hk Hbd]]. split; [by rewrite Hk|done].
    - intros _. exists b, p. split; [done|]. split.
      { simpl. apply frame_or_Some. intros ->. f_equal. lia. }
      split; [apply Hfr1; split; [done|lia]|].
      split; [apply Hfr1; split; [by apply Hix|lia]|].
      intros i Hi. apply Hfr1 in Hi as [Hi Hif]. pose proof (Hall i Hi).
      split; [lia|]. destruct (decide (i <= p)); [done|].
      apply Hix in Hi as [x Hx]. rewrite Hpmax in Hx; [done|lia|lia]. }
  assert (tight_record R2) as Ht2.
  { split; [by destruct (stored_from_loadable _ _ H2)|]. split.
    - apply Forall_forall. intros f Hf. apply elem_of_present in Hf as [i Hi].
      destruct (H2 _ _ Hi) as [_ [Hk Hbd]]. split; [by rewrite Hk|done].
    - intros _. exists q, e. split.
      { simpl. apply frame_or_Some. lia. }
      split; [done|].
      split; [apply Hfr2; split; [by apply Hix|lia]|].
      split; [apply Hfr2; split; [done|lia]|].
      intros i Hi. apply Hfr2 in Hi as [Hi Hif]. pose proof (Hall i Hi).
      split; [|lia]. destruct (decide (q <= i)); [done|].
      apply Hix in Hi as [x Hx]. rewrite Hqmin in Hx; [done|lia|lia]. }
  destruct (fromJSON_coherent R1 Ht1) as (t1 & Hrun1 & Hc1 & Hl1 & _).
  destruct (fromJSON_coherent R2 Ht2) as (t2 & Hrun2 & Hc2 & Hl2 & _).
  assert (Hi1 : forall i, i ∈ Track.featureIndex t1
                          <-> i ∈ Track.featureIndex s /\ i < frame).
  { intros i. destruct Hc1 as (_ & Hix1 & _). rewrite Hix1, <- Hfr1.
    rewrite list_elem_of_fmap. split.
    - intros [g Hg]. apply Hl1 in Hg as (f & Hf & Hfi & _). eauto.
    - intros (f & -> & Hf). exists (force_keyframe f). apply Hl1. eauto. }
  assert (Hi2 : forall i, i ∈ Track.featureIndex t2
                          <-> i ∈ Track.featureIndex s /\ frame <= i).
  { intros i. destruct Hc2 as (_ & Hix2 & _). rewrite Hix2, <- Hfr2.
    rewrite list_elem_of_fmap. split.
    - intros [g Hg]. apply Hl2 in Hg as (f & Hf & Hfi & _). eauto.
    - intros (f & -> & Hf). exists (force_keyframe f). apply Hl2. eauto. }
  exists t1, t2. split.
  { unfold Track.split. rewrite Hcan. cbn [negb].
    rewrite of_frame_pred by lia. rewrite Ep, Eq, Hb, He.
    fold R1. fold R2. by rewrite Hrun1, Hrun2. }
  split; [done|]. split; [done|]. split; [done|]. split; [done|]. split.
  - intros Hnil. assert (b ∈ Track.featureIndex t1) as H
      by (apply Hi1; split; [done|lia]).
    rewrite Hnil in H. by apply elem_of_nil in H.
  - intros Hnil. assert (e ∈ Track.featureIndex t2) as H
      by (apply Hi2; split; [done|lia]).
    rewrite Hnil in H. by apply elem_of_nil in H.
Qed.

Lemma split_keeps_coherent_witness :
  exists t1 t2,
    Track.split track_1_5_10 6 100 200 = Ok (t1, t2)
    /\ coherent t1 /\ coherent t2.
Proof.
  destruct (split_keeps_coherent track_1_5_10 6 100 200)
    as (t1 & t2 & Hrun & Hc1 & Hc2 & _).
  - apply coherentb_sound. vm_compute. reflexivity.
  - discriminate.
  - reflexivity.
  - exists t1, t2. split; [exact Hrun|]. split; [exact Hc1 | exact Hc2].
Defined.

(** *** Renaming a type *)

Lemma filter_label_all (l : list ConfidencePair) (n : string) :
  n ∉ l.*1 -> List.filter (fun p => negb (String.eqb (fst p) n)) l = l.
Proof.
  intros H. apply filter_all, Forall_forall. intros [a v] Hp.
  apply negb_true_iff, String.eqb_neq. simpl. intros ->. apply H.
  apply list_elem_of_fmap. by exists (n, v).
Qed.

Lemma remove_label (l : list ConfidencePair) (n : string) :
  NoDup l.*1 ->
  match findIndex_name l n with
  | Some i => delete i l
  | None => l
  end = List.filter (fun p => negb (String.eqb (fst p) n)) l.
Proof.
  induction l as [|[a v] l IH]; simpl; [done|].
  intros Hnd. apply NoDup_cons in Hnd as [Ha Hnd].
  destruct (String.eqb_spec a n) as [->|Hne]; simpl.
  - by rewrite filter_label_all.
  - specialize (IH Hnd). destruct (findIndex_name l n); simpl; by rewrite <- IH.
Qed.

Lemma filter_Permutation_list {A} (p : A -> bool) (l l' : list A) :
  l ≡ₚ l' -> List.filter p l ≡ₚ List.filter p l'.
Proof.
  induction 1 as [|x l l' _ IH|x y l|l l' l'' _ IH1 _ IH2]; simpl.
  - done.
  - destruct (p x); by rewrite IH.
  - destruct (p x), (p y); try done. apply Permutation_swap.
  - by rewrite IH1.
Qed.

Lemma filter_labels_sublist (p : ConfidencePair -> bool) (l : list ConfidencePair) :
  sublist (List.filter p l).*1 l.*1.
Proof.
  induction l as [|x l IH]; simpl; [done|].
  destruct (p x); simpl; by constructor.
Qed.

Lemma filter_label_gone (l : list ConfidencePair) (n : string) :
  n ∉ (List.filter (fun p => negb (String.eqb (fst p) n)) l).*1.
Proof.
  intros H. apply list_elem_of_fmap in H as ([a v] & -> & H).
  apply list_elem_of_In, filter_In in H as [_ H]. simpl in H.
  by rewrite String.eqb_refl in H.
Qed.

(** X30.  [setType] with a confidence below 1 and a [replace] renames: on
    a list with one pair for each type, the pair of the replaced type and
    the old pair of the new type go, the new pair comes in (unless the
    replaced type is the new type itself, which then disappears), and the
    other pairs stay.  The list is in descending order afterwards and
    still has one pair for each type. *)
Theorem setType_replace (trackType : string) (confidenceVal : Q)
    (replace : string) (s : Track) :
  Q_geb confidenceVal 1 = false ->
  replace <> ""%string ->
  NoDup (Track.confidencePairs s).*1 ->
  exists s',
    Track.setType trackType confidenceVal (Some replace) s = (Ok tt, s')
    /\ StronglySorted not_below (Track.confidencePairs s')
    /\ NoDup (Track.confidencePairs s').*1
    /\ Track.confidencePairs s'
       ≡ₚ List.filter (fun p => negb (String.eqb (fst p) replace))
            ((trackType, confidenceVal)
             :: List.filter (fun p => negb (String.eqb (fst p) trackType))
                  (Track.confidencePairs s))
    /\ (replace ∉ fst <$> Track.confidencePairs s')
    /\ same_timeline s s'.
Proof.
  intros Hc Hr Hnd.
  destruct (setType_run trackType confidenceVal (Some replace) s)
    as (s' & Hrun & Hp & _ & Ht & _).
  rewrite Hc in Hp. cbn [truthy_str] in Hp.
  rewrite (proj2 (String.eqb_neq replace "") Hr) in Hp.
  cbn [negb default] in Hp. cbv zeta in Hp. unfold id in Hp.
  set (old := Track.confidencePairs s) in *.
  set (spliced := splice_pair old (findIndex_name old trackType)
                    (trackType, confidenceVal)) in *.
  assert (Hsp : spliced
                ≡ₚ (trackType, confidenceVal)
                   :: List.filter (fun p => negb (String.eqb (fst p) trackType)) old).
  { subst spliced. rewrite splice_pair_perm. by rewrite (remove_label old _ Hnd). }
  assert (Hnd' : NoDup spliced.*1).
  { rewrite Hsp. simpl. apply NoDup_cons. split; [apply filter_label_gone|].
    eapply sublist_NoDup; [exact Hnd|apply filter_labels_sublist]. }
  rewrite (remove_label spliced replace Hnd') in Hp.
  assert (Hperm : Track.confidencePairs s'
                  ≡ₚ List.filter (fun p => negb (String.eqb (fst p) replace))
                       ((trackType, confidenceVal)
                        :: List.filter
                             (fun p => negb (String.eqb (fst p) trackType)) old)).
  { rewrite Hp, sort_desc_perm. by apply filter_Permutation_list. }
  exists s'. split; [done|]. split; [rewrite Hp; apply sort_desc_sorted|].
  split; [|split; [done|split; [|done]]].
  - rewrite Hp, sort_desc_perm.
    eapply sublist_NoDup; [exact Hnd'|apply filter_labels_sublist].
  - rewrite Hperm. apply filter_label_gone.
Qed.

Lemma setType_replace_witness :
  exists s',
    Track.setType "crab" (1 # 2) (Some "fish"%string)
      (Track.with_confidencePairs [("fish"%string, (9 # 10)%Q)] track_1_5_10)
    = (Ok tt, s')
    /\ ("fish"%string ∉ fst <$> Track.confidencePairs s').
Proof.
  destruct (setType_replace "crab" (1 # 2) "fish"
              (Track.with_confidencePairs [("fish"%string, (9 # 10)%Q)] track_1_5_10))
    as (s' & Hrun & _ & _ & _ & Hgone & _).
  - reflexivity.
  - discriminate.
  - simpl. apply NoDup_singleton.
  - exists s'. split; [exact Hrun | exact Hgone].
Defined.

